(** * injestdb: the incremental indexer and the schema differ

    A shallow embedding of [lib/schemas.js] and of the indexer module
    (addArchive, removeArchive, watchArchive, unwatchArchive,
    waitTillIndexed, resetOutdatedIndexes, indexArchive, unindexArchive and
    their helpers), with the properties of the specification stated over it.

    Layout:
    - [JS]       JavaScript values, property access, exceptions;
    - [Schemas]  validateAndSanitize, diff, diffTables, getTableNames,
                 applyDiff, addIndex, removeIndex, getActiveTableNames,
                 addTables, removeTables;
    - [Indexer]  the store, the effect monad and the indexer's functions;
    - [Examples] concrete schemas, archives and databases;
    - the facts about each layer, with the theorems for the claims of the
      specification (C1 to C10) where their lemmas are;
    - further properties of the indexer and of the schemas (X1 to X28).

    Not embedded: [loadArchives] and [newDatArchive], which construct
    archive handles with the [DatArchive] library, and the listeners that
    [watchArchive] puts on a stream. *)

From stdpp Require Import base gmap list strings pretty.
From Stdlib Require Import ZArith Lia.

Set Warnings "-register-all,-clear-no-such-hyp".
Local Open Scope Z_scope.

#[global] Arguments String.eqb : simpl never.

(* ===================================================================== *)
(** * JavaScript values *)
(* ===================================================================== *)

Module JS.

(** Values as the program sees them: what [JSON.parse] returns, what a schema
    declaration contains.  Numbers are the integers (versions are integers).
    An object is the list of its own enumerable properties in insertion
    order; an array has its elements and, like any JS object, may carry named
    properties.  What a value inherits from its prototype is the runtime's
    (see [inherited] below). *)
Inductive jsval : Type :=
| JUndefined
| JNull
| JBool (b : bool)
| JNum (n : Z)
| JStr (s : string)
| JArr (elems : list jsval) (named : list (string * jsval))
| JObj (props : list (string * jsval)).

(** What a [throw] carries. *)
Inductive exn : Type :=
| SchemaError (msg : string)
| TypeError
| StoreError
| Rejected (why : string).

(** A computation that returns or throws. *)
Inductive result (A : Type) : Type :=
| Ok (a : A)
| Throw (e : exn).
Arguments Ok {A} a.
Arguments Throw {A} e.

Definition rbind {A B} (r : result A) (k : A → result B) : result B :=
  match r with
  | Ok a => k a
  | Throw e => Throw e
  end.

Definition is_ok {A} (r : result A) : bool :=
  match r with Ok _ => true | Throw _ => false end.

#[global] Instance result_ret : MRet result := λ A a, Ok a.
#[global] Instance result_bind : MBind result := λ A B k r, rbind r k.

(** [!!v] *)
Definition truthy (v : jsval) : bool :=
  match v with
  | JUndefined | JNull => false
  | JBool b => b
  | JNum n => negb (n =? 0)
  | JStr s => negb (String.eqb s "")
  | JArr _ _ | JObj _ => true
  end.

(** [typeof v] *)
Definition typeof (v : jsval) : string :=
  match v with
  | JUndefined => "undefined"
  | JBool _ => "boolean"
  | JNum _ => "number"
  | JStr _ => "string"
  | JNull | JArr _ _ | JObj _ => "object"
  end.

Definition isArray (v : jsval) : bool :=
  match v with JArr _ _ => true | _ => false end.

(** [a === b] where one side at least is a primitive, [null] or [undefined]
    (the program compares with [null]): primitives compare by value, and an
    object is equal to no primitive.  Whether two objects are equal is not a
    matter of their contents: see [strict_eq_shared]. *)
Definition strict_eq (a b : jsval) : bool :=
  match a, b with
  | JUndefined, JUndefined => true
  | JNull, JNull => true
  | JBool x, JBool y => Bool.eqb x y
  | JNum x, JNum y => x =? y
  | JStr x, JStr y => String.eqb x y
  | _, _ => false
  end.

(** [a === b] for any two values.  Two arrays, or two objects, are equal
    exactly when they are one and the same object, whatever they contain:
    [shared] tells whether the two values at hand are (one array written
    once and used in two declarations is; two arrays written out are not). *)
Definition strict_eq_shared (shared : bool) (a b : jsval) : bool :=
  match a, b with
  | JArr _ _, JArr _ _ | JObj _, JObj _ => shared
  | _, _ => strict_eq a b
  end.

(** ** Property lists *)

Fixpoint assoc_get {A} (k : string) (ps : list (string * A)) : option A :=
  match ps with
  | [] => None
  | (k', v) :: ps' => if String.eqb k k' then Some v else assoc_get k ps'
  end.

(** [o[k] = v] on a property list: an existing key keeps its place, a new key
    goes last (insertion order). *)
Fixpoint assoc_set {A} (k : string) (v : A) (ps : list (string * A))
  : list (string * A) :=
  match ps with
  | [] => [(k, v)]
  | (k', v') :: ps' =>
      if String.eqb k k' then (k, v) :: ps' else (k', v') :: assoc_set k v ps'
  end.

Definition index_key (i : nat) : string := pretty (N.of_nat i).

Fixpoint idx_get {A} (es : list A) (i : nat) (k : string) : option A :=
  match es with
  | [] => None
  | e :: es' => if String.eqb k (index_key i) then Some e else idx_get es' (S i) k
  end.

Fixpoint chars (s : string) : list string :=
  match s with
  | EmptyString => []
  | String c s' => String c EmptyString :: chars s'
  end.

(** [Object.keys(v)] for a value that is not null or undefined. *)
Definition own_keys (v : jsval) : list string :=
  match v with
  | JObj ps => ps.*1
  | JArr es nm => imap (λ i _, index_key i) es ++ nm.*1
  | JStr s => imap (λ i _, index_key i) (chars s)
  | _ => []
  end.

(** [v[k]] / [v.k] for an own property of [v] and for a field name of the
    program ([version], [index], [path], [schemas], [_url], ...), which no
    prototype defines: the own property, or [undefined].  Reading a property
    of null or undefined throws.  For a name that may be inherited see
    [lookup]. *)
Definition get (v : jsval) (k : string) : result jsval :=
  match v with
  | JUndefined | JNull => Throw TypeError
  | JObj ps => Ok (default JUndefined (assoc_get k ps))
  | JArr es nm =>
      Ok (match idx_get es 0 k with
          | Some e => e
          | None =>
              if String.eqb k "length" then JNum (Z.of_nat (length es))
              else default JUndefined (assoc_get k nm)
          end)
  | JStr s =>
      Ok (match idx_get (chars s) 0 k with
          | Some c => JStr c
          | None =>
              if String.eqb k "length" then JNum (Z.of_nat (String.length s))
              else JUndefined
          end)
  | JBool _ | JNum _ => Ok JUndefined
  end.

(** The elements [es], numbered from [i], with the one under the key [k]
    replaced by [x]; nothing when [k] is the key of no element. *)
Fixpoint idx_set {A} (es : list A) (i : nat) (k : string) (x : A)
  : option (list A) :=
  match es with
  | [] => None
  | e :: es' =>
      if String.eqb k (index_key i) then Some (x :: es')
      else (cons e) <$> idx_set es' (S i) k x
  end.

(** [v[k] = x] / [v.k = x], outside strict mode: it throws on null and
    undefined, is dropped silently on a primitive, and sets the property on
    an object or an array.  On an array the element under [k] is replaced
    when [k] is the index of an element, and any other name is a named
    property.  (The program assigns under the keys a value has and under
    field names; an index past the end of an array, which would lengthen it,
    and [length] are not assigned.) *)
Definition set (v : jsval) (k : string) (x : jsval) : result jsval :=
  match v with
  | JUndefined | JNull => Throw TypeError
  | JObj ps => Ok (JObj (assoc_set k x ps))
  | JArr es nm =>
      Ok (match idx_set es 0 k x with
          | Some es' => JArr es' nm
          | None => JArr es (assoc_set k x nm)
          end)
  | JBool _ | JNum _ | JStr _ => Ok v
  end.

(** Whether [k] is an own property of [v]: one of its keys, or the [length]
    of an array or of a string, an own property that [Object.keys] does not
    list. *)
Definition has_own (v : jsval) (k : string) : bool :=
  bool_decide (k ∈ own_keys v)
  || match v with
     | JArr _ _ | JStr _ => String.eqb k "length"
     | _ => false
     end.

Section Runtime.

(** What a value inherits.  [inherited v k] is the member that [v] has under
    the name [k] through its prototype chain, if it has one: for an object
    the members of [Object.prototype] ([constructor], [toString], ...), for
    an array those of [Array.prototype] too.  The runtime is not among the
    sources, and the names it defines are its own: the definitions that look
    a name up through the chain take [inherited] as a parameter, and what is
    proved of them holds for every runtime.  The members are functions,
    which are not among the values; a function is stood for by a value that
    is not [null], is truthy and has none of the fields the program reads
    (an object without properties). *)
Variable inherited : jsval → string → option jsval.

(** [v[k]] for any name [k]: the own property, else the inherited member,
    else [undefined].  Reading a property of null or undefined throws. *)
Definition lookup (v : jsval) (k : string) : result jsval :=
  x ← get v k;
  Ok (if has_own v k then x else default JUndefined (inherited v k)).

(** [k in v]: an own property or an inherited member; throws on anything
    that is not an object. *)
Definition has_in (v : jsval) (k : string) : result bool :=
  match v with
  | JObj _ | JArr _ _ => Ok (has_own v k || bool_decide (is_Some (inherited v k)))
  | _ => Throw TypeError
  end.

End Runtime.

(** [new Set(l)] iterated: the distinct elements, each at its first place. *)
Fixpoint js_set_go {A} `{EqDecision A} (seen l : list A) : list A :=
  match l with
  | [] => []
  | x :: l' =>
      if bool_decide (x ∈ seen) then js_set_go seen l'
      else x :: js_set_go (x :: seen) l'
  end.

Definition js_set {A} `{EqDecision A} (l : list A) : list A := js_set_go [] l.

(** [delete o[k]] on a property list. *)
Definition assoc_delete {A} (k : string) (ps : list (string * A))
  : list (string * A) :=
  filter (λ kv, kv.1 ≠ k) ps.

(** The elements that [v.forEach(f)] visits.  Only an array has a [forEach]:
    on any other value the call throws. *)
Definition forEach_elems (v : jsval) : result (list jsval) :=
  match v with
  | JArr es _ => Ok es
  | _ => Throw TypeError
  end.

(** [s.split(sep)] for a separator of one character: the pieces between the
    separators, one more than there are separators. *)
Fixpoint split (sep : Ascii.ascii) (s : string) : list string :=
  match s with
  | EmptyString => [EmptyString]
  | String c s' =>
      if Ascii.eqb c sep then EmptyString :: split sep s'
      else match split sep s' with
           | [] => [String c EmptyString]
           | piece :: pieces => String c piece :: pieces
           end
  end.

(** [tableNames.add(x)] and [tableNames.delete(x)] on a [Set], kept as the
    list of its elements in insertion order. *)
Definition set_add (x : string) (l : list string) : list string :=
  if bool_decide (x ∈ l) then l else l ++ [x].

Definition set_delete (x : string) (l : list string) : list string :=
  filter (λ y, y ≠ x) l.

End JS.

(* ===================================================================== *)
(** * lib/schemas.js *)
(* ===================================================================== *)

Module Schemas.
Import JS.

(** Modelled from the spec: [assert] of [./util] is not among the sources;
    section 7 has a configuration error raised at once when the check fails,
    so [assert(cond, SchemaError, msg)] throws [SchemaError msg] when [cond]
    is false and returns otherwise. *)
Definition assert (cond : bool) (msg : string) : result unit :=
  if cond then Ok () else Throw (SchemaError msg).

Definition getTableNames (schema : jsval) : list string :=
  if truthy schema
  then filter (λ k, k ≠ "version") (own_keys schema)   (* all keys except 'version' *)
  else [].

Definition arrayify (v : jsval) : jsval :=
  if isArray v then v else JArr [v] [].

Definition isArrayOfStrings (v : jsval) : bool :=
  match v with
  | JArr es _ => foldl (λ acc e, acc && String.eqb (typeof e) "string") true es
  | _ => false
  end.

(** [v > 0 && typeof v === 'number'].  The second conjunct leaves only
    numbers, for which [>] is the order of the integers. *)
Definition positive_number (v : jsval) : bool :=
  match v with
  | JNum n => 0 <? n
  | _ => false
  end.

(** The body of the [forEach] over the table names.  The assertion reads
    [schema.index], as the source does; the table's own [index] is only
    arrayified. *)
Definition sanitizeTable (acc : result jsval) (tableName : string)
  : result jsval :=
  schema ← acc;
  table ← get schema tableName;
  if strict_eq table JNull then Ok schema   (* done, this is a deleted table *)
  else
    sidx ← get schema "index";
    _ ← assert (negb (truthy sidx) || String.eqb (typeof sidx) "string"
                || isArrayOfStrings sidx)
          "The .index field must be a string or an array of strings";
    tidx ← get table "index";
    table' ← set table "index" (arrayify tidx);
    set schema tableName table'.

(** Returns the schema as the call leaves it (the tables' [index] fields are
    rewritten in place), or the exception thrown. *)
Definition validateAndSanitize (schema : jsval) : result jsval :=
  _ ← assert (truthy schema && String.eqb (typeof schema) "object")
        "Must pass a schema object to db.schema()";
  version ← get schema "version";
  _ ← assert (positive_number version)
        "The .version field is required and must be a number";
  foldl sanitizeTable (Ok schema) (getTableNames schema).

Record tableChanges : Type := {
  indexDiff : jsval;
  needsRebuild : jsval
}.

(** [{add, change, remove, tablesToRebuild}] *)
Record Diff : Type := {
  add : list (string * jsval);
  change : list (string * tableChanges);
  remove : list string;
  tablesToRebuild : list string
}.

Definition emptyDiff : Diff :=
  {| add := []; change := []; remove := []; tablesToRebuild := [] |}.

Definition push_remove (d : Diff) (t : string) : Diff :=
  {| add := add d; change := change d; remove := remove d ++ [t];
     tablesToRebuild := tablesToRebuild d |}.

Definition push_add (d : Diff) (t : string) (def : jsval) : Diff :=
  {| add := add d ++ [(t, def)]; change := change d; remove := remove d;
     tablesToRebuild := tablesToRebuild d |}.

Definition push_change (d : Diff) (t : string) (c : tableChanges) : Diff :=
  {| add := add d; change := change d ++ [(t, c)]; remove := remove d;
     tablesToRebuild := tablesToRebuild d |}.

Definition push_rebuild (d : Diff) (t : string) : Diff :=
  {| add := add d; change := change d; remove := remove d;
     tablesToRebuild := tablesToRebuild d ++ [t] |}.

Section WithDiffArrays.

(** The runtime's prototype chain (see [JS.inherited]). *)
Variable inherited : jsval → string → option jsval.

(** [sharedPath t]: whether the [path] fields of the two definitions of the
    table [t] are one and the same object (a pattern array written once and
    used by both versions, or one schema diffed with itself).  It is read
    only when both fields are arrays or objects: see [strict_eq_shared]. *)
Variable sharedPath : string → bool.

(** [diffArrays] of [./util] is not among the sources: the differ is
    parametrised by it.  It receives the two [index] values and returns the
    delta object, or [false] when there is none. *)
Variable diffArrays : jsval → jsval → result jsval.

(** [shared] tells whether the two [path] fields are one object. *)
Definition diffTables (shared : bool) (oldTableDef newTableDef : jsval)
  : result tableChanges :=
  nidx ← get newTableDef "index";
  idiff ← (if truthy nidx
           then oidx ← get oldTableDef "index"; diffArrays oidx nidx
           else Ok (JBool false));
  npath ← get newTableDef "path";
  (* need to rebuild the entire DB if the ingest path changes *)
  rebuild ← (if truthy npath
             then opath ← get oldTableDef "path";
                  Ok (JBool (negb (strict_eq_shared shared opath npath)))
             else Ok npath);
  Ok {| indexDiff := idiff; needsRebuild := rebuild |}.

(** The body of the loop over [allTableNames].  A table name is any key of
    the schemas: [in] and the reads under it go through the prototype
    chain. *)
Definition diffTable (oldSchema newSchema : jsval) (acc : result Diff)
    (tableName : string) : result Diff :=
  d ← acc;
  oldSchemaHasTable ←
    (if truthy oldSchema then has_in inherited oldSchema tableName
     else Ok false);
  newDef ← lookup inherited newSchema tableName;
  let newSchemaHasTable := negb (strict_eq newDef JNull) in
  if oldSchemaHasTable && negb newSchemaHasTable then
    Ok (push_remove d tableName)
  else if negb oldSchemaHasTable && newSchemaHasTable then
    Ok (push_rebuild (push_add d tableName newDef) tableName)
  else if truthy newDef then
    oldDef ← lookup inherited oldSchema tableName;
    tableChanges ← diffTables (sharedPath tableName) oldDef newDef;
    let d1 := if truthy (indexDiff tableChanges)
              then push_change d tableName tableChanges else d in
    Ok (if truthy (needsRebuild tableChanges)
        then push_rebuild d1 tableName else d1)
  else Ok d.

Definition diff (oldSchema newSchema : jsval) : result Diff :=
  (* the debug line reads both version fields when there is an old schema *)
  _ ← (if truthy oldSchema
       then _ ← get oldSchema "version"; get newSchema "version"
       else Ok JUndefined);
  let allTableNames :=
    js_set (getTableNames oldSchema ++ getTableNames newSchema) in
  foldl (diffTable oldSchema newSchema) (Ok emptyDiff) allTableNames.

End WithDiffArrays.

(** ** Vocabulary of the statements about [diff] *)

(** [t in schema], for a schema that there is: what the loop of [diff] has
    as [oldSchemaHasTable]. *)
Definition in_schema (inherited : jsval → string → option jsval)
    (schema : jsval) (t : string) : Prop :=
  truthy schema = true ∧ has_in inherited schema t = Ok true.

(** [schema[t].path] *)
Definition path_of (inherited : jsval → string → option jsval)
    (schema : jsval) (t : string) : result jsval :=
  def ← lookup inherited schema t; get def "path".

(** [t] is a table name of [new], which gives it a definition, and it is not
    [in] [old]: no key of it and no name that it inherits. *)
Definition newly_added (inherited : jsval → string → option jsval)
    (old new : jsval) (t : string) : Prop :=
  t ∈ getTableNames new ∧ ¬ in_schema inherited old t ∧
  (get new t ≠ Ok JNull).

(** [t] is a table name of both and the two [path] fields differ
    ([old[t].path !== new[t].path]). *)
Definition path_changed (inherited : jsval → string → option jsval)
    (sharedPath : string → bool) (old new : jsval) (t : string) : Prop :=
  t ∈ getTableNames old ∧ t ∈ getTableNames new ∧
  ∃ op np, path_of inherited old t = Ok op ∧ path_of inherited new t = Ok np ∧
           strict_eq_shared (sharedPath t) op np = false.

(** [t] is a table name of one of the schemas and is [in] the old one, the
    new definition states a path, and the two [path] fields differ. *)
Definition path_redeclared (inherited : jsval → string → option jsval)
    (sharedPath : string → bool) (old new : jsval) (t : string) : Prop :=
  (t ∈ getTableNames old ∨ t ∈ getTableNames new) ∧
  in_schema inherited old t ∧
  ∃ op np, path_of inherited old t = Ok op ∧ path_of inherited new t = Ok np ∧
           truthy np = true ∧ strict_eq_shared (sharedPath t) op np = false.

(** ** Applying a diff *)

(** [applyDiff] makes calls on the upgrade transaction and on its object
    stores, which [addIndex] and [removeIndex] receive; a store is known here
    by the name of its table.  The calls are recorded in the order they are
    made.  What IndexedDB does with a call is outside the sources: a call
    returns. *)
Inductive StoreCall : Type :=
| DeleteObjectStore (tableName : string)
| CreateObjectStore (tableName : string) (keyPath : string)
| ObjectStore (tableName : string)
| CreateIndex (tableStore : string) (index : string) (keyPath : jsval)
    (multiEntry : bool)
| DeleteIndex (tableStore : string) (index : jsval).

(** The calls made, and the return or the exception that ends them. *)
Definition Tx (A : Type) : Type := list StoreCall * result A.

#[global] Instance Tx_ret : MRet Tx := λ A a, ([], Ok a).
#[global] Instance Tx_bind : MBind Tx := λ A B k m,
  match m with
  | (calls, Ok a) => let '(calls', r) := k a in (calls ++ calls', r)
  | (calls, Throw e) => (calls, Throw e)
  end.

Definition call (c : StoreCall) : Tx unit := ([c], Ok ()).
Definition liftTx {A} (r : result A) : Tx A := ([], r).

(** [l.forEach(f)]: the rounds in order, up to the first that throws. *)
Fixpoint forEach {A} (f : A → Tx unit) (l : list A) : Tx unit :=
  match l with
  | [] => mret ()
  | x :: l' => _ ← f x; forEach f l'
  end.

Import Stdlib.Strings.Ascii.

(** [index.split] is the method of a string: on any other value the call
    throws. *)
Definition addIndex (tableStore : string) (index : jsval) : Tx unit :=
  match index with
  | JStr i =>
      let keyPath := split "+"%char i in
      if bool_decide (1 < length keyPath)%nat
      then (* compound index *)
        call (CreateIndex tableStore i (JArr (JStr <$> keyPath) []) true)
      else (* simple index *)
        call (CreateIndex tableStore i
                (default JUndefined (JStr <$> head keyPath)) false)
  | _ => liftTx (Throw TypeError)
  end.

Definition removeIndex (tableStore : string) (index : jsval) : Tx unit :=
  call (DeleteIndex tableStore index).

(** takes the return value of [diff], updates the stores.  (The [db]
    argument is not read.) *)
Definition applyDiff (diff : Diff) : Tx unit :=
  _ ← forEach (λ tableName,
         (* deleted tables *)
         call (DeleteObjectStore tableName)) (remove diff);
  _ ← forEach (λ '(tableName, tableDef),
         (* added tables *)
         _ ← call (CreateObjectStore tableName "url");
         index ← liftTx (get tableDef "index");
         indexes ← liftTx (forEach_elems index);
         forEach (addIndex tableName) indexes) (add diff);
  forEach (λ '(tableName, tableChanges),
     (* updated tables *)
     _ ← call (ObjectStore tableName);
     removed ← liftTx (get (indexDiff tableChanges) "remove");
     removed ← liftTx (forEach_elems removed);
     _ ← forEach (removeIndex tableName) removed;
     added ← liftTx (get (indexDiff tableChanges) "add");
     added ← liftTx (forEach_elems added);
     forEach (addIndex tableName) added) (change diff).

(** ** The tables of the database object *)

(** The database object: its properties.  [db.schemas] is the array of the
    schemas declared, in the order of their versions. *)
Definition DbObject : Type := list (string * jsval).

(** The body of the inner loop of [getActiveTableNames]. *)
Definition activate (schema : jsval) (acc : result (list string))
    (tableName : string) : result (list string) :=
  tableNames ← acc;
  table ← get schema tableName;
  if strict_eq table JNull then Ok (set_delete tableName tableNames)
  else Ok (set_add tableName tableNames).

Definition getActiveTableNames (db : DbObject) : result (list string) :=
  schemas ← get (JObj db) "schemas";
  schemas ← forEach_elems schemas;
  foldl (λ acc schema, foldl (activate schema) acc (getTableNames schema))
        (Ok []) schemas.

(** add table defs to the db object.  ([db.schemas] is an array: what it
    has under a table name is [undefined], or a member it inherits, which is
    a function; neither is [null], and the test reads the same either way.) *)
Definition addTables (db : DbObject) : result DbObject :=
  tableNames ← getActiveTableNames db;
  foldl (λ acc tableName,
           db ← acc;
           schemas ← get (JObj db) "schemas";
           declared ← get schemas tableName;
           if strict_eq declared JNull then Ok db   (* deleted table *)
           else Ok (assoc_set tableName (JBool true) db))
        (Ok db) tableNames.

(** remove table defs from the db object *)
Definition removeTables (db : DbObject) : result DbObject :=
  tableNames ← getActiveTableNames db;
  Ok (foldl (λ db tableName, assoc_delete tableName db) db tableNames).

(** The last of [schemas] that names the table [t] does not set it to
    [null]. *)
Definition last_declared (schemas : list jsval) (t : string) : Prop :=
  ∃ before schema after,
    schemas = before ++ schema :: after ∧
    t ∈ getTableNames schema ∧ get schema t ≠ Ok JNull ∧
    Forall (λ later, t ∉ getTableNames later) after.

End Schemas.

(* ===================================================================== *)
(** * The indexer *)
(* ===================================================================== *)

Module Indexer.
Import JS.

(** ** Collaborators *)

(** An entry of the archive's history: [{path, type, version}]. *)
Record Update : Type := {
  path : string;
  type : string;
  at_version : Z
}.

(** What [archive.getInfo()] resolves to. *)
Record Info : Type := {
  info_version : Z;
  isOwner : bool
}.

(** An archive handle.  [handle] is the identity of the JS object; [readFile]
    stands for [JSON.parse(await archive.readFile(path))] and throws when the
    read is rejected or the text is not JSON.  [getInfo] and [history] are
    calls that resolve: a rejection would leave [indexArchive] as an
    exception of the caller and is not part of the model. *)
Record Archive : Type := {
  handle : nat;
  url : string;
  getInfo : Info;
  history : Z → Z → list Update;
  readFile : string → result jsval;
  _loadPromise : bool
}.

(** A table of [db.tables]: [name], [isRecordFile], [schema.validator] when
    there is one, and [listRecordFiles], whose matches are given as
    (name of the match's table, record url). *)
Record Table : Type := {
  name : string;
  isRecordFile : string → bool;
  validator : option (jsval → result jsval);
  listRecordFiles : Archive → list (string * string)
}.

(** The database object, as far as the indexer reads it.  A path pattern is
    the predicate [anymatch] decides for it.  [idbFault t k] tells the
    operations on key [k] of table [t]'s object store that fail with an
    unexpected error. *)
Record Db : Type := {
  isOpen : bool;
  idx : bool;
  tables : list Table;
  _tablePathPatterns : list (string → bool);
  _tablesToRebuild : list string;
  idbFault : string → string → bool
}.

(** ** Persisted and observable state *)

(** A record of [db._indexMeta], keyed by [_url]. *)
Record IndexMeta : Type := {
  version : Z;
  isWritable : option bool
}.

(** A stream returned by [createFileActivityStream]. *)
Record Stream : Type := {
  owner : nat;
  closed : bool
}.

Inductive Event : Type :=
| ConsoleLog (msg : string) (about : string)
| HistoryRead (archive : string) (start end_ : Z)
| RecordPut (table key : string)
| RecordDelete (table key : string)
| TableClear (table : string)
| MetaWrite (archive : string) (version : Z)
| MetaDelete (archive : string)
| IndexUpdated (table : string) (archive : string) (version : Z)
| IndexesUpdated (archive : string) (version : Z).

#[global] Instance Event_eq_dec : EqDecision Event.
Proof. solve_decision. Defined.

(** Everything the indexer changes: the meta store, the tables' object
    stores (one map, keyed by table name and record url), the [fileEvents]
    field of every handle, the streams created so far, and the trace of the
    effects in the order they happen. *)
Record Store : Type := {
  indexMeta : gmap string IndexMeta;
  records : gmap (string * string) jsval;
  fileEvents : gmap nat nat;
  streams : list Stream;
  trace : list Event
}.

Definition set_indexMeta (f : gmap string IndexMeta → gmap string IndexMeta)
    (s : Store) : Store :=
  {| indexMeta := f (indexMeta s); records := records s;
     fileEvents := fileEvents s; streams := streams s; trace := trace s |}.

Definition set_records (f : gmap (string * string) jsval → gmap (string * string) jsval)
    (s : Store) : Store :=
  {| indexMeta := indexMeta s; records := f (records s);
     fileEvents := fileEvents s; streams := streams s; trace := trace s |}.

Definition add_trace (evs : list Event) (s : Store) : Store :=
  {| indexMeta := indexMeta s; records := records s;
     fileEvents := fileEvents s; streams := streams s;
     trace := trace s ++ evs |}.

Definition emit (e : Event) (s : Store) : Store := add_trace [e] s.

(** ** The effect monad: state, and exceptions that keep the state *)

Definition M (A : Type) : Type := Store → result A * Store.

#[global] Instance M_ret : MRet M := λ A a s, (Ok a, s).
#[global] Instance M_bind : MBind M := λ A B k m s,
  match m s with
  | (Ok a, s') => k a s'
  | (Throw e, s') => (Throw e, s')
  end.

Definition lift {A} (r : result A) : M A := λ s, (r, s).
Definition modify (f : Store → Store) : M unit := λ s, (Ok (), f s).
Definition gets {A} (f : Store → A) : M A := λ s, (Ok (f s), s).

(** [try { body } catch (e) { handler }] *)
Definition try_catch {A} (body : M A) (handler : exn → M A) : M A := λ s,
  match body s with
  | (Ok a, s') => (Ok a, s')
  | (Throw e, s') => handler e s'
  end.

(** [await Promise.all(tasks)]: every task runs; the result is the list of
    the results, or the first exception once all have run.  The tasks run in
    the order they are started, each to its end; those of the indexer act on
    the records of different keys, so that the stores they leave do not
    depend on how their steps interleave. *)
Fixpoint promise_all {A} (tasks : list (M A)) : M (list A) := λ s,
  match tasks with
  | [] => (Ok [], s)
  | t :: ts =>
      let '(r, s1) := t s in
      let '(rs, s2) := promise_all ts s1 in
      (a ← r; l ← rs; Ok (a :: l), s2)
  end.

(** What the work on one file does to the store: a line on the console, a
    record put under its key, a record deleted. *)
Inductive Action : Type :=
| Log (msg about : string)
| Put (table key : string) (record : jsval)
| Delete (table key : string).

Definition act (a : Action) (s : Store) : Store :=
  match a with
  | Log msg about => emit (ConsoleLog msg about) s
  | Put t k record =>
      emit (RecordPut t k) (set_records <[(t, k) := record]> s)
  | Delete t k =>
      emit (RecordDelete t k) (set_records (delete (t, k)) s)
  end.

Definition run_actions (acts : list Action) (s : Store) : Store :=
  foldl (λ s a, act a s) s acts.

Definition console_log (msg about : string) : M unit :=
  modify (act (Log msg about)).

(** ** The store operations of [./idb-wrapper] *)

Module IDB.

(** [./idb-wrapper] is not among the sources; its operations are modelled
    from the spec.  Section 6 gives the store [put(record)], [get(key)],
    [delete(key)] and [clear()]; section 3 keys a table's records by the
    record's full URL, its [_url], and the meta store by the archive URL;
    section 4.2 has the indexing pass persist the IndexMeta with the new
    version.  The operations on the meta store succeed; those on a table's
    store fail where [idbFault] says so. *)

(** Modelled from the spec: [IDB.get(db._indexMeta, url)], the record of the
    archive or nothing. *)
Definition get (u : string) : M (option IndexMeta) :=
  gets (λ s, indexMeta s !! u).

(** Modelled from the spec: [IDB.put(db._indexMeta, record)], which writes
    the record under its [_url]. *)
Definition put_meta (u : string) (m : IndexMeta) : M unit :=
  modify (λ s, emit (MetaWrite u (version m)) (set_indexMeta <[u := m]> s)).

(** Modelled from the spec: [IDB.update(db._indexMeta, url, {_url, version})].
    The fields given replace those of the stored record, the others stay; a
    record is created when there is none. *)
Definition update (u : string) (v : Z) : M unit :=
  modify (λ s,
    let w := (indexMeta s !! u) ≫= isWritable in
    emit (MetaWrite u v)
      (set_indexMeta <[u := {| version := v; isWritable := w |}]> s)).

(** Modelled from the spec: [IDB.delete(db._indexMeta, url)]. *)
Definition delete_meta (u : string) : M unit :=
  modify (λ s, emit (MetaDelete u) (set_indexMeta (delete u) s)).

(** Modelled from the spec: the key of a record is its [_url]; a value
    without one cannot be stored. *)
Definition key_of (record : jsval) : result string :=
  k ← JS.get record "_url";
  match k with
  | JStr u => Ok u
  | _ => Throw StoreError
  end.

(** Modelled from the spec: [IDB.put(table, record)], an upsert under the
    record's key. *)
Definition put (db : Db) (table : Table) (record : jsval) : M unit :=
  k ← lift (key_of record);
  if idbFault db (name table) k then lift (Throw StoreError)
  else modify (act (Put (name table) k record)).

(** Modelled from the spec: [IDB.delete(table, key)]; deleting a key that
    has no record is no error. *)
Definition delete (db : Db) (table : string) (k : string) : M unit :=
  if idbFault db table k then lift (Throw StoreError)
  else modify (act (Delete table k)).

(** Modelled from the spec: [IDB.clear(table)], which empties the table's
    store. *)
Definition clear (table : Table) : M unit :=
  modify (λ s, emit (TableClear (name table))
                 (set_records (filter (λ kv, kv.1.1 ≠ name table)) s)).

End IDB.

(** ** Internal methods *)

(** What [readAndIndexFile] and [unindexFile] return: [table.name], or
    [false]. *)
Inductive Outcome : Type :=
| Named (tableName : string)
| NotIndexed.

#[global] Instance Outcome_eq_dec : EqDecision Outcome.
Proof. solve_decision. Defined.

(** [!tableName] *)
Definition falsy (o : Outcome) : bool :=
  match o with
  | Named n => String.eqb n ""
  | NotIndexed => true
  end.

Definition anymatch (patterns : list (string → bool)) (p : string) : bool :=
  existsb (λ pat, pat p) patterns.

(** look through the given history slice, match against the tables' path
    patterns, return back the *latest* change to each matching changed
    record.  The result is the object [updates]: its keys in insertion
    order, each with the entry last assigned to it.  (JS would list integer
    keys first; a path is not an integer.) *)
Definition collapse (db : Db) (hist : list Update) : list (string * Update) :=
  foldl (λ updates update,
           if anymatch (_tablePathPatterns db) (path update)
           then assoc_set (path update) update updates
           else updates)
        [] hist.

Definition scanArchiveHistoryForUpdates (db : Db) (archive : Archive)
    (start end_ : Z) : M (list (string * Update)) :=
  _ ← modify (emit (HistoryRead (url archive) start end_));
  mret (collapse db (history archive start end_)).

(** The loop of [readAndIndexFile]: index on the first matching table. *)
Fixpoint indexOnFirstMatch (db : Db) (archive : Archive)
    (filepath fileUrl : string) (record : jsval) (ts : list Table) : M Outcome :=
  match ts with
  | [] => mret NotIndexed
  | table :: ts' =>
      if isRecordFile table filepath then
        (* validate if needed *)
        record ← lift (match validator table with
                       | Some validate => validate record
                       | None => Ok record
                       end);
        (* add standard attributes *)
        record ← lift (set record "_url" (JStr fileUrl));
        record ← lift (set record "_origin" (JStr (url archive)));
        (* save *)
        _ ← IDB.put db table record;
        mret (Named (name table))
      else indexOnFirstMatch db archive filepath fileUrl record ts'
  end.

(** The [try] block of [readAndIndexFile]. *)
Definition readAndIndexFile_try (db : Db) (archive : Archive)
    (filepath : string) : M Outcome :=
  record ← lift (readFile archive filepath);
  indexOnFirstMatch db archive filepath (url archive +:+ filepath) record
    (tables db).

(** read the file, find the matching table, validate, then store *)
Definition readAndIndexFile (db : Db) (archive : Archive) (filepath : string)
  : M Outcome :=
  try_catch (readAndIndexFile_try db archive filepath)
    (λ e, _ ← console_log "Failed to index" (url archive +:+ filepath);
          mret NotIndexed).

(** The loop of [unindexFile]: unindex on the first matching table. *)
Fixpoint unindexOnFirstMatch (db : Db) (filepath fileUrl : string)
    (ts : list Table) : M Outcome :=
  match ts with
  | [] => mret NotIndexed
  | table :: ts' =>
      if isRecordFile table filepath then
        _ ← IDB.delete db (name table) fileUrl;
        mret (Named (name table))
      else unindexOnFirstMatch db filepath fileUrl ts'
  end.

Definition unindexFile (db : Db) (archive : Archive) (filepath : string)
  : M Outcome :=
  try_catch (unindexOnFirstMatch db filepath (url archive +:+ filepath) (tables db))
    (λ e, _ ← console_log "Failed to unindex" (url archive +:+ filepath);
          mret NotIndexed).

(** What [applyUpdates] does for one key of [updates]. *)
Definition applyUpdate (db : Db) (archive : Archive) (update : Update)
  : M Outcome :=
  if String.eqb (type update) "del"
  then unindexFile db archive (path update)
  else readAndIndexFile db archive (path update).

(** iterate the updates and apply them to the indexes *)
Definition applyUpdates (db : Db) (archive : Archive)
    (updates : list (string * Update)) : M (list Outcome) :=
  promise_all (map (λ kv, applyUpdate db archive kv.2) updates).

(** look through the archive for any files that generate records *)
Definition scanArchiveForRecords (db : Db) (archive : Archive)
  : list (string * string) :=
  concat (map (λ table, listRecordFiles table archive) (tables db)).

(** The loop over [new Set(results)] that emits [index-updated]. *)
Definition emitIndexUpdated (archive : Archive) (v : Z) (results : list Outcome)
  : M unit :=
  modify (λ s,
    foldl (λ s tableName,
             match tableName with
             | Named n => if falsy tableName then s
                          else emit (IndexUpdated n (url archive) v) s
             | NotIndexed => s
             end)
          s (js_set results)).

(** ** Exported api *)

(** figure how what changes need to be processed, then update the indexes.
    [lock] makes the passes on one archive run one after the other: a pass is
    one run of this function.  [needsRebuild] is only printed by [debug] and
    is left out. *)
Definition indexArchive (db : Db) (archive : Archive) : M unit :=
  (* sanity check *)
  if negb (isOpen db) then console_log "indexArchive called on closed db" ""
  else if negb (idx db) then console_log "indexArchive called on corrupted db" ""
  else
    (* fetch the current state of the archive's index *)
    stored ← IDB.get (url archive);
    let archiveMeta := getInfo archive in
    let indexMeta_version := default 0 (version <$> stored) in
    (* has this version of the archive been processed? *)
    if indexMeta_version >=? info_version archiveMeta then mret ()  (* yes, stop *)
    else
      (* find and apply all changes which haven't yet been processed *)
      updates ← scanArchiveHistoryForUpdates db archive
                  (indexMeta_version + 1) (info_version archiveMeta + 1);
      results ← applyUpdates db archive updates;
      (* update meta *)
      _ ← IDB.update (url archive) (info_version archiveMeta);
      (* emit *)
      _ ← emitIndexUpdated archive (info_version archiveMeta) results;
      modify (emit (IndexesUpdated (url archive) (info_version archiveMeta))).

(** delete all records generated from the archive *)
Definition unindexArchive (db : Db) (archive : Archive) : M unit :=
  let recordMatches := scanArchiveForRecords db archive in
  _ ← promise_all (map (λ m, IDB.delete db m.1 m.2) recordMatches);
  IDB.delete_meta (url archive).

(** [watchArchive] up to its [await]: the check of [archive.fileEvents].
    Returns whether the call goes on. *)
Definition watchArchive_check (archive : Archive) : M bool := λ s,
  match fileEvents s !! handle archive with
  | Some _ =>
      (Ok false,
       emit (ConsoleLog "watchArchive() called on archive that already is being watched"
               (url archive)) s)
  | None => (Ok true, s)
  end.

(** [watchArchive] after its [await]:
    [archive.fileEvents = archive.createFileActivityStream(...)].  The
    listeners added to the stream only start downloads and indexing passes
    when the archive changes. *)
Definition watchArchive_subscribe (archive : Archive) : M unit :=
  modify (λ s,
    {| indexMeta := indexMeta s; records := records s;
       fileEvents := <[handle archive := length (streams s)]> (fileEvents s);
       streams := streams s ++ [{| owner := handle archive; closed := false |}];
       trace := trace s |}).

(** A call of [watchArchive] that runs to its end before another call on the
    handle starts. *)
Definition watchArchive (archive : Archive) : M unit :=
  go ← watchArchive_check archive;
  if (go : bool) then watchArchive_subscribe archive else mret ().

Definition close_stream (st : Stream) : Stream :=
  {| owner := owner st; closed := true |}.

Definition unwatchArchive (archive : Archive) : M unit :=
  modify (λ s,
    match fileEvents s !! handle archive with
    | Some i =>
        {| indexMeta := indexMeta s; records := records s;
           fileEvents := delete (handle archive) (fileEvents s);
           streams := alter close_stream i (streams s);
           trace := trace s |}
    | None => s
    end).

Definition removeArchive (db : Db) (archive : Archive) : M unit :=
  _ ← unindexArchive db archive;
  unwatchArchive archive.

Definition resetOutdatedIndexes (db : Db) : M bool :=
  if bool_decide (length (_tablesToRebuild db) = 0%nat) then mret false
  else
    (* clear tables: for simplicity, we just clear all data and re-index
       everything *)
    _ ← foldr (λ table rest, _ ← IDB.clear table; rest) (mret ()) (tables db);
    (* reset meta records *)
    _ ← modify (λ s,
          foldl (λ s um, emit (MetaWrite um.1 0) s)
            (set_indexMeta
               (fmap (λ m, {| version := 0; isWritable := isWritable m |})) s)
            (map_to_list (indexMeta s)));
    mret true.

(** How a call of [waitTillIndexed] stands when it returns to the event
    loop: its promise is resolved, or it has put the listener [onIndex] on
    [indexes-updated], which waits for the version [target]. *)
Inductive Waiting : Type :=
| Resolved
| Listening (target : Z).

Definition waitTillIndexed (archive : Archive) : M Waiting :=
  (* fetch the current state of the archive's index *)
  stored ← IDB.get (url archive);
  let archiveMeta := getInfo archive in
  let indexMeta_version := default 0 (version <$> stored) in
  (* done? *)
  if indexMeta_version >=? info_version archiveMeta then mret Resolved
  else mret (Listening (info_version archiveMeta)).

(** The listener of [waitTillIndexed], on an event of the database: whether
    it resolves the promise (and removes itself).  It is called with the
    arguments of an [indexes-updated] event and with no other event. *)
Definition onIndex (archive : Archive) (target : Z) (e : Event) : bool :=
  match e with
  | IndexesUpdated indexedArchive v =>
      String.eqb indexedArchive (url archive) && (v >=? target)
  | _ => false
  end.

(** ** Calls of [watchArchive] and [unwatchArchive] that overlap

    [watchArchive] is [async] and awaits [archive._loadPromise] when the
    handle has one; its callers do not await it.  The calls made by one
    synchronous stretch of code therefore each run up to their [await], and
    the parts after the [await] run afterwards, in the order they were
    queued. *)
Inductive Call : Type :=
| Watch (archive : Archive)
| Unwatch (archive : Archive).

(** Runs one call up to the point where it returns to its caller; gives back
    the handle whose subscription is still to be made, if the call was
    suspended. *)
Definition start (c : Call) : M (option Archive) :=
  match c with
  | Watch archive =>
      go ← watchArchive_check archive;
      if (go : bool) then
        if _loadPromise archive then mret (Some archive)
        else _ ← watchArchive_subscribe archive; mret None
      else mret None
  | Unwatch archive => _ ← unwatchArchive archive; mret None
  end.

(** [watchArchive] is [async] and [addArchive] does not await it: the call
    runs up to its [await] and [addArchive] returns.  With a [_loadPromise]
    on the handle the subscription is then still to be made; [addArchive]
    gives back the handle it is pending for, as [start] does. *)
Definition addArchive (db : Db) (archive : Archive) : M (option Archive) :=
  (* store entry in the meta db *)
  let info := getInfo archive in
  _ ← IDB.put_meta (url archive)
        {| version := 0; isWritable := Some (isOwner info) |};
  (* process the archive *)
  _ ← indexArchive db archive;
  start (Watch archive).

Fixpoint start_all (cs : list Call) : M (list Archive) :=
  match cs with
  | [] => mret []
  | c :: cs' =>
      q ← start c;
      qs ← start_all cs';
      mret (option_list q ++ qs)
  end.

Fixpoint resume_all (queue : list Archive) : M unit :=
  match queue with
  | [] => mret ()
  | archive :: queue' => _ ← watchArchive_subscribe archive; resume_all queue'
  end.

(** One synchronous stretch of calls, then the suspended parts. *)
Definition run_overlapping (cs : list Call) : M unit :=
  queue ← start_all cs;
  resume_all queue.

(** [addArchive], and then the subscription it left pending, with no other
    call on the handle in between. *)
Definition addArchive_settled (db : Db) (archive : Archive) : M unit :=
  pending ← addArchive db archive;
  resume_all (option_list pending).

(** Calls that do not overlap: each runs to its end before the next. *)
Fixpoint run_in_turn (cs : list Call) : M unit :=
  match cs with
  | [] => mret ()
  | c :: cs' => _ ← run_overlapping [c]; run_in_turn cs'
  end.

(** The streams of a handle that are still open. *)
Definition active (s : Store) (h : nat) : list Stream :=
  filter (λ st, owner st = h ∧ closed st = false) (streams s).

Definition empty_store : Store :=
  {| indexMeta := ∅; records := ∅; fileEvents := ∅; streams := []; trace := [] |}.

(** ** Vocabulary of the statements *)

(** [m] returns [r] and does [acts], whatever the store. *)
Definition uniform {A} (m : M A) (r : result A) (acts : list Action) : Prop :=
  ∀ s, m s = (r, run_actions acts s).

(** The record url an action is about. *)
Definition about_url (a : Action) : string :=
  match a with
  | Log _ about => about
  | Put _ k _ => k
  | Delete _ k => k
  end.

Definition event_of (a : Action) : Event :=
  match a with
  | Log msg about => ConsoleLog msg about
  | Put t k _ => RecordPut t k
  | Delete t k => RecordDelete t k
  end.

Definition is_notification (e : Event) : bool :=
  match e with
  | IndexUpdated _ _ _ | IndexesUpdated _ _ => true
  | _ => false
  end.

Definition is_meta_write (e : Event) : bool :=
  match e with
  | MetaWrite _ _ | MetaDelete _ => true
  | _ => false
  end.

Definition is_history_read (e : Event) : bool :=
  match e with
  | HistoryRead _ _ _ => true
  | _ => false
  end.

(** The [index-updated] notification a result gives rise to, if any. *)
Definition notification (archive : string) (v : Z) (o : Outcome) : option Event :=
  match o with
  | Named n => if String.eqb n "" then None else Some (IndexUpdated n archive v)
  | NotIndexed => None
  end.

(** The store events of a pass before it writes the meta record: the records
    put and deleted and the lines logged. *)
Definition is_apply_event (e : Event) : bool :=
  match e with
  | ConsoleLog _ _ | RecordPut _ _ | RecordDelete _ _ => true
  | _ => false
  end.


(** Every handle holds at most one open stream, the one in its [fileEvents]:
    a handle with [fileEvents] set owns that stream, open, and no other open
    stream; a handle without owns no open stream. *)
Definition one_subscription (s : Store) : Prop :=
  ∀ h,
    match fileEvents s !! h with
    | Some i =>
        streams s !! i = Some {| owner := h; closed := false |} ∧
        ∀ j st, streams s !! j = Some st → owner st = h →
                closed st = false → j = i
    | None =>
        ∀ j st, streams s !! j = Some st → owner st = h → closed st = true
    end.

(** The operations of the indexer that reach the meta store or the
    subscriptions, each up to the point where it returns to its caller (a
    subscription that [addArchive] leaves pending is made later and does not
    reach the meta store).  ([loadArchives] runs [indexArchive] and
    [watchArchive] for every record of the meta store and writes nothing
    itself.) *)
Inductive Operation : Type :=
| IndexArchive (archive : Archive)
| AddArchive (archive : Archive)
| RemoveArchive (archive : Archive)
| ResetOutdatedIndexes
| WatchArchive (archive : Archive)
| UnwatchArchive (archive : Archive).

Definition perform (db : Db) (op : Operation) : M unit :=
  match op with
  | IndexArchive archive => indexArchive db archive
  | AddArchive archive => _ ← addArchive db archive; mret ()
  | RemoveArchive archive => removeArchive db archive
  | ResetOutdatedIndexes => _ ← resetOutdatedIndexes db; mret ()
  | WatchArchive archive => watchArchive archive
  | UnwatchArchive archive => unwatchArchive archive
  end.

(** The operations that write a record of the meta store anew or delete it:
    the rebuild reset, for every record; [addArchive] and [removeArchive],
    for the record of their archive. *)
Definition rewrites_record (op : Operation) (u : string) : bool :=
  match op with
  | ResetOutdatedIndexes => true
  | AddArchive archive | RemoveArchive archive => String.eqb (url archive) u
  | _ => false
  end.

(** [t] is the first table of [ts] whose [isRecordFile] takes the path. *)
Definition first_match (p : string) (ts : list Table) (t : Table) : Prop :=
  ∃ before after,
    ts = before ++ t :: after ∧
    Forall (λ t', isRecordFile t' p = false) before ∧
    isRecordFile t p = true.

(** The version persisted for an archive, [0] when it has no record. *)
Definition indexed_version (s : Store) (u : string) : Z :=
  default 0 (version <$> indexMeta s !! u).

End Indexer.

(* ===================================================================== *)
(** * Concrete schemas, archives and databases *)
(* ===================================================================== *)

Module Examples.
Import JS Schemas Indexer.

(** The names an object inherits from [Object.prototype]. *)
Definition object_prototype : list string :=
  ["constructor"; "__defineGetter__"; "__defineSetter__"; "hasOwnProperty";
   "__lookupGetter__"; "__lookupSetter__"; "isPrototypeOf";
   "propertyIsEnumerable"; "toString"; "valueOf"; "__proto__";
   "toLocaleString"].

(** The runtime as the examples need it: what an object inherits, each
    member stood for by an object without properties.  (The examples look
    names up in schema objects only; arrays and primitives inherit members of
    their own, which a runtime for them adds.) *)
Definition object_runtime (v : jsval) (k : string) : option jsval :=
  match v with
  | JObj _ => if bool_decide (k ∈ object_prototype) then Some (JObj []) else None
  | _ => None
  end.

(** The definitions of the examples are written out one by one: no two of
    them share a [path] object. *)
Definition nothing_shared (t : string) : bool := false.

(** A [diffArrays] that finds no delta; [diff] is run with it below. *)
Definition noIndexDelta (old new : jsval) : result jsval := Ok (JBool false).

(** [{version: 1, posts: {index: 5}}] *)
Definition schema_bad_index : jsval :=
  JObj [("version", JNum 1); ("posts", JObj [("index", JNum 5)])].

(** [{version: 1, posts: {path: '/posts/*.json', index: ['createdAt']}}] *)
Definition schema_v1 : jsval :=
  JObj [("version", JNum 1);
        ("posts", JObj [("path", JStr "/posts/*.json");
                        ("index", JArr [JStr "createdAt"] [])])].

(** [{version: 2}]: the next version says nothing about [posts]. *)
Definition schema_v2_silent : jsval := JObj [("version", JNum 2)].

(** [{version: 2, posts: null}] *)
Definition schema_v2_null : jsval :=
  JObj [("version", JNum 2); ("posts", JNull)].

(** [{version: 2, posts: {index: ['createdAt']}}]: [posts] without a path. *)
Definition schema_v2_no_path : jsval :=
  JObj [("version", JNum 2);
        ("posts", JObj [("index", JArr [JStr "createdAt"] [])])].

(** [{version: 2, posts: {path: '/entries/*.json', ...}, likes: {...}}] *)
Definition schema_v2_moved : jsval :=
  JObj [("version", JNum 2);
        ("posts", JObj [("path", JStr "/entries/*.json");
                        ("index", JArr [JStr "createdAt"] [])]);
        ("likes", JObj [("path", JStr "/likes/*.json");
                        ("index", JArr [] [])])].

(** The table [posts]: the files under [/posts/]; the validator rejects
    whatever is not an object. *)
Definition posts_table : Table :=
  {| name := "posts";
     isRecordFile := λ p, String.prefix "/posts/" p;
     validator := Some (λ r, match r with
                             | JObj _ => Ok r
                             | _ => Throw (Rejected "not an object")
                             end);
     listRecordFiles := λ archive, [("posts", url archive +:+ "/posts/b.json")] |}.

Definition db_open : Db :=
  {| isOpen := true; idx := true; tables := [posts_table];
     _tablePathPatterns := [λ p, String.prefix "/posts/" p];
     _tablesToRebuild := [];
     idbFault := λ _ _, false |}.

Definition db_closed : Db :=
  {| isOpen := false; idx := true; tables := [posts_table];
     _tablePathPatterns := [λ p, String.prefix "/posts/" p];
     _tablesToRebuild := [];
     idbFault := λ _ _, false |}.

Definition db_rebuild : Db :=
  {| isOpen := true; idx := true; tables := [posts_table];
     _tablePathPatterns := [λ p, String.prefix "/posts/" p];
     _tablesToRebuild := ["posts"];
     idbFault := λ _ _, false |}.

Definition history_a : list Update :=
  [ {| path := "/posts/a.json"; type := "put"; at_version := 1 |};
    {| path := "/posts/b.json"; type := "put"; at_version := 2 |};
    {| path := "/notes.txt"; type := "put"; at_version := 2 |};
    {| path := "/posts/b.json"; type := "put"; at_version := 3 |} ].

(** An archive at version 3.  [/posts/a.json] holds a string, which the
    validator of [posts] rejects; the other files hold an object. *)
Definition archive_a : Archive :=
  {| handle := 0;
     url := "dat://a";
     getInfo := {| info_version := 3; isOwner := true |};
     history := λ start end_,
       filter (λ u, start ≤ at_version u ∧ at_version u < end_) history_a;
     readFile := λ p, if String.eqb p "/posts/a.json" then Ok (JStr "oops")
                      else Ok (JObj [("title", JStr "hello")]);
     _loadPromise := true |}.

(** The same archive seen through a handle that is three versions behind. *)
Definition archive_a_behind : Archive :=
  {| handle := 1;
     url := "dat://a";
     getInfo := {| info_version := 2; isOwner := true |};
     history := history archive_a;
     readFile := readFile archive_a;
     _loadPromise := true |}.

(** A store in which [dat://a] was indexed up to version 5. *)
Definition store_at_5 : Store :=
  {| indexMeta := {[ "dat://a" := {| version := 5; isWritable := Some true |} ]};
     records := ∅; fileEvents := ∅; streams := []; trace := [] |}.

(** The table [likes]: the files under [/likes/], stored as they are. *)
Definition likes_table : Table :=
  {| name := "likes";
     isRecordFile := λ p, String.prefix "/likes/" p;
     validator := None;
     listRecordFiles := λ archive, [("likes", url archive +:+ "/likes/c.json")] |}.

Definition db_two_tables : Db :=
  {| isOpen := true; idx := true; tables := [posts_table; likes_table];
     _tablePathPatterns := [λ p, String.prefix "/posts/" p;
                            λ p, String.prefix "/likes/" p];
     _tablesToRebuild := [];
     idbFault := λ _ _, false |}.

(** The same database when the store of [likes] refuses every operation. *)
Definition db_faulty : Db :=
  {| isOpen := true; idx := true; tables := [posts_table; likes_table];
     _tablePathPatterns := [λ p, String.prefix "/posts/" p;
                            λ p, String.prefix "/likes/" p];
     _tablesToRebuild := [];
     idbFault := λ t _, String.eqb t "likes" |}.

(** An archive at version 2, with no [_loadPromise].  [/likes/c.json] holds
    the JSON text [null]; the other files hold an object. *)
Definition archive_b : Archive :=
  {| handle := 2;
     url := "dat://b";
     getInfo := {| info_version := 2; isOwner := false |};
     history := λ start end_,
       filter (λ u, start ≤ at_version u ∧ at_version u < end_)
         [ {| path := "/likes/c.json"; type := "put"; at_version := 1 |};
           {| path := "/posts/d.json"; type := "put"; at_version := 2 |} ];
     readFile := λ p, if String.eqb p "/likes/c.json" then Ok JNull
                      else Ok (JObj [("title", JStr "hi")]);
     _loadPromise := false |}.

(** A [diffArrays] that has every old index removed and every new one
    added. *)
Definition replaceIndexes (old new : jsval) : result jsval :=
  Ok (JObj [("add", new); ("remove", old)]).

(** [{version: 3, posts: {path: '/posts/*.json', index: ['createdAt']}}]: the
    version after [schema_v2_null] declares [posts] again. *)
Definition schema_v3_again : jsval :=
  JObj [("version", JNum 3);
        ("posts", JObj [("path", JStr "/posts/*.json");
                        ("index", JArr [JStr "createdAt"] [])])].

(** Four versions: [posts] is declared, deleted and declared again, then
    [likes] is added. *)
Definition declared_schemas : list jsval :=
  [schema_v1; schema_v2_null; schema_v3_again;
   JObj [("version", JNum 4); ("likes", JObj [("index", JArr [] [])])]].

(** [{version: 1}] and [{version: 2, constructor: {index: ['a']}}]: a table
    named as a member that every object inherits. *)
Definition schema_v1_bare : jsval := JObj [("version", JNum 1)].

Definition schema_v2_constructor : jsval :=
  JObj [("version", JNum 2);
        ("constructor", JObj [("index", JArr [JStr "a"] [])])].

(** [{version: n, posts: {path: isPost}}], for one predicate [isPost] that
    both versions hold.  A function is an object; the model has none of its
    properties. *)
Definition schema_predicate (n : Z) : jsval :=
  JObj [("version", JNum n); ("posts", JObj [("path", JObj [])])].

(** [posts.path] is one object in the two versions. *)
Definition posts_path_shared (t : string) : bool := String.eqb t "posts".

(** A database object with these versions declared. *)
Definition db_object : Schemas.DbObject :=
  [("name", JStr "db"); ("schemas", JArr declared_schemas [])].

End Examples.

(* ===================================================================== *)
(** * Facts about the JavaScript layer *)
(* ===================================================================== *)

Ltac unbind := unfold mbind, JS.result_bind, JS.rbind in *.
Ltac not_a_digit := intros ?; unfold pretty_N_char; by repeat case_match.

Section js_facts.
Import JS.

Lemma elem_of_js_set_go {A} `{EqDecision A} (seen l : list A) (x : A) :
  x ∈ js_set_go seen l ↔ x ∈ l ∧ x ∉ seen.
Proof.
  revert seen. induction l as [|y l IH]; intros seen; simpl.
  - split; [by intros ?%elem_of_nil | by intros [?%elem_of_nil _]].
  - case_bool_decide as Hy.
    + rewrite IH, elem_of_cons. split.
      * intros [Hl Hn]. split; [by right|done].
      * intros [[->|Hl] Hn]; [done|by split].
    + rewrite (elem_of_cons (js_set_go _ _)), IH. split.
      * intros [->|[Hl Hn]].
        -- split; [by left|done].
        -- split; [by right|]. intros Hs. apply Hn. by right.
      * intros [[->|Hl]%elem_of_cons Hn]; [by left|].
        destruct (decide (x = y)) as [->|Hne]; [by left|].
        right. split; [done|]. by intros [?|?]%elem_of_cons.
Qed.

Lemma elem_of_js_set {A} `{EqDecision A} (l : list A) (x : A) :
  x ∈ js_set l ↔ x ∈ l.
Proof.
  unfold js_set. rewrite elem_of_js_set_go.
  split; [by intros [? _]|]. intros ?; split; [done|]. by intros ?%elem_of_nil.
Qed.

Lemma NoDup_js_set_go {A} `{EqDecision A} (seen l : list A) :
  NoDup (js_set_go seen l).
Proof.
  revert seen. induction l as [|y l IH]; intros seen; simpl; [constructor|].
  case_bool_decide; [done|]. constructor; [|done].
  rewrite elem_of_js_set_go. intros [_ Hn]. apply Hn. by left.
Qed.

Lemma NoDup_js_set {A} `{EqDecision A} (l : list A) : NoDup (js_set l).
Proof. apply NoDup_js_set_go. Qed.

Lemma strict_eq_null (v : jsval) : strict_eq v JNull = true ↔ v = JNull.
Proof. destruct v; simpl; split; congruence. Qed.

Lemma assoc_get_Some {A} (k : string) (ps : list (string * A)) (v : A) :
  assoc_get k ps = Some v → k ∈ ps.*1.
Proof.
  induction ps as [|[k' v'] ps IH]; simpl; [done|].
  destruct (String.eqb_spec k k') as [->|?]; [intros _; left|].
  intros ?. right. by apply IH.
Qed.

End js_facts.

(* ===================================================================== *)
(** * Facts about lib/schemas.js *)
(* ===================================================================== *)

Section schemas_facts.
Import JS Schemas.

Lemma elem_of_getTableNames (schema : jsval) (t : string) :
  t ∈ getTableNames schema ↔
  truthy schema = true ∧ t ≠ "version" ∧ t ∈ own_keys schema.
Proof.
  unfold getTableNames. destruct (truthy schema).
  - rewrite list_elem_of_filter. split; [by intros [? ?]|by intros (_ & ? & ?)].
  - split; [by intros ?%elem_of_nil|]. by intros [? _].
Qed.

Lemma idx_get_key {A} (es : list A) (i : nat) (k : string) (e : A) :
  idx_get es i k = Some e → k ∈ imap (λ j _, index_key (i + j)) es.
Proof.
  revert i. induction es as [|x es IH]; intros i; simpl; [done|].
  destruct (String.eqb_spec k (index_key i)) as [->|?].
  - intros _. rewrite Nat.add_0_r. by left.
  - intros H. right. apply IH in H.
    erewrite imap_ext; [exact H|]. intros j y _. simpl. f_equal. lia.
Qed.

(** An array index is written with digits: a key that starts with another
    character is not an index. *)
Lemma pretty_N_go_head (c : Ascii.ascii) (x : N) (s : string) :
  (∀ n, pretty_N_char n ≠ c) →
  (∀ s', s ≠ String c s') → ∀ s', pretty_N_go x s ≠ String c s'.
Proof.
  intros Hc. revert s. induction (N.lt_wf_0 x) as [x _ IH]; intros s Hs s'.
  assert (x = 0 ∨ 0 < x)%N as [->|?] by lia.
  - rewrite pretty_N_go_0. apply Hs.
  - rewrite pretty_N_go_step by done. apply IH.
    { by apply N.div_lt. }
    intros s'' [= Heq _]. by apply (Hc (x `mod` 10)%N).
Qed.

Lemma index_key_head (c : Ascii.ascii) (i : nat) (k : string) :
  (∀ n, pretty_N_char n ≠ c) → index_key i ≠ String c k.
Proof.
  intros Hc. unfold index_key, pretty, pretty_N. case_decide.
  - intros [= Heq _]. by apply (Hc 0%N).
  - by apply pretty_N_go_head.
Qed.

Lemma idx_get_named {A} (es : list A) (i : nat) (c : Ascii.ascii) (k : string) :
  (∀ n, pretty_N_char n ≠ c) → idx_get es i (String c k) = None.
Proof.
  intros Hc. revert i. induction es as [|e es IH]; intros i; simpl; [done|].
  destruct (String.eqb_spec (String c k) (index_key i)) as [Heq|_]; [|apply IH].
  by destruct (index_key_head c i k Hc).
Qed.

Lemma idx_set_named {A} (es : list A) (i : nat) (c : Ascii.ascii) (k : string)
    (x : A) :
  (∀ n, pretty_N_char n ≠ c) → idx_set es i (String c k) x = None.
Proof.
  intros Hc. revert i. induction es as [|e es IH]; intros i; simpl; [done|].
  destruct (String.eqb_spec (String c k) (index_key i)) as [Heq|_].
  - by destruct (index_key_head c i k Hc).
  - by rewrite IH.
Qed.

Lemma idx_get_path {A} (es : list A) (i : nat) : idx_get es i "path" = None.
Proof. apply idx_get_named. not_a_digit. Qed.

Lemma has_own_keys (v : jsval) (k : string) :
  k ∈ own_keys v → has_own v k = true.
Proof. intros Hk. unfold has_own. by rewrite bool_decide_eq_true_2. Qed.

(** A property that holds something is an own property. *)
Lemma get_has_own (v : jsval) (k : string) (x : jsval) :
  get v k = Ok x → x ≠ JUndefined → has_own v k = true.
Proof.
  unfold has_own.
  destruct v as [| | | |s|es nm|ps]; simpl; intros Hx Hne; simplify_eq.
  - destruct (idx_get (chars s) 0 k) as [c|] eqn:He.
    + rewrite bool_decide_eq_true_2; [done|].
      by apply (idx_get_key (chars s) 0 k c).
    + destruct (String.eqb k "length"); [by rewrite orb_true_r|done].
  - destruct (idx_get es 0 k) as [e|] eqn:He.
    { rewrite bool_decide_eq_true_2; [done|]. apply elem_of_app. left.
      by apply (idx_get_key es 0 k e). }
    destruct (String.eqb k "length"); [by rewrite orb_true_r|].
    destruct (assoc_get k nm) as [y|] eqn:Hy; [|done].
    rewrite bool_decide_eq_true_2; [done|]. apply elem_of_app. right.
    by eapply assoc_get_Some.
  - destruct (assoc_get k ps) as [y|] eqn:Hy; [|done].
    rewrite bool_decide_eq_true_2; [done|]. by eapply assoc_get_Some.
Qed.

(** Under an own property the chain is not looked at. *)
Lemma lookup_own inherited (v : jsval) (k : string) (x : jsval) :
  get v k = Ok x → has_own v k = true → lookup inherited v k = Ok x.
Proof. intros Hg Ho. unfold lookup. unbind. by rewrite Hg, Ho. Qed.

Lemma lookup_table inherited (schema : jsval) (t : string) :
  t ∈ getTableNames schema → lookup inherited schema t = get schema t.
Proof.
  intros (_ & _ & Hk)%elem_of_getTableNames. unfold lookup. unbind.
  rewrite (has_own_keys _ _ Hk). by destruct (get schema t).
Qed.

Lemma lookup_null inherited (v : jsval) (k : string) :
  get v k = Ok JNull → lookup inherited v k = Ok JNull.
Proof. intros Hg. apply lookup_own; [done|]. by eapply get_has_own. Qed.

Lemma lookup_defined inherited (v : jsval) (k : string) :
  v ≠ JNull → v ≠ JUndefined → ∃ x, lookup inherited v k = Ok x.
Proof.
  unfold lookup. unbind. destruct v; simpl; intros ? ?; try done; by eexists.
Qed.

Lemma lookup_Ok inherited (v : jsval) (k : string) (x : jsval) :
  lookup inherited v k = Ok x → v ≠ JNull ∧ v ≠ JUndefined.
Proof. unfold lookup. unbind. by destruct v. Qed.

Lemma has_in_own inherited (v : jsval) (k : string) (b : bool) :
  has_in inherited v k = Ok b → has_own v k = true → b = true.
Proof. destruct v; simpl; intros [= <-] Ho; by rewrite Ho. Qed.

Lemma has_in_truthy inherited (v : jsval) (k : string) (b : bool) :
  has_in inherited v k = Ok b → truthy v = true.
Proof. by destruct v. Qed.

(** Whether the old schema has the table, as a round of the loop finds it. *)
Lemma oldSchemaHasTable_spec inherited old t b :
  (if truthy old then has_in inherited old t else Ok false) = Ok b →
  b = true ↔ in_schema inherited old t.
Proof.
  unfold in_schema. destruct (truthy old); intros H.
  - rewrite H. split; [by intros ->|]. by intros [_ [= ->]].
  - simplify_eq. split; [done|]. by intros [? _].
Qed.

Lemma oldSchemaHasTable_own inherited old t b :
  (if truthy old then has_in inherited old t else Ok false) = Ok b →
  t ∈ getTableNames old → b = true.
Proof.
  intros H (Htruthy & _ & Hk)%elem_of_getTableNames. rewrite Htruthy in H.
  eapply has_in_own; [done|]. by apply has_own_keys.
Qed.

Lemma foldl_Throw {A B} (f : result A → B → result A) (l : list B) (e : exn) :
  (∀ b, f (Throw e) b = Throw e) → foldl f (Throw e) l = Throw e.
Proof. intros Hf. induction l as [|b l IH]; simpl; [done|]. by rewrite Hf. Qed.

Lemma get_truthy (v : jsval) (k : string) (x : jsval) :
  get v k = Ok x → truthy x = true → truthy v = true.
Proof.
  destruct v as [| |b|n|s| |]; simpl; intros Hx Ht; simplify_eq; try done.
  destruct s as [|c s]; [|done].
  simpl in Ht. by destruct (String.eqb k "length").
Qed.

Lemma get_defined (v : jsval) (k : string) :
  v ≠ JNull → v ≠ JUndefined → ∃ x, get v k = Ok x.
Proof. destruct v; simpl; intros ? ?; try done; by eexists. Qed.

Lemma assoc_get_None {A} (k : string) (ps : list (string * A)) :
  assoc_get k ps = None → k ∉ ps.*1.
Proof.
  induction ps as [|[k' v'] ps IH]; simpl; [by intros _ ?%elem_of_nil|].
  destruct (String.eqb_spec k k') as [->|?]; [done|].
  intros ? [?|?]%elem_of_cons; [done|]. by apply IH.
Qed.

Lemma allTableNames_elem old new t :
  t ∈ js_set (getTableNames old ++ getTableNames new) →
  t ≠ "version" ∧ (t ∈ getTableNames old ∨ t ∈ getTableNames new).
Proof.
  rewrite elem_of_js_set, elem_of_app. intros H. split; [|done].
  destruct H as [H|H]; apply elem_of_getTableNames in H; tauto.
Qed.

Section with_diffArrays.
Variable inherited : jsval → string → option jsval.
Variable sharedPath : string → bool.
Variable diffArrays : jsval → jsval → result jsval.

Local Abbreviation diffTable :=
  (diffTable inherited sharedPath diffArrays).
Local Abbreviation diff := (diff inherited sharedPath diffArrays).

Lemma diffTable_Throw old new e t : diffTable old new (Throw e) t = Throw e.
Proof. done. Qed.

(** What one round of the loop does to [remove]. *)
Lemma diffTable_remove old new d0 d1 t :
  diffTable old new (Ok d0) t = Ok d1 →
  ∀ x, x ∈ remove d1 ↔
       x ∈ remove d0 ∨
       (x = t ∧ in_schema inherited old t ∧ lookup inherited new t = Ok JNull).
Proof.
  intros H x. unfold Schemas.diffTable in H. unbind.
  destruct (if truthy old then _ else _) as [b|] eqn:Hin; [|done].
  pose proof (oldSchemaHasTable_spec _ _ _ _ Hin) as Hb.
  destruct (lookup inherited new t) as [nd|] eqn:Hnd; [|done].
  destruct (strict_eq nd JNull) eqn:Hnull.
  - apply strict_eq_null in Hnull as ->. destruct b; simpl in H; simplify_eq.
    + simpl. rewrite elem_of_app, list_elem_of_singleton.
      pose proof (proj1 Hb eq_refl). naive_solver.
    + split; [by left|]. intros [?|(_ & Hs & _)]; [done|].
      by apply Hb in Hs.
  - assert (remove d1 = remove d0) as ->.
    { destruct b; simpl in H; [|by simplify_eq].
      destruct (truthy nd); [|by simplify_eq].
      destruct (lookup inherited old t); [|done].
      destruct (diffTables diffArrays _ _ nd) as [tc|]; [|done].
      simplify_eq.
      by destruct (truthy (indexDiff tc)), (truthy (needsRebuild tc)). }
    split; [by left|]. intros [?|(_ & _ & [= ->])]; [done|].
    by rewrite (proj2 (strict_eq_null JNull)) in Hnull.
Qed.

(** [needsRebuild] is truthy exactly when the new definition states a path
    and it is not the old one. *)
Lemma diffTables_needsRebuild shared od nd tc :
  diffTables diffArrays shared od nd = Ok tc →
  truthy (needsRebuild tc) = true ↔
  ∃ op np, get od "path" = Ok op ∧ get nd "path" = Ok np ∧
           truthy np = true ∧ strict_eq_shared shared op np = false.
Proof.
  unfold diffTables. unbind. intros H.
  destruct (get nd "index") as [nidx|]; [|done].
  destruct (if truthy nidx then _ else _) as [idiff|]; [|done].
  destruct (get nd "path") as [np|] eqn:Hnp; [|done].
  destruct (truthy np) eqn:Htr.
  - destruct (get od "path") as [op|] eqn:Hop; [|done]. simplify_eq. simpl.
    rewrite negb_true_iff. split; [by eauto 10|].
    intros (? & ? & ? & ? & _ & ?). congruence.
  - simplify_eq. simpl. rewrite Htr. split; [done|].
    intros (? & ? & _ & ? & ? & _). congruence.
Qed.

(** What one round of the loop does to [tablesToRebuild]. *)
Lemma diffTable_rebuild old new d0 d1 t :
  t ∈ getTableNames old ∨ t ∈ getTableNames new →
  diffTable old new (Ok d0) t = Ok d1 →
  ∀ x, x ∈ tablesToRebuild d1 ↔
       x ∈ tablesToRebuild d0 ∨
       (x = t ∧ (newly_added inherited old new t
                 ∨ path_redeclared inherited sharedPath old new t)).
Proof.
  intros Hdecl H x. unfold Schemas.diffTable in H. unbind.
  destruct (if truthy old then _ else _) as [b|] eqn:Hin; [|done].
  pose proof (oldSchemaHasTable_spec _ _ _ _ Hin) as Hb.
  pose proof (oldSchemaHasTable_own _ _ _ _ Hin) as Hown.
  destruct (lookup inherited new t) as [nd|] eqn:Hnd; [|done].
  assert (∀ np, path_of inherited new t = Ok np → truthy np = true →
            truthy nd = true) as Hpath.
  { intros np Hp Htr. unfold path_of in Hp. unbind. rewrite Hnd in Hp.
    by eapply get_truthy. }
  assert (newly_added inherited old new t ↔ b = false ∧ nd ≠ JNull) as Hadd.
  { unfold newly_added. split.
    - intros (Hnew & Hno & Hne). split; [destruct b; [|done]; by destruct Hno; apply Hb|].
      intros ->. rewrite (lookup_table _ _ _ Hnew) in Hnd. done.
    - intros [-> Hne]. assert (t ∈ getTableNames new) as Hnew.
      { destruct Hdecl as [Hold|?]; [|done]. by specialize (Hown Hold). }
      split; [done|]. split; [by intros ?%Hb|].
      rewrite <-(lookup_table inherited _ _ Hnew), Hnd. congruence. }
  destruct (strict_eq nd JNull) eqn:Hnull.
  - apply strict_eq_null in Hnull as ->.
    assert (tablesToRebuild d1 = tablesToRebuild d0) as ->.
    { destruct b; simpl in H; by simplify_eq. }
    split; [by left|]. intros [?|[_ [Hnew|Hre]]]; [done|..].
    + by apply Hadd in Hnew as [_ ?].
    + destruct Hre as (_ & _ & op & np & _ & Hp & Htr & _).
      by specialize (Hpath np Hp Htr).
  - assert (nd ≠ JNull) as Hne.
    { intros ->. by rewrite (proj2 (strict_eq_null JNull)) in Hnull. }
    destruct b; simpl in H.
    + assert (¬ newly_added inherited old new t) as Hnadd.
      { by intros [? _]%Hadd. }
      assert (in_schema inherited old t) as Hs by by apply Hb.
      destruct (truthy nd) eqn:Htr.
      * destruct (lookup inherited old t) as [od|] eqn:Hod; [|done].
        destruct (diffTables diffArrays (sharedPath t) od nd) as [tc|] eqn:Htc;
          [|done].
        pose proof (diffTables_needsRebuild _ _ _ _ Htc) as Hnr.
        assert (truthy (needsRebuild tc) = true
                ↔ path_redeclared inherited sharedPath old new t) as Hiff.
        { rewrite Hnr. unfold path_redeclared, path_of. unbind.
          rewrite Hod, Hnd. split.
          - intros (op & np & ? & ? & ? & ?). split; [done|]. split; [done|].
            by exists op, np.
          - intros (_ & _ & op & np & ? & ? & ? & ?). by exists op, np. }
        simplify_eq. destruct (truthy (needsRebuild tc)) eqn:Hneeds.
        -- assert (tablesToRebuild
                     (push_rebuild
                        (if truthy (indexDiff tc) then push_change d0 t tc
                         else d0) t) = tablesToRebuild d0 ++ [t]) as ->.
           { by destruct (truthy (indexDiff tc)). }
           rewrite elem_of_app, list_elem_of_singleton.
           pose proof (proj1 Hiff eq_refl). naive_solver.
        -- assert (tablesToRebuild
                     (if truthy (indexDiff tc) then push_change d0 t tc
                      else d0) = tablesToRebuild d0) as ->.
           { by destruct (truthy (indexDiff tc)). }
           split; [by left|]. intros [?|[_ [?|Hre]]]; [done|done|].
           apply Hiff in Hre. done.
      * simplify_eq. split; [by left|].
        intros [?|[_ [?|Hre]]]; [done|done|].
        destruct Hre as (_ & _ & op & np & _ & Hp & Htr' & _).
        specialize (Hpath np Hp Htr'). congruence.
    + simplify_eq. simpl. rewrite elem_of_app, list_elem_of_singleton.
      assert (newly_added inherited old new t) by by apply Hadd.
      naive_solver.
Qed.

(** A loop over the names, once the rounds are known. *)
Lemma foldl_diffTable (field : Diff → list string)
    (entered : string → Prop) old new names :
  (∀ d0 d1 t, t ∈ names → diffTable old new (Ok d0) t = Ok d1 →
              ∀ x, x ∈ field d1 ↔ x ∈ field d0 ∨ (x = t ∧ entered t)) →
  ∀ d0 d, foldl (diffTable old new) (Ok d0) names = Ok d →
  ∀ x, x ∈ field d ↔ x ∈ field d0 ∨ (x ∈ names ∧ entered x).
Proof.
  induction names as [|t names IH]; intros Hstep d0 d Hfold x;
    cbn [foldl] in Hfold.
  - simplify_eq. split; [by left|]. by intros [?|[?%elem_of_nil _]].
  - destruct (diffTable old new (Ok d0) t) as [d1|e] eqn:Ht.
    + rewrite (IH (λ a b u Hu, Hstep a b u (list_elem_of_further _ _ _ Hu))
                 _ _ Hfold x).
      rewrite (Hstep _ _ _ (list_elem_of_here _ _) Ht x), elem_of_cons.
      naive_solver.
    + rewrite foldl_Throw in Hfold; [done|]. apply diffTable_Throw.
Qed.

Lemma diff_Ok old new d :
  diff old new = Ok d →
  foldl (diffTable old new) (Ok emptyDiff)
    (js_set (getTableNames old ++ getTableNames new)) = Ok d.
Proof.
  unfold Schemas.diff. unbind.
  by destruct (if truthy old then _ else _).
Qed.

(** The [remove] array of a diff, exactly. *)
Lemma diff_remove_iff old new d t :
  diff old new = Ok d →
  t ∈ remove d ↔
  (t ∈ getTableNames old ∨ t ∈ getTableNames new) ∧
  in_schema inherited old t ∧ lookup inherited new t = Ok JNull.
Proof.
  intros Hd%diff_Ok.
  rewrite (foldl_diffTable remove
             (λ t, in_schema inherited old t
                   ∧ lookup inherited new t = Ok JNull)
             old new _ (λ d0 d1 u _, diffTable_remove old new d0 d1 u)
             _ _ Hd t).
  simpl. rewrite elem_of_js_set, elem_of_app.
  split; [|naive_solver]. intros [?%elem_of_nil|[? ?]]; done.
Qed.

(** A table name of the old schema that the new one sets to [null] is
    removed. *)
Lemma diff_remove_nulled old new d t :
  diff old new = Ok d →
  t ∈ getTableNames old → get new t = Ok JNull → t ∈ remove d.
Proof.
  intros Hd Hold Hnull. apply (diff_remove_iff _ _ _ _ Hd).
  split; [by left|]. split; [|by apply lookup_null].
  apply diff_Ok in Hd. revert Hd. generalize emptyDiff.
  assert (t ∈ js_set (getTableNames old ++ getTableNames new)) as Hin.
  { apply elem_of_js_set, elem_of_app. by left. }
  revert Hin. generalize (js_set (getTableNames old ++ getTableNames new)).
  intros names. induction names as [|u names IH]; intros Hin d0 Hfold;
    [by apply elem_of_nil in Hin|].
  cbn [foldl] in Hfold.
  destruct (diffTable old new (Ok d0) u) as [d1|e] eqn:Hstep.
  2:{ rewrite foldl_Throw in Hfold; [done|]. apply diffTable_Throw. }
  apply elem_of_cons in Hin as [->|Hin]; [|by eapply IH].
  unfold Schemas.diffTable in Hstep. unbind.
  destruct (if truthy old then _ else _) as [b|] eqn:Hb; [|done].
  apply (oldSchemaHasTable_spec _ _ _ _ Hb).
  by eapply oldSchemaHasTable_own.
Qed.

(** [diff] returns on two schema objects (or with no old schema), provided
    [diffArrays] returns, no inherited member is [null] or [undefined], and
    no table that the new schema defines is [null] or [undefined] in the old
    one. *)
Lemma diff_returns old nps :
  (∀ a b, ∃ r, diffArrays a b = Ok r) →
  (∀ v k m, inherited v k = Some m → m ≠ JNull ∧ m ≠ JUndefined) →
  (truthy old = false ∨
   ∃ ops, old = JObj ops ∧
     ∀ t od nd, assoc_get t ops = Some od →
                lookup inherited (JObj nps) t = Ok nd →
                truthy nd = true → od ≠ JNull ∧ od ≠ JUndefined) →
  ∃ d, diff old (JObj nps) = Ok d.
Proof.
  intros Htotal Hproto Hold. unfold Schemas.diff.
  assert ((if truthy old
           then _ ← get old "version"; get (JObj nps) "version"
           else Ok JUndefined) ≫= (λ _, Ok ()) = Ok ()) as Hdebug.
  { unbind. destruct Hold as [->|(ops & -> & _)]; done. }
  unbind. destruct (if truthy old then _ else _); [|done]. clear Hdebug.
  generalize (js_set (getTableNames old ++ getTableNames (JObj nps))).
  intros names. generalize emptyDiff. induction names as [|t names IH];
    intros d0; cbn [foldl]; [by eexists|].
  assert (∃ d1, diffTable old (JObj nps) (Ok d0) t = Ok d1)
    as [d1 ->]; [|apply IH].
  unfold Schemas.diffTable. unbind.
  destruct (if truthy old then has_in inherited old t else Ok false)
    as [b|e] eqn:Hbeq.
  2:{ destruct Hold as [Hf|(ops & -> & _)]; [by rewrite Hf in Hbeq|done]. }
  destruct (lookup_defined inherited (JObj nps) t) as [nd Hnd]; [done..|].
  rewrite Hnd.
  destruct (b && negb (negb (strict_eq nd JNull))); [by eexists|].
  destruct (negb b && negb (strict_eq nd JNull)) eqn:Hadd; [by eexists|].
  destruct (truthy nd) eqn:Hnt; [|by eexists].
  assert (b = true) as ->.
  { destruct b; [done|]. simpl in Hadd. apply negb_false_iff in Hadd.
    apply strict_eq_null in Hadd. by rewrite Hadd in Hnt. }
  destruct Hold as [Hf|(ops & -> & Hdefs)]; [by rewrite Hf in Hbeq|].
  simpl in Hbeq. injection Hbeq as Hbeq.
  assert (∃ od, lookup inherited (JObj ops) t = Ok od
                ∧ od ≠ JNull ∧ od ≠ JUndefined) as (od & -> & Hnull & Hundef).
  { unfold lookup. unbind. simpl get.
    destruct (has_own (JObj ops) t) eqn:Hown.
    - destruct (assoc_get t ops) as [od|] eqn:Hod.
      + eexists. split; [done|]. by eapply Hdefs.
      + unfold has_own in Hown. rewrite orb_false_r in Hown.
        apply bool_decide_eq_true in Hown. by apply assoc_get_None in Hod.
    - simpl in Hbeq. apply bool_decide_eq_true in Hbeq as [m Hm].
      rewrite Hm. eexists. split; [done|]. by eapply Hproto. }
  assert (nd ≠ JNull ∧ nd ≠ JUndefined) as [Hn1 Hn2].
  { split; intros Heq; by rewrite Heq in Hnt. }
  unfold diffTables. unbind.
  destruct (get_defined nd "index" Hn1 Hn2) as [nidx ->].
  destruct (get_defined od "index" Hnull Hundef) as [oidx ->].
  destruct (get_defined nd "path" Hn1 Hn2) as [npath ->].
  destruct (get_defined od "path" Hnull Hundef) as [opath ->].
  destruct (Htotal oidx nidx) as [r ->].
  destruct (truthy nidx), (truthy npath); by eexists.
Qed.

(** The [tablesToRebuild] array of a diff, exactly. *)
Lemma diff_tablesToRebuild_iff old new d t :
  diff old new = Ok d →
  t ∈ tablesToRebuild d ↔
  newly_added inherited old new t
  ∨ path_redeclared inherited sharedPath old new t.
Proof.
  intros Hd%diff_Ok.
  rewrite (foldl_diffTable tablesToRebuild
             (λ t, newly_added inherited old new t
                   ∨ path_redeclared inherited sharedPath old new t)
             old new _
             (λ d0 d1 u Hu,
                diffTable_rebuild old new d0 d1 u
                  (proj2 (allTableNames_elem _ _ _ Hu))) _ _ Hd t).
  simpl. rewrite elem_of_js_set, elem_of_app.
  split; [by intros [?%elem_of_nil|[_ ?]]|].
  intros H. right. split; [|done].
  destruct H as [(? & _)|(? & _)]; auto.
Qed.

End with_diffArrays.

(** ** The schema differ and the claims *)

Import Examples.

(** C5, as amended.  On every pair of schemas that [diff] accepts, every table
    name of the old schema that the new schema sets to [null] is in the
    [remove] array of the diff. *)
Theorem diff_removes_nulled_tables inherited sharedPath diffArrays old new d t :
  diff inherited sharedPath diffArrays old new = Ok d →
  t ∈ getTableNames old →
  get new t = Ok JNull →
  t ∈ remove d.
Proof. apply diff_remove_nulled. Qed.

Lemma diff_removes_nulled_tables_witness :
  diff object_runtime nothing_shared noIndexDelta schema_v1 schema_v2_null
    = Ok (push_remove emptyDiff "posts") ∧
  "posts" ∈ getTableNames schema_v1 ∧
  get schema_v2_null "posts" = Ok JNull ∧
  "posts" ∈ remove (push_remove emptyDiff "posts").
Proof.
  assert (diff object_runtime nothing_shared noIndexDelta
            schema_v1 schema_v2_null
            = Ok (push_remove emptyDiff "posts")) as Hd by (vm_compute; reflexivity).
  assert ("posts" ∈ getTableNames schema_v1) as Hold
    by (apply (bool_decide_unpack _); vm_compute; exact I).
  assert (get schema_v2_null "posts" = Ok JNull) as Hnull by reflexivity.
  exact (conj Hd (conj Hold (conj Hnull
           (diff_removes_nulled_tables _ _ _ _ _ _ _ Hd Hold Hnull)))).
Defined.

(** C5 as stated fails: [posts] is a table of the old schema and no table of
    the new one, and [diff] does not remove it.  A table that the next
    version leaves out is left as it is. *)
Lemma diff_keeps_unmentioned_table :
  diff object_runtime nothing_shared noIndexDelta schema_v1 schema_v2_silent
    = Ok emptyDiff ∧
  "posts" ∈ getTableNames schema_v1 ∧
  ("posts" ∉ getTableNames schema_v2_silent) ∧
  ("posts" ∉ remove emptyDiff).
Proof.
  split; [vm_compute; reflexivity|].
  split; [apply (bool_decide_unpack _); vm_compute; exact I|].
  split; [apply (bool_decide_unpack _); vm_compute; exact I|].
  by intros ?%elem_of_nil.
Qed.

(** C6, as amended.  On every pair of schemas that [diff] accepts, the
    [tablesToRebuild] array holds exactly the table names that the new schema
    declares with a definition and that are no name [in] the old schema, and
    the table names [in] the old schema whose new definition states an ingest
    path that is not ([!==]) the old one. *)
Theorem diff_tablesToRebuild_exact inherited sharedPath diffArrays old new d t :
  diff inherited sharedPath diffArrays old new = Ok d →
  t ∈ tablesToRebuild d ↔
  newly_added inherited old new t
  ∨ path_redeclared inherited sharedPath old new t.
Proof. apply diff_tablesToRebuild_iff. Qed.

Lemma diff_tablesToRebuild_exact_witness :
  diff object_runtime nothing_shared noIndexDelta schema_v1 schema_v2_moved
    = Ok {| add := [("likes", JObj [("path", JStr "/likes/*.json");
                                    ("index", JArr [] [])])];
            change := []; remove := [];
            tablesToRebuild := ["posts"; "likes"] |} ∧
  ("posts" ∈ ["posts"; "likes"] ↔
   newly_added object_runtime schema_v1 schema_v2_moved "posts"
   ∨ path_redeclared object_runtime nothing_shared
       schema_v1 schema_v2_moved "posts").
Proof.
  assert (diff object_runtime nothing_shared noIndexDelta
            schema_v1 schema_v2_moved
    = Ok {| add := [("likes", JObj [("path", JStr "/likes/*.json");
                                    ("index", JArr [] [])])];
            change := []; remove := [];
            tablesToRebuild := ["posts"; "likes"] |}) as Hd
    by (vm_compute; reflexivity).
  exact (conj Hd (diff_tablesToRebuild_exact _ _ _ _ _ _ "posts" Hd)).
Defined.

(** C6 as stated fails: [posts] is a table of both schemas and its [path]
    differs (the new definition has none), and it is not flagged.  The
    comparison is made only when the new definition states a path. *)
Lemma diff_ignores_dropped_path :
  diff object_runtime nothing_shared noIndexDelta schema_v1 schema_v2_no_path
    = Ok emptyDiff ∧
  path_changed object_runtime nothing_shared
    schema_v1 schema_v2_no_path "posts" ∧
  ("posts" ∉ tablesToRebuild emptyDiff).
Proof.
  split; [vm_compute; reflexivity|]. split; [|by intros ?%elem_of_nil].
  split; [apply (bool_decide_unpack _); vm_compute; exact I|].
  split; [apply (bool_decide_unpack _); vm_compute; exact I|].
  exists (JStr "/posts/*.json"), JUndefined. by vm_compute.
Qed.

(** A table named as an inherited member is [in] the old schema although the
    old schema does not declare it: [diff] compares the definitions, and
    neither adds the table nor flags it. *)
Lemma diff_compares_inherited_name :
  ("constructor" ∉ getTableNames schema_v1_bare) ∧
  "constructor" ∈ getTableNames schema_v2_constructor ∧
  diff object_runtime nothing_shared noIndexDelta
    schema_v1_bare schema_v2_constructor = Ok emptyDiff.
Proof.
  split; [apply (bool_decide_unpack _); vm_compute; exact I|].
  split; [apply (bool_decide_unpack _); vm_compute; exact I|].
  vm_compute; reflexivity.
Qed.

(** A path predicate that the two versions share is the same path; two
    predicates written out alike are not. *)
Lemma diff_same_path_object :
  diff object_runtime posts_path_shared noIndexDelta
    (schema_predicate 1) (schema_predicate 2) = Ok emptyDiff ∧
  diff object_runtime nothing_shared noIndexDelta
    (schema_predicate 1) (schema_predicate 2)
    = Ok (push_rebuild emptyDiff "posts").
Proof. split; vm_compute; reflexivity. Qed.


(** C9 fails on the code.  The schema [{version: 1, posts: {index: 5}}] has a
    table whose index specifier is neither a string nor an array of strings;
    [validateAndSanitize] raises nothing and leaves [posts.index] as [[5]].
    The assertion in the loop reads [schema.index], not [table.index]. *)
Theorem validateAndSanitize_accepts_malformed_index :
  get schema_bad_index "posts" = Ok (JObj [("index", JNum 5)]) ∧
  String.eqb (typeof (JNum 5)) "string" = false ∧
  isArrayOfStrings (JNum 5) = false ∧
  validateAndSanitize schema_bad_index
    = Ok (JObj [("version", JNum 1);
                ("posts", JObj [("index", JArr [JNum 5] [])])]).
Proof. repeat split; vm_compute; reflexivity. Qed.

End schemas_facts.

(* ===================================================================== *)
(** * Facts about the indexer *)
(* ===================================================================== *)

Section indexer_facts.
Import JS Indexer Examples.

(** ** Property lists *)

Lemma assoc_get_set {A} (p k : string) (v : A) (ps : list (string * A)) :
  assoc_get p (assoc_set k v ps)
  = if String.eqb p k then Some v else assoc_get p ps.
Proof.
  induction ps as [|[k' v'] ps IH]; simpl.
  - by destruct (String.eqb p k).
  - destruct (String.eqb_spec k k') as [->|Hk]; simpl.
    + by destruct (String.eqb p k').
    + rewrite IH. destruct (String.eqb_spec p k') as [->|?]; [|done].
      destruct (String.eqb_spec k' k) as [->|?]; done.
Qed.

Lemma elem_of_assoc_set {A} (k : string) (v : A) (ps : list (string * A)) x :
  x ∈ assoc_set k v ps → x = (k, v) ∨ x ∈ ps.
Proof.
  induction ps as [|[k' v'] ps IH]; simpl.
  - intros ?%list_elem_of_singleton. by left.
  - destruct (String.eqb k k').
    + intros [->|?]%elem_of_cons; [by left|]. right. by right.
    + intros [->|?]%elem_of_cons; [right; by left|].
      destruct IH as [?|?]; [done|by left|]. right. by right.
Qed.

Lemma assoc_set_keys {A} (k : string) (v : A) (ps : list (string * A)) x :
  x ∈ (assoc_set k v ps).*1 ↔ x = k ∨ x ∈ ps.*1.
Proof.
  induction ps as [|[k' v'] ps IH]; simpl.
  - rewrite list_elem_of_singleton, elem_of_nil. tauto.
  - destruct (String.eqb_spec k k') as [->|?]; simpl.
    + rewrite !elem_of_cons. tauto.
    + rewrite !elem_of_cons, IH. tauto.
Qed.

Lemma NoDup_assoc_set {A} (k : string) (v : A) (ps : list (string * A)) :
  NoDup ps.*1 → NoDup (assoc_set k v ps).*1.
Proof.
  induction ps as [|[k' v'] ps IH]; simpl.
  - intros _. apply NoDup_singleton.
  - intros [Hk' Hps]%NoDup_cons. destruct (String.eqb_spec k k') as [->|?]; simpl.
    + by apply NoDup_cons.
    + apply NoDup_cons. split; [|by apply IH].
      rewrite assoc_set_keys. intros [?|?]; done.
Qed.

Lemma assoc_get_elem_of {A} (k : string) (v : A) (ps : list (string * A)) :
  NoDup ps.*1 → (k, v) ∈ ps ↔ assoc_get k ps = Some v.
Proof.
  induction ps as [|[k' v'] ps IH]; simpl.
  - intros _. rewrite elem_of_nil. split; [done|by intros ?].
  - intros [Hk' Hps]%NoDup_cons. rewrite elem_of_cons, (IH Hps).
    destruct (String.eqb_spec k k') as [->|?].
    + split; [intros [?|Hin]; [by simplify_eq|]|intros ?; left; by simplify_eq].
      destruct Hk'. apply (assoc_get_Some _ _ _ Hin).
    + split; [by intros [?|?]; simplify_eq|by right].
Qed.

(** ** The history scanner *)

Lemma collapse_snoc db hist update :
  collapse db (hist ++ [update])
  = if anymatch (_tablePathPatterns db) (path update)
    then assoc_set (path update) update (collapse db hist)
    else collapse db hist.
Proof. unfold collapse. by rewrite foldl_snoc. Qed.

Lemma collapse_NoDup db hist : NoDup (collapse db hist).*1.
Proof.
  induction hist as [|update hist IH] using rev_ind; [constructor|].
  rewrite collapse_snoc. destruct (anymatch _ _); [|done].
  by apply NoDup_assoc_set.
Qed.

Lemma collapse_lookup db hist p :
  assoc_get p (collapse db hist)
  = if anymatch (_tablePathPatterns db) p
    then last (filter (λ u, path u = p) hist)
    else None.
Proof.
  induction hist as [|update hist IH] using rev_ind.
  - simpl. by destruct (anymatch _ _).
  - rewrite collapse_snoc, filter_app.
    destruct (decide (path update = p)) as [<-|Hne].
    + rewrite filter_cons_True by done. rewrite filter_nil, last_snoc.
      destruct (anymatch _ _) eqn:Hm; [|by rewrite IH].
      by rewrite assoc_get_set, String.eqb_refl.
    + rewrite filter_cons_False by done. rewrite filter_nil, app_nil_r.
      destruct (anymatch _ (path update)); [|done].
      rewrite assoc_get_set. by destruct (String.eqb_spec p (path update)).
Qed.

Lemma collapse_entries db hist p u :
  (p, u) ∈ collapse db hist →
  path u = p ∧ anymatch (_tablePathPatterns db) p = true ∧ u ∈ hist.
Proof.
  induction hist as [|update hist IH] using rev_ind.
  - by intros ?%elem_of_nil.
  - rewrite collapse_snoc, elem_of_app, list_elem_of_singleton.
    destruct (anymatch _ (path update)) eqn:Hm.
    + intros [?|?]%elem_of_assoc_set; [simplify_eq; auto|]. naive_solver.
    + naive_solver.
Qed.

(** C3.  The scan reads the history of the given range, keeps the entries
    whose path matches one of the tables' path patterns, and maps every such
    path to the last entry of the range for that path: the keys of the result
    are distinct paths, every entry kept is an entry of the range filed under
    its own path and that path matches, and the entry under a matching path
    is the last one of the range for it. *)
Theorem scanArchiveHistoryForUpdates_latest db archive start end_ s :
  ∃ updates,
    scanArchiveHistoryForUpdates db archive start end_ s
      = (Ok updates, emit (HistoryRead (url archive) start end_) s) ∧
    NoDup updates.*1 ∧
    (∀ p u, (p, u) ∈ updates →
            path u = p ∧ anymatch (_tablePathPatterns db) p = true ∧
            u ∈ history archive start end_) ∧
    (∀ p, assoc_get p updates
          = if anymatch (_tablePathPatterns db) p
            then last (filter (λ u, path u = p) (history archive start end_))
            else None).
Proof.
  exists (collapse db (history archive start end_)).
  split; [done|]. split; [apply collapse_NoDup|].
  split; [apply collapse_entries|apply collapse_lookup].
Qed.

(** ** The effect monad *)

Lemma bind_run {A B} (m : M A) (k : A → M B) (s : Store) :
  (m ≫= k) s = match m s with
               | (Ok a, s') => k a s'
               | (Throw e, s') => (Throw e, s')
               end.
Proof. done. Qed.

Lemma run_actions_app acts1 acts2 s :
  run_actions (acts1 ++ acts2) s = run_actions acts2 (run_actions acts1 s).
Proof. apply foldl_app. Qed.

Lemma uniform_ret {A} (a : A) : uniform (mret a) (Ok a) [].
Proof. by intros s. Qed.

Lemma uniform_lift {A} (r : result A) : uniform (lift r) r [].
Proof. by intros s. Qed.

Lemma uniform_act (a : Action) : uniform (modify (act a)) (Ok ()) [a].
Proof. by intros s. Qed.

Lemma uniform_bind {A B} (m : M A) (k : A → M B) a acts1 r acts2 :
  uniform m (Ok a) acts1 → uniform (k a) r acts2 →
  uniform (m ≫= k) r (acts1 ++ acts2).
Proof. intros Hm Hk s. by rewrite bind_run, Hm, Hk, run_actions_app. Qed.

Lemma uniform_bind_Throw {A B} (m : M A) (k : A → M B) e acts :
  uniform m (Throw e) acts → uniform (m ≫= k) (Throw e) acts.
Proof. intros Hm s. by rewrite bind_run, Hm. Qed.

(** ** The fields an action leaves alone, and the records it reaches *)

Lemma run_actions_indexMeta acts s :
  indexMeta (run_actions acts s) = indexMeta s.
Proof.
  revert s. induction acts as [|a acts IH]; intros s; [done|].
  unfold run_actions in *. simpl. rewrite IH. by destruct a.
Qed.

Lemma run_actions_fileEvents acts s :
  fileEvents (run_actions acts s) = fileEvents s
  ∧ streams (run_actions acts s) = streams s.
Proof.
  revert s. induction acts as [|a acts IH]; intros s; [done|].
  unfold run_actions in *. simpl. rewrite !(proj1 (IH _)), !(proj2 (IH _)).
  by destruct a.
Qed.

Lemma run_actions_trace acts s :
  trace (run_actions acts s) = trace s ++ (event_of <$> acts).
Proof.
  revert s. induction acts as [|a acts IH]; intros s.
  - simpl. by rewrite app_nil_r.
  - unfold run_actions in *. simpl. rewrite IH.
    destruct a; simpl; by rewrite <-app_assoc.
Qed.

Lemma run_actions_records_other acts s t k :
  Forall (λ a, about_url a ≠ k) acts →
  records (run_actions acts s) !! (t, k) = records s !! (t, k).
Proof.
  revert s. induction acts as [|a acts IH]; intros s Hacts; [done|].
  apply Forall_cons in Hacts as [Ha Hacts].
  unfold run_actions in *. simpl. rewrite (IH _ Hacts).
  destruct a as [| t' k' r | t' k']; simpl in *; [done|..].
  - rewrite lookup_insert_ne; [done|]. by intros [= _ ?].
  - rewrite lookup_delete_ne; [done|]. by intros [= _ ?].
Qed.

(** The records after a list of actions depend on the records before only:
    two stores with the same records end with the same records. *)
Lemma run_actions_records_ext acts s1 s2 :
  records s1 = records s2 →
  records (run_actions acts s1) = records (run_actions acts s2).
Proof.
  revert s1 s2. induction acts as [|a acts IH]; intros s1 s2 Heq; [done|].
  unfold run_actions in *. simpl. apply IH.
  destruct a; simpl; by rewrite ?Heq.
Qed.

(** ** Reading, validating and storing one file *)

(** An assignment to a property whose name is no array index. *)
Lemma set_named (v : jsval) (c : Ascii.ascii) (k : string) (x : jsval) :
  (∀ n, pretty_N_char n ≠ c) →
  set v (String c k) x
  = match v with
    | JUndefined | JNull => Throw TypeError
    | JObj ps => Ok (JObj (assoc_set (String c k) x ps))
    | JArr es nm => Ok (JArr es (assoc_set (String c k) x nm))
    | JBool _ | JNum _ | JStr _ => Ok v
    end.
Proof.
  intros Hc. destruct v; simpl; try done. by rewrite idx_set_named.
Qed.

Lemma set_url (v x : jsval) :
  set v "_url" x
  = match v with
    | JUndefined | JNull => Throw TypeError
    | JObj ps => Ok (JObj (assoc_set "_url" x ps))
    | JArr es nm => Ok (JArr es (assoc_set "_url" x nm))
    | JBool _ | JNum _ | JStr _ => Ok v
    end.
Proof. apply set_named. not_a_digit. Qed.

Lemma set_origin (v x : jsval) :
  set v "_origin" x
  = match v with
    | JUndefined | JNull => Throw TypeError
    | JObj ps => Ok (JObj (assoc_set "_origin" x ps))
    | JArr es nm => Ok (JArr es (assoc_set "_origin" x nm))
    | JBool _ | JNum _ | JStr _ => Ok v
    end.
Proof. apply set_named. not_a_digit. Qed.

(** A record that was given its [_url] is stored under that url. *)
Lemma key_of_stamped (r r1 r2 o : jsval) (fu k : string) :
  set r "_url" (JStr fu) = Ok r1 →
  set r1 "_origin" o = Ok r2 →
  IDB.key_of r2 = Ok k →
  k = fu.
Proof.
  assert (∀ {A} (es : list A) i, idx_get es i "_url" = None) as Hidx.
  { intros A es i. apply idx_get_named. not_a_digit. }
  rewrite set_url, set_origin. unfold IDB.key_of. unbind.
  destruct r as [| |b|n|str|es nm|ps]; simpl; intros H1 H2 Hk; simplify_eq;
    simpl in Hk; try done.
  - by rewrite Hidx in Hk.
  - rewrite Hidx, !assoc_get_set in Hk. vm_compute in Hk. by simplify_eq.
  - rewrite !assoc_get_set in Hk. vm_compute in Hk. by simplify_eq.
Qed.

Lemma IDB_put_uniform db table record :
  (∃ e, uniform (IDB.put db table record) (Throw e) []) ∨
  (∃ k, IDB.key_of record = Ok k ∧
        uniform (IDB.put db table record) (Ok ()) [Put (name table) k record]).
Proof.
  unfold IDB.put. destruct (IDB.key_of record) as [k|e] eqn:Hk.
  - destruct (idbFault db (name table) k) eqn:Hf.
    + left. exists StoreError. intros s. rewrite bind_run. simpl. by rewrite Hf.
    + right. exists k. split; [done|]. intros s. rewrite bind_run. simpl.
      by rewrite Hf.
  - left. exists e. by intros s.
Qed.

Lemma indexOnFirstMatch_uniform db archive p fu record ts :
  (uniform (indexOnFirstMatch db archive p fu record ts) (Ok NotIndexed) []
   ∧ Forall (λ t, isRecordFile t p = false) ts) ∨
  (∃ e, uniform (indexOnFirstMatch db archive p fu record ts) (Throw e) []) ∨
  (∃ t stored, t ∈ ts ∧ isRecordFile t p = true ∧
     uniform (indexOnFirstMatch db archive p fu record ts)
       (Ok (Named (name t))) [Put (name t) fu stored]).
Proof.
  induction ts as [|t ts IH]; simpl.
  - left. split; [apply uniform_ret|constructor].
  - destruct (isRecordFile t p) eqn:Hrec.
    + clear IH.
      destruct (match validator t with
                | Some validate => validate record
                | None => Ok record
                end) as [r0|e] eqn:Hval;
        [|right; left; exists e; by apply uniform_bind_Throw, uniform_lift].
      destruct (set r0 "_url" (JStr fu)) as [r1|e] eqn:H1.
      2:{ right; left; exists e. apply (uniform_bind _ _ r0 [] _ []);
            [apply uniform_lift|cbv beta]. rewrite H1.
          by apply uniform_bind_Throw, uniform_lift. }
      destruct (set r1 "_origin" (JStr (url archive))) as [r2|e] eqn:H2.
      2:{ right; left; exists e. apply (uniform_bind _ _ r0 [] _ []);
            [apply uniform_lift|cbv beta]. rewrite H1.
          apply (uniform_bind _ _ r1 [] _ []); [apply uniform_lift|cbv beta].
          rewrite H2. by apply uniform_bind_Throw, uniform_lift. }
      destruct (IDB_put_uniform db t r2) as [[e He]|(k & Hk & Hput)].
      * right; left; exists e. apply (uniform_bind _ _ r0 [] _ []);
          [apply uniform_lift|cbv beta]. rewrite H1.
        apply (uniform_bind _ _ r1 [] _ []); [apply uniform_lift|cbv beta]. rewrite H2.
        apply (uniform_bind _ _ r2 [] _ []); [apply uniform_lift|cbv beta].
        by apply uniform_bind_Throw.
      * right; right. exists t, r2. split; [by left|]. split; [done|].
        pose proof (key_of_stamped _ _ _ _ _ _ H1 H2 Hk) as ->.
        apply (uniform_bind _ _ r0 [] _ [_]); [apply uniform_lift|cbv beta]. rewrite H1.
        apply (uniform_bind _ _ r1 [] _ [_]); [apply uniform_lift|cbv beta]. rewrite H2.
        apply (uniform_bind _ _ r2 [] _ [_]); [apply uniform_lift|cbv beta].
        apply (uniform_bind _ _ () [_] _ []); [done|apply uniform_ret].
    + destruct IH as [[Hu Hall]|[[e He]|(t' & stored & Hin & Hrec' & Hu)]].
      * left. split; [done|by constructor].
      * right; left. by exists e.
      * right; right. exists t', stored. split; [by right|done].
Qed.

Lemma readAndIndexFile_try_uniform db archive p :
  let m := readAndIndexFile_try db archive p in
  uniform m (Ok NotIndexed) [] ∨
  (∃ e, uniform m (Throw e) []) ∨
  (∃ t stored, t ∈ tables db ∧ isRecordFile t p = true ∧
     uniform m (Ok (Named (name t))) [Put (name t) (url archive +:+ p) stored]).
Proof.
  unfold readAndIndexFile_try.
  destruct (readFile archive p) as [record|e] eqn:Hread.
  - destruct (indexOnFirstMatch_uniform db archive p (url archive +:+ p)
                record (tables db))
      as [[Hu _]|[[e He]|(t & stored & Hin & Hrec & Hu)]].
    + left. by apply (uniform_bind _ _ record [] _ []); [apply uniform_lift|].
    + right; left. exists e.
      by apply (uniform_bind _ _ record [] _ []); [apply uniform_lift|].
    + right; right. exists t, stored. split; [done|]. split; [done|].
      by apply (uniform_bind _ _ record [] _ [_]); [apply uniform_lift|].
  - right; left. exists e. by apply uniform_bind_Throw, uniform_lift.
Qed.

Lemma try_catch_Ok {A} (body : M A) handler a acts :
  uniform body (Ok a) acts → uniform (try_catch body handler) (Ok a) acts.
Proof. intros Hb s. unfold try_catch. by rewrite Hb. Qed.

Lemma try_catch_Throw {A} (body : M A) handler e acts r acts' :
  uniform body (Throw e) acts → uniform (handler e) r acts' →
  uniform (try_catch body handler) r (acts ++ acts').
Proof.
  intros Hb Hh s. unfold try_catch. by rewrite Hb, Hh, run_actions_app.
Qed.

(** The three ways [readAndIndexFile] can end. *)
Lemma readAndIndexFile_uniform db archive p :
  let fu := url archive +:+ p in
  let m := readAndIndexFile db archive p in
  uniform m (Ok NotIndexed) [] ∨
  ((∃ e, uniform (readAndIndexFile_try db archive p) (Throw e) []) ∧
   uniform m (Ok NotIndexed) [Log "Failed to index" fu]) ∨
  (∃ t stored, t ∈ tables db ∧ isRecordFile t p = true ∧
     uniform m (Ok (Named (name t))) [Put (name t) fu stored]).
Proof.
  intros fu m. unfold m, readAndIndexFile.
  destruct (readAndIndexFile_try_uniform db archive p)
    as [Hu|[[e He]|(t & stored & Hin & Hrec & Hu)]].
  - left. by apply try_catch_Ok.
  - right; left. split; [by exists e|].
    apply (try_catch_Throw _ _ e [] _ [_] He).
    apply (uniform_bind _ _ () [_] _ []); [done|apply uniform_ret].
  - right; right. exists t, stored. split; [done|]. split; [done|].
    by apply try_catch_Ok.
Qed.

Lemma unindexOnFirstMatch_uniform db p fu ts :
  let m := unindexOnFirstMatch db p fu ts in
  uniform m (Ok NotIndexed) [] ∨
  (∃ e, uniform m (Throw e) []) ∨
  (∃ t, t ∈ ts ∧ isRecordFile t p = true ∧
     uniform m (Ok (Named (name t))) [Delete (name t) fu]).
Proof.
  induction ts as [|t ts IH]; simpl.
  - left. apply uniform_ret.
  - destruct (isRecordFile t p) eqn:Hrec.
    + unfold IDB.delete. destruct (idbFault db (name t) fu).
      * right; left. exists StoreError. by apply uniform_bind_Throw, uniform_lift.
      * right; right. exists t. split; [by left|]. split; [done|].
        apply (uniform_bind _ _ () [_] _ []); [done|apply uniform_ret].
    + destruct IH as [?|[[e He]|(t' & Hin & Hrec' & Hu)]].
      * by left.
      * right; left. by exists e.
      * right; right. exists t'. split; [by right|done].
Qed.

(** The three ways [unindexFile] can end. *)
Lemma unindexFile_uniform db archive p :
  let fu := url archive +:+ p in
  let m := unindexFile db archive p in
  uniform m (Ok NotIndexed) [] ∨
  ((∃ e, uniform (unindexOnFirstMatch db p fu (tables db)) (Throw e) []) ∧
   uniform m (Ok NotIndexed) [Log "Failed to unindex" fu]) ∨
  (∃ t, t ∈ tables db ∧ isRecordFile t p = true ∧
     uniform m (Ok (Named (name t))) [Delete (name t) fu]).
Proof.
  intros fu m. unfold m, unindexFile.
  destruct (unindexOnFirstMatch_uniform db p fu (tables db))
    as [Hu|[[e He]|(t & Hin & Hrec & Hu)]].
  - left. by apply try_catch_Ok.
  - right; left. split; [by exists e|].
    apply (try_catch_Throw _ _ e [] _ [_] He).
    apply (uniform_bind _ _ () [_] _ []); [done|apply uniform_ret].
  - right; right. exists t. split; [done|]. split; [done|].
    by apply try_catch_Ok.
Qed.

(** The work on one path returns, whatever happens to the record, and what
    it does is about that path's record only. *)
Lemma applyUpdate_uniform db archive update :
  ∃ r acts,
    uniform (applyUpdate db archive update) (Ok r) acts ∧
    Forall (λ a, about_url a = url archive +:+ path update) acts.
Proof.
  unfold applyUpdate. destruct (String.eqb (type update) "del").
  - destruct (unindexFile_uniform db archive (path update))
      as [Hu|[[_ Hu]|(t & _ & _ & Hu)]]; eexists _, _; (split; [exact Hu|]);
      repeat constructor.
  - destruct (readAndIndexFile_uniform db archive (path update))
      as [Hu|[[_ Hu]|(t & stored & _ & _ & Hu)]];
      eexists _, _; (split; [exact Hu|]); repeat constructor.
Qed.

(** ** A batch of updates *)

Lemma promise_all_uniform {A} (tasks : list (M A)) (outs : list (A * list Action)) :
  Forall2 (λ m out, uniform m (Ok out.1) out.2) tasks outs →
  uniform (promise_all tasks) (Ok outs.*1) (concat outs.*2).
Proof.
  induction 1 as [|m [a acts] tasks outs Hm _ IH]; [done|].
  intros s. simpl in *. rewrite Hm, IH. by rewrite run_actions_app.
Qed.

(** Every path of the batch has its outcome and its actions, which are about
    that path's record; the batch returns the outcomes in order and does the
    actions one path after the other. *)
Lemma applyUpdates_uniform db archive updates :
  ∃ outs : list (Outcome * list Action),
    Forall2 (λ kv out,
               uniform (applyUpdate db archive kv.2) (Ok out.1) out.2 ∧
               Forall (λ a, about_url a = url archive +:+ path kv.2) out.2)
            updates outs ∧
    uniform (applyUpdates db archive updates) (Ok outs.*1) (concat outs.*2).
Proof.
  assert (∃ outs : list (Outcome * list Action),
    Forall2 (λ kv out,
               uniform (applyUpdate db archive kv.2) (Ok out.1) out.2 ∧
               Forall (λ a, about_url a = url archive +:+ path kv.2) out.2)
            updates outs) as [outs Houts].
  { induction updates as [|kv updates [outs IH]]; [by exists []|].
    destruct (applyUpdate_uniform db archive kv.2) as (r & acts & Hu & Hacts).
    exists ((r, acts) :: outs). by constructor. }
  exists outs. split; [done|]. unfold applyUpdates.
  apply promise_all_uniform. apply Forall2_fmap_l.
  eapply Forall2_impl; [exact Houts|]. by intros kv out [? _].
Qed.


(** What a list of actions leaves under a key: a value it sets, or what was
    there. *)
Lemma run_actions_records_lookup acts key :
  ∃ o : option (option jsval), ∀ s,
    records (run_actions acts s) !! key
    = match o with Some v => v | None => records s !! key end.
Proof.
  induction acts as [|a acts [o IH]] using rev_ind; [by exists None|].
  destruct a as [| t k r | t k].
  - exists o. intros s. rewrite run_actions_app. simpl. apply IH.
  - destruct (decide ((t, k) = key)) as [<-|?].
    + exists (Some (Some r)). intros s. rewrite run_actions_app. simpl.
      by rewrite lookup_insert_eq.
    + exists o. intros s. rewrite run_actions_app. simpl.
      by rewrite lookup_insert_ne.
  - destruct (decide ((t, k) = key)) as [<-|?].
    + exists (Some None). intros s. rewrite run_actions_app. simpl.
      by rewrite lookup_delete_eq.
    + exists o. intros s. rewrite run_actions_app. simpl.
      by rewrite lookup_delete_ne.
Qed.

Lemma run_actions_twice acts s :
  records (run_actions acts (run_actions acts s))
  = records (run_actions acts s).
Proof.
  apply map_eq. intros key.
  destruct (run_actions_records_lookup acts key) as [[v|] Ho].
  - by rewrite !Ho.
  - by rewrite Ho.
Qed.

(** Applying a batch a second time returns the same outcomes and leaves every
    table as the first time left it. *)
Lemma applyUpdates_twice_records db archive updates s :
  let once := applyUpdates db archive updates s in
  let twice := applyUpdates db archive updates once.2 in
  twice.1 = once.1 ∧ records twice.2 = records once.2.
Proof.
  destruct (applyUpdates_uniform db archive updates) as (outs & _ & Hu).
  simpl. rewrite !Hu. simpl. split; [done|]. apply run_actions_twice.
Qed.

(** C8.  For every path that one table and no other matches, applying the
    same collapsed set of updates a second time (the archive's files, the
    validators and the store being what they were the first time) leaves
    under the record's key (the table, and the archive url followed by the
    path) what the first time left there: the same record, with the same
    [_url] and [_origin], or no record; the outcomes returned are the same
    too. *)
Theorem reindexing_is_idempotent db archive updates s p t :
  filter (λ t, isRecordFile t p = true) (tables db) = [t] →
  let once := applyUpdates db archive updates s in
  let twice := applyUpdates db archive updates once.2 in
  twice.1 = once.1 ∧
  records twice.2 !! (name t, url archive +:+ p)
  = records once.2 !! (name t, url archive +:+ p).
Proof.
  intros _. destruct (applyUpdates_twice_records db archive updates s) as [Hr Hs].
  simpl in *. by rewrite Hr, Hs.
Qed.

Lemma reindexing_is_idempotent_witness :
  filter (λ t, isRecordFile t "/posts/b.json" = true) (tables db_open)
    = [posts_table] ∧
  let updates := collapse db_open history_a in
  let once := applyUpdates db_open archive_a updates empty_store in
  let twice := applyUpdates db_open archive_a updates once.2 in
  twice.1 = once.1 ∧
  records twice.2 !! ("posts", "dat://a/posts/b.json")
  = records once.2 !! ("posts", "dat://a/posts/b.json").
Proof.
  assert (filter (λ t, isRecordFile t "/posts/b.json" = true) (tables db_open)
          = [posts_table]) as Hone by reflexivity.
  split; [exact Hone|].
  exact (reindexing_is_idempotent db_open archive_a
           (collapse db_open history_a) empty_store "/posts/b.json"
           posts_table Hone).
Defined.

(** ** An indexing pass *)

Lemma add_trace_add_trace evs1 evs2 s :
  add_trace evs2 (add_trace evs1 s) = add_trace (evs1 ++ evs2) s.
Proof. unfold add_trace. simpl. by rewrite app_assoc. Qed.

Lemma run_actions_add_trace acts s :
  ∃ f, run_actions acts s
       = add_trace (event_of <$> acts) (set_records f s).
Proof.
  revert s. induction acts as [|a acts IH] using rev_ind; intros s.
  - exists id. destruct s. unfold add_trace, set_records. simpl.
    by rewrite app_nil_r.
  - destruct (IH s) as [f Hf]. rewrite run_actions_app, Hf, fmap_app. simpl.
    destruct a as [msg about | t k r | t k]; simpl.
    + exists f. unfold emit. by rewrite add_trace_add_trace.
    + exists (λ m, <[(t, k) := r]> (f m)). unfold emit, add_trace, set_records.
      simpl. by rewrite app_assoc.
    + exists (λ m, delete (t, k) (f m)). unfold emit, add_trace, set_records.
      simpl. by rewrite app_assoc.
Qed.

Lemma emitIndexUpdated_run archive v results s :
  emitIndexUpdated archive v results s
  = (Ok (), add_trace (omap (notification (url archive) v) (js_set results)) s).
Proof.
  unfold emitIndexUpdated, modify. f_equal.
  generalize (js_set results). intros l. revert s.
  induction l as [|o l IH]; intros s; simpl.
  - destruct s. unfold add_trace. simpl. by rewrite app_nil_r.
  - rewrite IH. unfold notification at 2, falsy.
    destruct o as [n|]; simpl; [|done].
    destruct (String.eqb n ""); [done|].
    unfold emit. by rewrite add_trace_add_trace.
Qed.

Lemma notifications_NoDup archive v results :
  NoDup (omap (notification archive v) (js_set results)).
Proof.
  pose proof (NoDup_js_set results) as Hnd. revert Hnd.
  generalize (js_set results). intros l.
  induction 1 as [|o l Ho _ IH]; simpl; [constructor|].
  destruct (notification archive v o) as [e|] eqn:He; [|done].
  constructor; [|done]. rewrite list_elem_of_omap. intros (o' & Hin & He').
  assert (o' = o) as ->; [|done].
  unfold notification in *. destruct o as [n|], o' as [n'|]; try done.
  destruct (String.eqb n ""), (String.eqb n' ""); by simplify_eq.
Qed.

Lemma notifications_elem archive v results e :
  e ∈ omap (notification archive v) (js_set results) ↔
  ∃ n, n ≠ "" ∧ Named n ∈ results ∧ e = IndexUpdated n archive v.
Proof.
  rewrite list_elem_of_omap. split.
  - intros (o & Hin & He). apply (proj1 (elem_of_js_set _ _)) in Hin.
    unfold notification in He. destruct o as [n|]; [|done].
    destruct (String.eqb_spec n "") as [|Hn]; [done|]. simplify_eq.
    by exists n.
  - intros (n & Hn & Hin & ->). exists (Named n).
    split; [by apply elem_of_js_set|]. simpl.
    by destruct (String.eqb_spec n "").
Qed.

(** What a pass does once it is past the sanity checks and finds versions to
    index. *)
Lemma indexArchive_run db archive s :
  isOpen db = true → idx db = true →
  let u := url archive in
  let remote := info_version (getInfo archive) in
  let v := indexed_version s u in
  v < remote →
  ∃ outs : list (Outcome * list Action),
    Forall2 (λ kv out,
               uniform (applyUpdate db archive kv.2) (Ok out.1) out.2 ∧
               Forall (λ a, about_url a = u +:+ path kv.2) out.2)
            (collapse db (history archive (v + 1) (remote + 1))) outs ∧
    uniform (applyUpdates db archive
               (collapse db (history archive (v + 1) (remote + 1))))
      (Ok outs.*1) (concat outs.*2) ∧
    indexArchive db archive s =
      (Ok (),
       add_trace
         ([MetaWrite u remote]
          ++ omap (notification u remote) (js_set outs.*1)
          ++ [IndexesUpdated u remote])
         (set_indexMeta
            <[u := {| version := remote;
                      isWritable := (indexMeta s !! u) ≫= isWritable |}]>
            (run_actions (concat outs.*2)
               (emit (HistoryRead u (v + 1) (remote + 1)) s)))).
Proof.
  intros Hopen Hidx u remote v Hlt.
  destruct (applyUpdates_uniform db archive
              (collapse db (history archive (v + 1) (remote + 1))))
    as (outs & Houts & Hu).
  exists outs. split; [done|]. split; [done|].
  unfold indexArchive. rewrite Hopen, Hidx. simpl.
  rewrite bind_run. unfold IDB.get, gets.
  fold (indexed_version s (url archive)). fold u v remote.
  destruct (Z.geb_spec v remote) as [?|_]; [lia|].
  rewrite bind_run. unfold scanArchiveHistoryForUpdates.
  rewrite bind_run. simpl.
  rewrite bind_run, Hu. rewrite bind_run. unfold IDB.update at 1, modify at 1.
  rewrite bind_run, emitIndexUpdated_run. unfold modify.
  rewrite run_actions_indexMeta. simpl.
  f_equal. unfold emit at 1 2. unfold set_indexMeta, add_trace. simpl.
  f_equal. by rewrite <-!app_assoc.
Qed.

Lemma indexArchive_up_to_date db archive s :
  isOpen db = true → idx db = true →
  info_version (getInfo archive) ≤ indexed_version s (url archive) →
  indexArchive db archive s = (Ok (), s).
Proof.
  intros Hopen Hidx Hle. unfold indexArchive. rewrite Hopen, Hidx. simpl.
  rewrite bind_run. unfold IDB.get, gets.
  fold (indexed_version s (url archive)).
  by destruct (Z.geb_spec (indexed_version s (url archive))
                 (info_version (getInfo archive))) as [_|?]; [|lia].
Qed.

(** On a database that is closed or has no [idx], a pass logs one line and
    returns. *)
Lemma indexArchive_unusable_store db archive s :
  isOpen db = false ∨ idx db = false →
  ∃ msg, indexArchive db archive s = (Ok (), emit (ConsoleLog msg "") s).
Proof.
  intros Hun. unfold indexArchive.
  destruct (isOpen db); simpl; [|by eexists].
  destruct Hun as [? | ->]; [done|]. by eexists.
Qed.

Lemma event_of_is_apply_event acts :
  Forall (λ e, is_apply_event e = true) (event_of <$> acts).
Proof. apply Forall_fmap, Forall_forall. by intros [| |] _. Qed.

(** C1, as amended.  On a database that is open and has its [idx], a pass on
    an archive returns at once, the store untouched, when the persisted
    version is at least the archive's version; otherwise it reads the history
    once, for the window from the persisted version plus one to the archive's
    version plus one, applies the collapsed updates of that window, writes
    the IndexMeta record with the archive's version, and emits one
    [index-updated] for each distinct table name among the results and then
    one [indexes-updated], both with the new version. *)
Theorem indexArchive_pass db archive s :
  isOpen db = true → idx db = true →
  let u := url archive in
  let remote := info_version (getInfo archive) in
  let v := indexed_version s u in
  (remote ≤ v → indexArchive db archive s = (Ok (), s)) ∧
  (v < remote →
   ∃ results s1 applied notes s',
     applyUpdates db archive
       (collapse db (history archive (v + 1) (remote + 1)))
       (emit (HistoryRead u (v + 1) (remote + 1)) s) = (Ok results, s1) ∧
     trace s1 = trace s ++ HistoryRead u (v + 1) (remote + 1) :: applied ∧
     Forall (λ e, is_apply_event e = true) applied ∧
     indexArchive db archive s = (Ok (), s') ∧
     records s' = records s1 ∧
     indexMeta s'
       = <[u := {| version := remote;
                   isWritable := (indexMeta s !! u) ≫= isWritable |}]>
           (indexMeta s) ∧
     trace s' = trace s1 ++ MetaWrite u remote :: notes
                         ++ [IndexesUpdated u remote] ∧
     NoDup notes ∧
     ∀ e, e ∈ notes ↔
          ∃ n, n ≠ "" ∧ Named n ∈ results ∧ e = IndexUpdated n u remote).
Proof.
  intros Hopen Hidx u remote v. split.
  - by apply indexArchive_up_to_date.
  - intros Hlt.
    destruct (indexArchive_run db archive s Hopen Hidx Hlt)
      as (outs & _ & Hu & Hrun).
    fold u remote v in Hu, Hrun.
    exists outs.*1, (run_actions (concat outs.*2)
                       (emit (HistoryRead u (v + 1) (remote + 1)) s)),
      (event_of <$> concat outs.*2),
      (omap (notification u remote) (js_set outs.*1)).
    eexists. split; [apply Hu|].
    split; [rewrite run_actions_trace; simpl; by rewrite <-app_assoc|].
    split; [apply event_of_is_apply_event|].
    split; [exact Hrun|]. simpl.
    split; [done|]. rewrite run_actions_indexMeta. simpl.
    split; [done|]. split; [done|].
    split; [apply notifications_NoDup|]. apply notifications_elem.
Qed.

Lemma indexArchive_pass_witness :
  isOpen db_open = true ∧ idx db_open = true ∧
  indexed_version empty_store "dat://a" < 3 ∧
  ∃ results s1 applied notes s',
    applyUpdates db_open archive_a (collapse db_open (history archive_a 1 4))
      (emit (HistoryRead "dat://a" 1 4) empty_store) = (Ok results, s1) ∧
    trace s1 = HistoryRead "dat://a" 1 4 :: applied ∧
    Forall (λ e, is_apply_event e = true) applied ∧
    indexArchive db_open archive_a empty_store = (Ok (), s') ∧
    records s' = records s1 ∧
    indexMeta s' = {[ "dat://a" := {| version := 3; isWritable := None |} ]} ∧
    trace s' = trace s1 ++ MetaWrite "dat://a" 3 :: notes
                        ++ [IndexesUpdated "dat://a" 3] ∧
    NoDup notes ∧
    ∀ e, e ∈ notes ↔
         ∃ n, n ≠ "" ∧ Named n ∈ results ∧ e = IndexUpdated n "dat://a" 3.
Proof.
  split; [reflexivity|]. split; [reflexivity|].
  assert (indexed_version empty_store "dat://a" < 3) as Hlt
    by (vm_compute; reflexivity).
  split; [exact Hlt|].
  exact (proj2 (indexArchive_pass db_open archive_a empty_store
                  eq_refl eq_refl) Hlt).
Defined.

(** C1 as stated fails: with no version indexed yet and the archive at
    version 3, a pass on a closed database reads no history, stores no
    record, writes no IndexMeta and emits nothing; it logs one line. *)
Lemma indexArchive_closed_db_skips_pass :
  indexed_version empty_store (url archive_a) < info_version (getInfo archive_a) ∧
  indexArchive db_closed archive_a empty_store
  = (Ok (), emit (ConsoleLog "indexArchive called on closed db" "") empty_store) ∧
  indexMeta (indexArchive db_closed archive_a empty_store).2 !! url archive_a
  = None.
Proof. split; [by vm_compute|]. split; reflexivity. Qed.

(** ** The rebuild coordinator *)

Lemma foldl_emit {A} (f : A → Event) (l : list A) (s : Store) :
  foldl (λ s x, emit (f x) s) s l = add_trace (f <$> l) s.
Proof.
  revert s. induction l as [|x l IH]; intros s; simpl.
  - destruct s. unfold add_trace. simpl. by rewrite app_nil_r.
  - rewrite IH. unfold emit. by rewrite add_trace_add_trace.
Qed.

Lemma clear_tables_run ts s :
  ∃ s', foldr (λ table rest, _ ← IDB.clear table; rest) (mret ()) ts s
        = (Ok (), s') ∧
        indexMeta s' = indexMeta s ∧
        ∀ n k, records s' !! (n, k)
               = if decide (n ∈ name <$> ts) then None else records s !! (n, k).
Proof.
  revert s. induction ts as [|t ts IH]; intros s; simpl.
  - exists s. by repeat split.
  - rewrite bind_run. unfold IDB.clear at 1, modify at 1.
    destruct (IH (emit (TableClear (name t))
                    (set_records (filter (λ kv, kv.1.1 ≠ name t)) s)))
      as (s' & -> & Hmeta & Hrec).
    exists s'. split; [done|]. split; [done|]. intros n k.
    rewrite Hrec. simpl. destruct (decide (n ∈ name <$> ts)) as [Hin|Hnin].
    + rewrite decide_True; [done|]. by right.
    + destruct (decide (n = name t)) as [->|Hne].
      * rewrite decide_True by by left.
        apply map_lookup_filter_None. right. intros x _. simpl. tauto.
      * rewrite decide_False.
        2:{ intros [?|?]%elem_of_cons; done. }
        destruct (records s !! (n, k)) as [x|] eqn:Hx.
        -- apply map_lookup_filter_Some. done.
        -- apply map_lookup_filter_None. by left.
Qed.

(** The two ways [resetOutdatedIndexes] runs. *)
Lemma resetOutdatedIndexes_run db s :
  (_tablesToRebuild db = [] → resetOutdatedIndexes db s = (Ok false, s)) ∧
  (_tablesToRebuild db ≠ [] →
   ∃ s', resetOutdatedIndexes db s = (Ok true, s') ∧
     (∀ t k, t ∈ tables db → records s' !! (name t, k) = None) ∧
     (∀ n k, (∀ t, t ∈ tables db → name t ≠ n) →
             records s' !! (n, k) = records s !! (n, k)) ∧
     (∀ u, indexMeta s' !! u
           = (λ m, {| version := 0; isWritable := isWritable m |})
               <$> indexMeta s !! u)).
Proof.
  unfold resetOutdatedIndexes. split.
  - intros ->. by rewrite bool_decide_eq_true_2.
  - intros Hne. rewrite bool_decide_eq_false_2.
    2:{ by intros ?%nil_length_inv. }
    destruct (clear_tables_run (tables db) s) as (s1 & Hrun & Hmeta & Hrec).
    rewrite bind_run, Hrun, bind_run. unfold modify. eexists. split; [done|].
    rewrite foldl_emit. simpl. split; [|split].
    + intros t k Hin. rewrite Hrec, decide_True; [done|].
      by apply list_elem_of_fmap_2.
    + intros n k Hn. rewrite Hrec, decide_False; [done|].
      intros (t & -> & Hin)%list_elem_of_fmap. by apply (Hn t).
    + intros u. by rewrite lookup_fmap, Hmeta.
Qed.

(** C7.  [resetOutdatedIndexes] returns [false] and leaves the store as it
    was when no table is flagged for rebuild.  Otherwise it returns [true],
    after which no table of [db.tables] has a record left (all of them, not
    only the flagged ones), the records of other stores are as before, and
    every IndexMeta record is still there, with version 0. *)
Theorem resetOutdatedIndexes_spec db s :
  (_tablesToRebuild db = [] → resetOutdatedIndexes db s = (Ok false, s)) ∧
  (_tablesToRebuild db ≠ [] →
   ∃ s', resetOutdatedIndexes db s = (Ok true, s') ∧
     (∀ t k, t ∈ tables db → records s' !! (name t, k) = None) ∧
     (∀ n k, (∀ t, t ∈ tables db → name t ≠ n) →
             records s' !! (n, k) = records s !! (n, k)) ∧
     (∀ u, indexMeta s' !! u
           = (λ m, {| version := 0; isWritable := isWritable m |})
               <$> indexMeta s !! u)).
Proof. apply resetOutdatedIndexes_run. Qed.

Lemma resetOutdatedIndexes_spec_witness :
  _tablesToRebuild db_rebuild ≠ [] ∧
  ∃ s', resetOutdatedIndexes db_rebuild store_at_5 = (Ok true, s') ∧
    (∀ t k, t ∈ tables db_rebuild → records s' !! (name t, k) = None) ∧
    (∀ n k, (∀ t, t ∈ tables db_rebuild → name t ≠ n) →
            records s' !! (n, k) = records store_at_5 !! (n, k)) ∧
    (∀ u, indexMeta s' !! u
          = (λ m, {| version := 0; isWritable := isWritable m |})
              <$> indexMeta store_at_5 !! u).
Proof.
  assert (_tablesToRebuild db_rebuild ≠ []) as Hne by discriminate.
  exact (conj Hne (proj2 (resetOutdatedIndexes_spec db_rebuild store_at_5) Hne)).
Defined.

(** ** Watching *)

(** The guard of [watchArchive]: on a handle whose [fileEvents] is set the
    call creates no stream and changes nothing but the console. *)
Lemma watchArchive_already_watched archive s i :
  fileEvents s !! handle archive = Some i →
  watchArchive archive s
  = (Ok (),
     emit (ConsoleLog
             "watchArchive() called on archive that already is being watched"
             (url archive)) s).
Proof.
  intros Hi. unfold watchArchive. rewrite bind_run. unfold watchArchive_check.
  by rewrite Hi.
Qed.

(** A call on its own is the call run to its end, with or without the
    [await]. *)
Lemma run_overlapping_single_watch archive s :
  run_overlapping [Watch archive] s = watchArchive archive s.
Proof.
  unfold run_overlapping, watchArchive, start_all, start, mbind, M_bind,
    watchArchive_check.
  destruct (fileEvents s !! handle archive); [done|].
  destruct (_loadPromise archive); simpl; done.
Qed.

Lemma run_overlapping_single_unwatch archive s :
  run_overlapping [Unwatch archive] s = unwatchArchive archive s.
Proof. done. Qed.

Lemma watchArchive_one_subscription archive s :
  one_subscription s → one_subscription (watchArchive archive s).2.
Proof.
  intros Hinv. unfold watchArchive. rewrite bind_run. unfold watchArchive_check.
  destruct (fileEvents s !! handle archive) as [i|] eqn:Hi; [done|].
  simpl. intros h. simpl. destruct (decide (h = handle archive)) as [->|Hne].
  - rewrite lookup_insert_eq. split; [by apply list_lookup_middle|].
    intros j st [Hj|[Hj Hnew]]%lookup_app_Some Hown Hopen.
    + specialize (Hinv (handle archive)). rewrite Hi in Hinv.
      rewrite (Hinv j st Hj Hown) in Hopen. done.
    + apply lookup_lt_Some in Hnew. simpl in Hnew. lia.
  - rewrite lookup_insert_ne by done. specialize (Hinv h).
    destruct (fileEvents s !! h) as [i|].
    + destruct Hinv as [Hi' Huniq]. split; [by apply lookup_app_l_Some|].
      intros j st [Hj|[Hj Hnew]]%lookup_app_Some Hown Hopen; [by eauto|].
      apply list_lookup_singleton_Some in Hnew as [_ <-]. done.
    + intros j st [Hj|[Hj Hnew]]%lookup_app_Some Hown; [by eauto|].
      apply list_lookup_singleton_Some in Hnew as [_ <-]. done.
Qed.

Lemma unwatchArchive_one_subscription archive s :
  one_subscription s → one_subscription (unwatchArchive archive s).2.
Proof.
  intros Hinv. unfold unwatchArchive, modify. simpl.
  pose proof (Hinv (handle archive)) as Ha.
  destruct (fileEvents s !! handle archive) as [i|] eqn:Hi; [|done].
  destruct Ha as [Hsi Huniq].
  intros h. simpl. destruct (decide (h = handle archive)) as [->|Hne].
  - rewrite lookup_delete_eq. intros j st Hj Hown.
    destruct (decide (i = j)) as [<-|Hij].
    + rewrite list_lookup_alter_eq, Hsi in Hj. by simplify_eq/=.
    + rewrite list_lookup_alter_ne in Hj by done.
      destruct (closed st) eqn:Hc; [done|]. destruct Hij. symmetry. eauto.
  - rewrite lookup_delete_ne by done. specialize (Hinv h).
    assert (∀ j st, alter close_stream i (streams s) !! j = Some st →
                    owner st = h → streams s !! j = Some st) as Hold.
    { intros j st Hj Hown. destruct (decide (i = j)) as [<-|Hij].
      - rewrite list_lookup_alter_eq, Hsi in Hj. by simplify_eq/=.
      - by rewrite list_lookup_alter_ne in Hj. }
    destruct (fileEvents s !! h) as [i'|].
    + destruct Hinv as [Hi' Huniq']. split; [|by eauto].
      rewrite list_lookup_alter_ne; [done|].
      intros ->. rewrite Hsi in Hi'. by simplify_eq.
    + by eauto.
Qed.

(** Calls that do not overlap keep every handle at one subscription at
    most. *)
Lemma run_in_turn_one_subscription cs s :
  one_subscription s → one_subscription (run_in_turn cs s).2.
Proof.
  revert s. induction cs as [|c cs IH]; intros s Hinv; [done|].
  cbn [run_in_turn]. rewrite bind_run.
  assert (∃ s1, run_overlapping [c] s = (Ok (), s1) ∧ one_subscription s1)
    as (s1 & -> & Hs1).
  { destruct c as [archive|archive].
    - rewrite run_overlapping_single_watch.
      pose proof (watchArchive_one_subscription archive s Hinv) as H1.
      unfold watchArchive in *. rewrite bind_run in *.
      unfold watchArchive_check in *.
      destruct (fileEvents s !! handle archive); by eexists.
    - rewrite run_overlapping_single_unwatch.
      pose proof (unwatchArchive_one_subscription archive s Hinv).
      by eexists. }
  by apply IH.
Qed.

(** Without a [_loadPromise] there is no [await]: calls made in one stretch
    are calls made in turn. *)
Lemma run_overlapping_without_loadPromise cs s :
  Forall (λ c, match c with
               | Watch archive => _loadPromise archive = false
               | Unwatch _ => True
               end) cs →
  run_overlapping cs s = run_in_turn cs s.
Proof.
  intros Hcs.
  assert (∃ s', start_all cs s = (Ok [], s') ∧ run_in_turn cs s = (Ok (), s'))
    as (s' & Hstart & ->).
  { revert s. induction Hcs as [|c cs Hc _ IH]; intros s; [by eexists|].
    assert (∃ s1, start c s = (Ok None, s1)
                  ∧ run_overlapping [c] s = (Ok (), s1)) as (s1 & H1 & H2).
    { destruct c as [archive|archive].
      - rewrite run_overlapping_single_watch.
        unfold start, watchArchive. rewrite !bind_run.
        unfold watchArchive_check.
        destruct (fileEvents s !! handle archive); [by eexists|].
        rewrite Hc. by eexists.
      - by eexists. }
    destruct (IH s1) as (s' & H3 & H4). exists s'.
    cbn [start_all run_in_turn]. by rewrite !bind_run, H1, H2, bind_run, H3. }
  unfold run_overlapping. by rewrite bind_run, Hstart.
Qed.

Lemma filter_at_most_one {A} (P : A → Prop) `{∀ x, Decision (P x)} (l : list A) :
  (∀ j1 j2 x1 x2, l !! j1 = Some x1 → l !! j2 = Some x2 →
                  P x1 → P x2 → j1 = j2) →
  (length (filter P l) ≤ 1)%nat.
Proof.
  induction l as [|x l IH]; intros Huniq; simpl; [lia|].
  rewrite filter_cons. destruct (decide (P x)) as [Hx|Hx].
  - assert (filter P l = []) as ->; [|simpl; lia].
    apply elem_of_nil_inv. intros y [Hy Hin]%list_elem_of_filter.
    apply list_elem_of_lookup_1 in Hin as [j Hj].
    by pose proof (Huniq 0%nat (S j) x y eq_refl Hj Hx Hy).
  - apply IH. intros j1 j2 x1 x2 H1 H2 Hp1 Hp2.
    by pose proof (Huniq (S j1) (S j2) x1 x2 H1 H2 Hp1 Hp2) as [= ->].
Qed.

Lemma one_subscription_active s h :
  one_subscription s → (length (active s h) ≤ 1)%nat.
Proof.
  intros Hinv. unfold active. apply filter_at_most_one.
  intros j1 j2 st1 st2 H1 H2 [Ho1 Hc1] [Ho2 Hc2]. specialize (Hinv h).
  destruct (fileEvents s !! h) as [i|].
  - destruct Hinv as [_ Huniq]. by rewrite (Huniq j1 st1), (Huniq j2 st2).
  - rewrite (Hinv j1 st1 H1 Ho1) in Hc1. done.
Qed.

Lemma one_subscription_empty : one_subscription empty_store.
Proof. intros h. simpl. rewrite lookup_empty. by intros [|?] ?. Qed.

(** C10 fails on the code when two calls of [watchArchive] on one handle
    overlap.  The handle has a [_loadPromise], so each call checks
    [archive.fileEvents], finds it unset, and waits; then each creates a
    stream.  The handle ends with two open streams; [fileEvents] holds the
    second, and [unwatchArchive] closes that one only, so that the first
    stays open with no field left that refers to it. *)
Theorem watchArchive_overlapping_calls_subscribe_twice :
  _loadPromise archive_a = true ∧
  one_subscription empty_store ∧
  let s := (run_overlapping [Watch archive_a; Watch archive_a] empty_store).2 in
  active s (handle archive_a)
    = [{| owner := 0; closed := false |}; {| owner := 0; closed := false |}] ∧
  fileEvents s !! handle archive_a = Some 1%nat ∧
  let s' := (unwatchArchive archive_a s).2 in
  fileEvents s' !! handle archive_a = None ∧
  active s' (handle archive_a) = [{| owner := 0; closed := false |}].
Proof.
  split; [done|]. split; [apply one_subscription_empty|].
  by vm_compute.
Qed.

(** ** The meta store across the operations *)

Lemma indexArchive_returns db archive s : (indexArchive db archive s).1 = Ok ().
Proof.
  destruct (isOpen db) eqn:Hopen, (idx db) eqn:Hidx.
  2-4: by (edestruct (indexArchive_unusable_store db archive s) as [msg ->];
           [rewrite ?Hopen, ?Hidx; auto|]).
  destruct (Z.lt_ge_cases (indexed_version s (url archive))
              (info_version (getInfo archive))) as [Hlt|Hge].
  - by destruct (indexArchive_run db archive s Hopen Hidx Hlt)
      as (outs & _ & _ & ->).
  - by rewrite indexArchive_up_to_date.
Qed.

(** The one change a pass makes to the meta store. *)
Lemma indexArchive_indexMeta db archive s :
  let u := url archive in
  let remote := info_version (getInfo archive) in
  indexMeta (indexArchive db archive s).2
  = if decide (isOpen db = true ∧ idx db = true ∧ indexed_version s u < remote)
    then <[u := {| version := remote;
                   isWritable := (indexMeta s !! u) ≫= isWritable |}]>
           (indexMeta s)
    else indexMeta s.
Proof.
  intros u remote. destruct (decide _) as [(Hopen & Hidx & Hlt)|Hno].
  - destruct (indexArchive_run db archive s Hopen Hidx Hlt)
      as (outs & _ & _ & ->). simpl. by rewrite run_actions_indexMeta.
  - destruct (isOpen db) eqn:Hopen, (idx db) eqn:Hidx.
    2-4: by (edestruct (indexArchive_unusable_store db archive s) as [msg ->];
             [rewrite ?Hopen, ?Hidx; auto|]).
    rewrite indexArchive_up_to_date; [done..|].
    apply Z.le_ngt. intros ?. by apply Hno.
Qed.

Lemma watchArchive_indexMeta archive s :
  (watchArchive archive s).1 = Ok () ∧
  indexMeta (watchArchive archive s).2 = indexMeta s.
Proof.
  unfold watchArchive. rewrite bind_run. unfold watchArchive_check.
  by destruct (fileEvents s !! handle archive).
Qed.

Lemma unwatchArchive_indexMeta archive s :
  indexMeta (unwatchArchive archive s).2 = indexMeta s.
Proof.
  unfold unwatchArchive, modify. simpl.
  by destruct (fileEvents s !! handle archive).
Qed.

Lemma start_indexMeta c s :
  (∃ q, (start c s).1 = Ok q) ∧ indexMeta (start c s).2 = indexMeta s.
Proof.
  destruct c as [archive|archive]; unfold start.
  - rewrite bind_run. unfold watchArchive_check.
    destruct (fileEvents s !! handle archive); [by eauto|].
    destruct (_loadPromise archive); by eauto.
  - rewrite bind_run. split; [by eauto|]. apply unwatchArchive_indexMeta.
Qed.

Lemma addArchive_indexMeta db archive s :
  let u := url archive in
  let remote := info_version (getInfo archive) in
  let fresh := {| version := 0; isWritable := Some (isOwner (getInfo archive)) |} in
  indexMeta (addArchive db archive s).2
  = if decide (isOpen db = true ∧ idx db = true ∧ 0 < remote)
    then <[u := {| version := remote;
                   isWritable := Some (isOwner (getInfo archive)) |}]>
           (indexMeta s)
    else <[u := fresh]> (indexMeta s).
Proof.
  intros u remote fresh. unfold addArchive. rewrite bind_run.
  unfold IDB.put_meta at 1, modify at 1. rewrite bind_run.
  set (s0 := emit _ (set_indexMeta _ s)).
  pose proof (indexArchive_returns db archive s0) as Hret.
  pose proof (indexArchive_indexMeta db archive s0) as Hmeta.
  destruct (indexArchive db archive s0) as [r s1]. simpl in Hret, Hmeta.
  subst r. rewrite (proj2 (start_indexMeta (Watch archive) s1)), Hmeta.
  assert (indexed_version s0 (url archive) = 0) as ->.
  { unfold indexed_version, s0. simpl. by rewrite lookup_insert_eq. }
  fold u remote.
  destruct (decide (isOpen db = true ∧ idx db = true ∧ 0 < remote));
    unfold s0; simpl; [|done].
  by rewrite lookup_insert_eq, insert_insert_eq.
Qed.

Lemma promise_all_uniform_any {A} (tasks : list (M A)) :
  Forall (λ m, ∃ r acts, uniform m r acts) tasks →
  ∃ r acts, uniform (promise_all tasks) r acts.
Proof.
  induction 1 as [|m tasks (r & acts & Hm) _ (rs & acts' & IH)].
  - by exists (Ok []), [].
  - eexists _, (acts ++ acts'). intros s. simpl.
    by rewrite Hm, IH, run_actions_app.
Qed.

Lemma removeArchive_indexMeta db archive s :
  indexMeta (removeArchive db archive s).2 = delete (url archive) (indexMeta s)
  ∨ indexMeta (removeArchive db archive s).2 = indexMeta s.
Proof.
  unfold removeArchive, unindexArchive. rewrite !bind_run.
  destruct (promise_all_uniform_any
              (map (λ m, IDB.delete db m.1 m.2)
                 (scanArchiveForRecords db archive))) as (r & acts & ->).
  { apply Forall_fmap, Forall_forall. intros [t k] _. simpl.
    unfold IDB.delete. destruct (idbFault db t k).
    - by exists (Throw StoreError), [].
    - by exists (Ok ()), [Delete t k]. }
  destruct r as [?|e]; simpl.
  - left. destruct (fileEvents _ !! _); simpl;
      by rewrite run_actions_indexMeta.
  - right. apply run_actions_indexMeta.
Qed.

Lemma resetOutdatedIndexes_indexMeta db s u :
  indexMeta (resetOutdatedIndexes db s).2 !! u
  = if decide (_tablesToRebuild db = []) then indexMeta s !! u
    else (λ m, {| version := 0; isWritable := isWritable m |})
           <$> indexMeta s !! u.
Proof.
  destruct (decide _) as [Hnil|Hne].
  - by rewrite (proj1 (resetOutdatedIndexes_run db s) Hnil).
  - destruct (proj2 (resetOutdatedIndexes_run db s) Hne)
      as (s' & -> & _ & _ & Hmeta). apply Hmeta.
Qed.

(** The order of a pass: whatever it reads, stores, deletes or logs comes
    first; the write of the meta record, if there is one, comes after all of
    it, and only notifications follow. *)
Lemma indexArchive_trace db archive s :
  ∃ before after,
    trace (indexArchive db archive s).2 = trace s ++ before ++ after ∧
    Forall (λ e, is_meta_write e = false ∧ is_notification e = false) before ∧
    (after = [] ∨
     ∃ notes, after = MetaWrite (url archive) (info_version (getInfo archive))
                        :: notes ∧
              Forall (λ e, is_notification e = true) notes).
Proof.
  destruct (isOpen db) eqn:Hopen, (idx db) eqn:Hidx.
  2-4: by (edestruct (indexArchive_unusable_store db archive s) as [msg ->];
           [rewrite ?Hopen, ?Hidx; auto|];
           exists [ConsoleLog msg ""], []; split; [done|];
           split; [by repeat constructor|by left]).
  destruct (Z.lt_ge_cases (indexed_version s (url archive))
              (info_version (getInfo archive))) as [Hlt|Hge].
  - destruct (indexArchive_run db archive s Hopen Hidx Hlt)
      as (outs & _ & _ & ->). simpl.
    eexists (HistoryRead _ _ _ :: (event_of <$> concat outs.*2)), _.
    split; [|split].
    + rewrite run_actions_trace. simpl. rewrite <-!app_assoc. simpl. done.
    + constructor; [done|]. apply Forall_fmap, Forall_forall.
      by intros [| |] _.
    + right. eexists. split; [done|]. apply Forall_app. split.
      * apply Forall_forall. intros e (o & _ & He)%list_elem_of_omap.
        unfold notification in He. destruct o as [n|]; [|done].
        destruct (String.eqb n ""); by simplify_eq.
      * by repeat constructor.
  - rewrite indexArchive_up_to_date by done. exists [], [].
    split; [by rewrite !app_nil_r|]. split; [constructor|by left].
Qed.

Lemma perform_AddArchive db archive s :
  (perform db (AddArchive archive) s).2 = (addArchive db archive s).2.
Proof.
  cbn [perform]. rewrite bind_run.
  by destruct (addArchive db archive s) as [[q|e] s'].
Qed.

(** C2, as amended.  Across the operations of the indexer:
    - an IndexMeta record keeps its place and its version does not decrease,
      unless the operation is the rebuild reset, or [addArchive] or
      [removeArchive] for the record's own archive;
    - the reset leaves every record in place, with version 0 when a table is
      flagged for rebuild and unchanged otherwise;
    - [addArchive] leaves the record of its archive at version 0 (the fresh
      record it writes) or at the archive's version (when its indexing pass
      ran); [removeArchive] deletes the record or leaves it;
    - after an indexing pass on a usable database, for an archive whose
      version is not behind the persisted one, the persisted version is the
      archive's version read by the pass;
    - a pass writes the meta record at most once, after everything it reads,
      stores, deletes and logs, with only its notifications after it. *)
Theorem indexed_version_never_decreases db :
  (∀ op s u m,
     indexMeta s !! u = Some m → rewrites_record op u = false →
     ∃ m', indexMeta (perform db op s).2 !! u = Some m' ∧
           version m ≤ version m') ∧
  (∀ s u m,
     indexMeta s !! u = Some m →
     ∃ m', indexMeta (perform db ResetOutdatedIndexes s).2 !! u = Some m' ∧
           version m' = if decide (_tablesToRebuild db = []) then version m
                        else 0) ∧
  (∀ archive s,
     ∃ m', indexMeta (perform db (AddArchive archive) s).2 !! url archive
           = Some m' ∧
           (version m' = 0 ∨ version m' = info_version (getInfo archive))) ∧
  (∀ archive s,
     let after := indexMeta (perform db (RemoveArchive archive) s).2 in
     after !! url archive = None ∨ after = indexMeta s) ∧
  (∀ archive s,
     isOpen db = true → idx db = true →
     indexed_version s (url archive) ≤ info_version (getInfo archive) →
     (perform db (IndexArchive archive) s).1 = Ok () ∧
     indexed_version (perform db (IndexArchive archive) s).2 (url archive)
     = info_version (getInfo archive)) ∧
  (∀ archive s,
     ∃ before after,
       trace (perform db (IndexArchive archive) s).2
       = trace s ++ before ++ after ∧
       Forall (λ e, is_meta_write e = false ∧ is_notification e = false)
         before ∧
       (after = [] ∨
        ∃ notes, after = MetaWrite (url archive)
                           (info_version (getInfo archive)) :: notes ∧
                 Forall (λ e, is_notification e = true) notes)).
Proof.
  repeat split.
  - intros op s u m Hm Hop. destruct op as [a|a|a| |a|a]; cbn [perform rewrites_record] in *.
    + rewrite indexArchive_indexMeta. destruct (decide _) as [(_ & _ & Hlt)|_].
      * destruct (decide (url a = u)) as [<-|Hne].
        -- rewrite lookup_insert_eq. eexists. split; [done|]. simpl.
           unfold indexed_version in Hlt. rewrite Hm in Hlt. simpl in Hlt. lia.
        -- rewrite lookup_insert_ne by done. by exists m.
      * by exists m.
    + apply String.eqb_neq in Hop.
      pose proof (perform_AddArchive db a s) as Hp. cbn [perform] in Hp.
      rewrite Hp, addArchive_indexMeta.
      exists m. split; [|done].
      destruct (decide _); by rewrite lookup_insert_ne.
    + apply String.eqb_neq in Hop.
      destruct (removeArchive_indexMeta db a s) as [-> | ->].
      * exists m. by rewrite lookup_delete_ne.
      * by exists m.
    + done.
    + rewrite (proj2 (watchArchive_indexMeta a s)). by exists m.
    + rewrite unwatchArchive_indexMeta. by exists m.
  - intros s u m Hm. cbn [perform]. rewrite bind_run.
    pose proof (resetOutdatedIndexes_indexMeta db s u) as Hreset.
    assert ((resetOutdatedIndexes db s).1 = Ok (negb (bool_decide
              (length (_tablesToRebuild db) = 0%nat)))) as Hret.
    { destruct (decide (_tablesToRebuild db = [])) as [Hnil|Hne].
      - rewrite (proj1 (resetOutdatedIndexes_run db s) Hnil), Hnil. done.
      - destruct (proj2 (resetOutdatedIndexes_run db s) Hne) as (s' & -> & _).
        simpl. rewrite bool_decide_eq_false_2; [done|].
        by intros ?%nil_length_inv. }
    destruct (resetOutdatedIndexes db s) as [r s']. simpl in *. subst r.
    simpl. rewrite Hreset, Hm. destruct (decide _); by eexists.
  - intros a s. rewrite perform_AddArchive, addArchive_indexMeta.
    destruct (decide _); rewrite lookup_insert_eq; eexists; (split; [done|]);
      simpl; auto.
  - intros a s. cbn [perform].
    destruct (removeArchive_indexMeta db a s) as [-> | ->]; [left|by right].
    by rewrite lookup_delete_eq.
  - apply indexArchive_returns.
  - cbn [perform]. unfold indexed_version at 1. rewrite indexArchive_indexMeta.
    destruct (decide _) as [_|Hno].
    + by rewrite lookup_insert_eq.
    + fold (indexed_version s (url archive)).
      assert (¬ indexed_version s (url archive) < info_version (getInfo archive))
        by (intros ?; by apply Hno). lia.
  - intros a s. apply indexArchive_trace.
Qed.

Lemma indexed_version_never_decreases_witness :
  indexMeta store_at_5 !! "dat://b" = None ∧
  (∃ m', indexMeta (perform db_open (IndexArchive archive_a) store_at_5).2
           !! "dat://a" = Some m' ∧ 5 ≤ version m') ∧
  indexed_version (perform db_open (IndexArchive archive_a) empty_store).2
    "dat://a" = 3.
Proof.
  split; [reflexivity|]. split.
  - exact (proj1 (indexed_version_never_decreases db_open)
             (IndexArchive archive_a) store_at_5 "dat://a"
             {| version := 5; isWritable := Some true |} eq_refl eq_refl).
  - refine (proj2 (proj1 (proj2 (proj2 (proj2 (proj2
             (indexed_version_never_decreases db_open)))))
             archive_a empty_store eq_refl eq_refl _)).
    vm_compute. discriminate.
Defined.

(** C2 as stated fails: [addArchive] writes a fresh record at version 0 over
    the record of an archive that was indexed up to version 5.  On a closed
    database the pass that follows returns at once and the version stays 0;
    through a handle that reports version 2 the pass ends at version 2.  And
    a pass of [indexArchive] for a handle that reports version 2 returns with
    the persisted version still 5, not 2. *)
Lemma addArchive_resets_indexed_version :
  indexMeta store_at_5 !! "dat://a"
    = Some {| version := 5; isWritable := Some true |} ∧
  indexMeta (perform db_closed (AddArchive archive_a) store_at_5).2 !! "dat://a"
    = Some {| version := 0; isWritable := Some true |} ∧
  indexMeta (perform db_open (AddArchive archive_a_behind) store_at_5).2
    !! "dat://a"
    = Some {| version := 2; isWritable := Some true |} ∧
  perform db_open (IndexArchive archive_a_behind) store_at_5
    = (Ok (), store_at_5).
Proof. repeat split; vm_compute; reflexivity. Qed.

(** ** Record errors *)





Lemma scanArchiveHistoryForUpdates_latest_witness :
  ∃ updates,
    scanArchiveHistoryForUpdates db_open archive_a 1 4 empty_store
      = (Ok updates, emit (HistoryRead "dat://a" 1 4) empty_store) ∧
    assoc_get "/posts/b.json" updates
      = Some {| path := "/posts/b.json"; type := "put"; at_version := 3 |} ∧
    assoc_get "/notes.txt" updates = None.
Proof.
  destruct (scanArchiveHistoryForUpdates_latest db_open archive_a 1 4
              empty_store) as (updates & Hrun & _ & _ & Hlast).
  exists updates. split; [exact Hrun|]. split.
  - rewrite (Hlast "/posts/b.json"). reflexivity.
  - rewrite (Hlast "/notes.txt"). reflexivity.
Defined.

(** The batch of the example, run: the rejected file leaves no record, the
    other is stored under its url with its [_url] and [_origin]. *)
Example applyUpdates_example :
  let run := applyUpdates db_open archive_a (collapse db_open history_a)
               empty_store in
  run.1 = Ok [NotIndexed; Named "posts"] ∧
  records run.2 !! ("posts", "dat://a/posts/a.json") = None ∧
  records run.2 !! ("posts", "dat://a/posts/b.json")
  = Some (JObj [("title", JStr "hello");
                ("_url", JStr "dat://a/posts/b.json");
                ("_origin", JStr "dat://a")]).
Proof. repeat split; vm_compute; reflexivity. Qed.

End indexer_facts.

(* ===================================================================== *)
(** * Further properties of the indexer *)
(* ===================================================================== *)

Section indexer_properties.
Import JS Indexer Examples.

(** ** One file: the table chosen and the record stored *)

(** A record that went through the two assignments and has a key is an
    object or an array; it carries the two attributes, and its other fields
    are as they were. *)
Lemma stamped_fields (r0 r1 r2 : jsval) (fu o k : string) :
  set r0 "_url" (JStr fu) = Ok r1 →
  set r1 "_origin" (JStr o) = Ok r2 →
  IDB.key_of r2 = Ok k →
  get r2 "_url" = Ok (JStr fu) ∧ get r2 "_origin" = Ok (JStr o) ∧
  ∀ f, f ≠ "_url" → f ≠ "_origin" → get r2 f = get r0 f.
Proof.
  assert (∀ {A} (es : list A) i, idx_get es i "_url" = None) as Hurl.
  { intros A es i. apply idx_get_named. not_a_digit. }
  assert (∀ {A} (es : list A) i, idx_get es i "_origin" = None) as Horigin.
  { intros A es i. apply idx_get_named. not_a_digit. }
  rewrite set_url, set_origin. unfold IDB.key_of. unbind.
  destruct r0 as [| |b|n|str|es nm|ps]; simpl; intros H1 H2 Hk; simplify_eq;
    simpl in Hk; try done.
  - by rewrite Hurl in Hk.
  - simpl. rewrite Hurl, Horigin, !assoc_get_set. split; [done|]. split; [done|].
    intros f Hf1 Hf2. rewrite !assoc_get_set.
    destruct (String.eqb_spec f "_origin") as [?|_]; [done|].
    by destruct (String.eqb_spec f "_url") as [?|_].
  - simpl. rewrite !assoc_get_set. split; [done|]. split; [done|].
    intros f Hf1 Hf2. rewrite !assoc_get_set.
    destruct (String.eqb_spec f "_origin") as [?|_]; [done|].
    by destruct (String.eqb_spec f "_url") as [?|_].
Qed.

Lemma stamped_object (r0 r1 r2 : jsval) (fu o k : string) :
  set r0 "_url" (JStr fu) = Ok r1 →
  set r1 "_origin" (JStr o) = Ok r2 →
  IDB.key_of r2 = Ok k →
  (∃ ps, r0 = JObj ps) ∨ (∃ es nm, r0 = JArr es nm).
Proof.
  assert (∀ {A} (es : list A) i, idx_get es i "_url" = None) as Hurl.
  { intros A es i. apply idx_get_named. not_a_digit. }
  rewrite set_url, set_origin. unfold IDB.key_of. unbind.
  destruct r0 as [| |b|n|str|es nm|ps]; simpl; intros H1 H2 Hk; simplify_eq;
    simpl in Hk; try done; eauto.
  by rewrite Hurl in Hk.
Qed.

Lemma first_match_unique p ts t1 t2 :
  first_match p ts t1 → first_match p ts t2 → t1 = t2.
Proof.
  intros (b1 & a1 & -> & Hb1 & Ht1) (b2 & a2 & Heq & Hb2 & Ht2).
  revert b2 Heq Hb2. induction Hb1 as [|t b1 Ht _ IH]; intros b2 Heq Hb2.
  - destruct Hb2 as [|t' b2 Ht' _]; simpl in Heq; simplify_eq; [done|].
    congruence.
  - destruct Hb2 as [|t' b2 Ht' Hb2]; simpl in Heq; simplify_eq.
    + congruence.
    + by eapply IH.
Qed.

Lemma first_match_cons_skip p t ts t' :
  isRecordFile t p = false → first_match p ts t' → first_match p (t :: ts) t'.
Proof.
  intros Ht (b & a & -> & Hb & Ht'). exists (t :: b), a.
  split; [done|]. split; [by constructor|done].
Qed.

Lemma indexOnFirstMatch_Named db archive p fu record ts s n s' :
  indexOnFirstMatch db archive p fu record ts s = (Ok (Named n), s') →
  ∃ t r0 stored,
    first_match p ts t ∧ name t = n ∧
    match validator t with
    | Some validate => validate record
    | None => Ok record
    end = Ok r0 ∧
    ((∃ ps, r0 = JObj ps) ∨ (∃ es nm, r0 = JArr es nm)) ∧
    get stored "_url" = Ok (JStr fu) ∧
    get stored "_origin" = Ok (JStr (url archive)) ∧
    (∀ f, f ≠ "_url" → f ≠ "_origin" → get stored f = get r0 f) ∧
    s' = act (Put n fu stored) s.
Proof.
  induction ts as [|t ts IH]; simpl; [done|].
  destruct (isRecordFile t p) eqn:Hrec.
  - clear IH. rewrite bind_run. unfold lift at 1.
    destruct (match validator t with
              | Some validate => validate record
              | None => Ok record
              end) as [r0|e] eqn:Hval; [|done].
    rewrite bind_run. unfold lift at 1.
    destruct (set r0 "_url" (JStr fu)) as [r1|e] eqn:H1; [|done].
    rewrite bind_run. unfold lift at 1.
    destruct (set r1 "_origin" (JStr (url archive))) as [r2|e] eqn:H2; [|done].
    rewrite bind_run. unfold IDB.put. rewrite bind_run. unfold lift at 1.
    destruct (IDB.key_of r2) as [k|e] eqn:Hk; [|done].
    pose proof (key_of_stamped _ _ _ _ _ _ H1 H2 Hk) as ->.
    destruct (stamped_fields _ _ _ _ _ _ H1 H2 Hk) as (Hu & Ho & Hrest).
    pose proof (stamped_object _ _ _ _ _ _ H1 H2 Hk) as Hobj.
    destruct (idbFault db (name t) fu); [done|].
    unfold modify. simpl. intros [= <- <-].
    exists t, r0, r2. split; [by exists [], ts|]. by repeat split.
  - intros (t' & r0 & stored & Hfirst & Hrest)%IH.
    exists t', r0, stored. split; [by apply first_match_cons_skip|done].
Qed.

Lemma readAndIndexFile_Named db archive p s n s' :
  readAndIndexFile db archive p s = (Ok (Named n), s') →
  ∃ record,
    readFile archive p = Ok record ∧
    indexOnFirstMatch db archive p (url archive +:+ p) record (tables db) s
    = (Ok (Named n), s').
Proof.
  unfold readAndIndexFile, try_catch, readAndIndexFile_try.
  rewrite bind_run. unfold lift at 1.
  destruct (readFile archive p) as [record|e]; [|done].
  destruct (indexOnFirstMatch _ _ _ _ _ _ s) as [[o|e] s1] eqn:Hrun; [|done].
  intros [= -> ->]. by exists record.
Qed.

Lemma readAndIndexFile_stored db archive p s n s' :
  readAndIndexFile db archive p s = (Ok (Named n), s') →
  ∃ t record validated stored,
    first_match p (tables db) t ∧ name t = n ∧
    readFile archive p = Ok record ∧
    match validator t with
    | Some validate => validate record
    | None => Ok record
    end = Ok validated ∧
    ((∃ ps, validated = JObj ps) ∨ (∃ es nm, validated = JArr es nm)) ∧
    get stored "_url" = Ok (JStr (url archive +:+ p)) ∧
    get stored "_origin" = Ok (JStr (url archive)) ∧
    (∀ f, f ≠ "_url" → f ≠ "_origin" → get stored f = get validated f) ∧
    s' = act (Put n (url archive +:+ p) stored) s.
Proof.
  intros (record & Hread & Hrun)%readAndIndexFile_Named.
  apply indexOnFirstMatch_Named in Hrun
    as (t & r0 & stored & Hfirst & Hn & Hval & Hobj & Hu & Ho & Hrest & Hs).
  by exists t, record, r0, stored.
Qed.






(** X1.  When [readAndIndexFile] returns a table name, the table is the first
    of [db.tables] whose [isRecordFile] takes the path, whatever the tables
    after it say; the file was read and that table's validator, if it has
    one, returned; and the one change to the store is that table's record
    under the archive url followed by the path.  The record stored has that
    url as its [_url] and the archive url as its [_origin], and every other
    field as the validator (or the file) gave it. *)
Theorem readAndIndexFile_stores_in_first_match db archive p s n s' :
  readAndIndexFile db archive p s = (Ok (Named n), s') →
  ∃ t record validated stored,
    first_match p (tables db) t ∧ name t = n ∧
    readFile archive p = Ok record ∧
    match validator t with
    | Some validate => validate record
    | None => Ok record
    end = Ok validated ∧
    get stored "_url" = Ok (JStr (url archive +:+ p)) ∧
    get stored "_origin" = Ok (JStr (url archive)) ∧
    (∀ f, f ≠ "_url" → f ≠ "_origin" → get stored f = get validated f) ∧
    s' = act (Put n (url archive +:+ p) stored) s.
Proof.
  intros (t & record & validated & stored & ? & ? & ? & ? & _ & ?)
    %readAndIndexFile_stored.
  by exists t, record, validated, stored.
Qed.

Lemma readAndIndexFile_stores_in_first_match_witness :
  ∃ t record validated stored,
    first_match "/posts/b.json" (tables db_open) t ∧ name t = "posts" ∧
    readFile archive_a "/posts/b.json" = Ok record ∧
    match validator t with
    | Some validate => validate record
    | None => Ok record
    end = Ok validated ∧
    get stored "_url" = Ok (JStr "dat://a/posts/b.json") ∧
    get stored "_origin" = Ok (JStr "dat://a") ∧
    (∀ f, f ≠ "_url" → f ≠ "_origin" → get stored f = get validated f) ∧
    (readAndIndexFile db_open archive_a "/posts/b.json" empty_store).2
    = act (Put "posts" "dat://a/posts/b.json" stored) empty_store.
Proof.
  exact (readAndIndexFile_stores_in_first_match db_open archive_a
           "/posts/b.json" empty_store "posts" _ eq_refl).
Defined.

Lemma unindexOnFirstMatch_Named db p fu ts s n s' :
  unindexOnFirstMatch db p fu ts s = (Ok (Named n), s') →
  ∃ t, first_match p ts t ∧ name t = n ∧ s' = act (Delete n fu) s.
Proof.
  induction ts as [|t ts IH]; simpl; [done|].
  destruct (isRecordFile t p) eqn:Hrec.
  - clear IH. rewrite bind_run. unfold IDB.delete.
    destruct (idbFault db (name t) fu); [done|].
    unfold modify. simpl. intros [= <- <-].
    exists t. split; [by exists [], ts|done].
  - intros (t' & Hfirst & Hrest)%IH.
    exists t'. split; [by apply first_match_cons_skip|done].
Qed.

Lemma unindexFile_Named db archive p s n s' :
  unindexFile db archive p s = (Ok (Named n), s') →
  unindexOnFirstMatch db p (url archive +:+ p) (tables db) s
  = (Ok (Named n), s').
Proof.
  unfold unindexFile, try_catch.
  destruct (unindexOnFirstMatch _ _ _ _ s) as [[o|e] s1]; [|done].
  by intros [= -> ->].
Qed.

(** X2.  Indexing a file and then unindexing it: when [readAndIndexFile]
    stored the file's record in a table and [unindexFile] for the same path
    then returns a table name, it is the name of that table, and the tables
    hold what they held before the file was indexed, without a record under
    the file's url in that table. *)
Theorem unindexFile_undoes_readAndIndexFile db archive p s n s1 n' s2 :
  readAndIndexFile db archive p s = (Ok (Named n), s1) →
  unindexFile db archive p s1 = (Ok (Named n'), s2) →
  n' = n ∧
  records s2 = delete (n, url archive +:+ p) (records s) ∧
  records s2 !! (n, url archive +:+ p) = None.
Proof.
  intros (t & record & validated & stored & Hfirst & Hn & _ & _ & _ & _ & _ & _ & ->)
    %readAndIndexFile_stored
    (t' & Hfirst' & Hn' & ->)%unindexFile_Named%unindexOnFirstMatch_Named.
  rewrite (first_match_unique _ _ _ _ Hfirst' Hfirst) in Hn'.
  assert (n' = n) as -> by congruence.
  split; [done|]. simpl. rewrite delete_insert_eq. split; [done|].
  by rewrite lookup_delete_eq.
Qed.

Lemma unindexFile_undoes_readAndIndexFile_witness :
  let s1 := (readAndIndexFile db_open archive_a "/posts/b.json" empty_store).2 in
  let s2 := (unindexFile db_open archive_a "/posts/b.json" s1).2 in
  records s1 !! ("posts", "dat://a/posts/b.json")
  = Some (JObj [("title", JStr "hello");
                ("_url", JStr "dat://a/posts/b.json");
                ("_origin", JStr "dat://a")]) ∧
  "posts" = "posts" ∧
  records s2 = delete ("posts", "dat://a/posts/b.json") (records empty_store) ∧
  records s2 !! ("posts", "dat://a/posts/b.json") = None.
Proof.
  split; [vm_compute; reflexivity|].
  exact (unindexFile_undoes_readAndIndexFile db_open archive_a "/posts/b.json"
           empty_store "posts" _ "posts" _ eq_refl eq_refl).
Defined.

(** X3.  A file whose content is no object and no array ([null], a number, a
    string, a boolean), read for a table without a validator, is not stored:
    [readAndIndexFile] returns [false] and the tables hold what they held. *)
Theorem readAndIndexFile_skips_primitives db archive p s record :
  readFile archive p = Ok record →
  (∀ ps, record ≠ JObj ps) → (∀ es nm, record ≠ JArr es nm) →
  (∀ t, first_match p (tables db) t → validator t = None) →
  ∃ s', readAndIndexFile db archive p s = (Ok NotIndexed, s') ∧
        records s' = records s.
Proof.
  intros Hread Hobj Harr Hval.
  destruct (readAndIndexFile_uniform db archive p)
    as [Hu|[[_ Hu]|(t & stored & _ & _ & Hu)]].
  - rewrite (Hu s). by eexists.
  - rewrite (Hu s). by eexists.
  - specialize (Hu s).
    apply readAndIndexFile_stored in Hu
      as (t' & record' & validated & _ & Hfirst & _ & Hread' & Hv & Hob & _).
    rewrite Hread in Hread'. injection Hread' as <-.
    rewrite (Hval t' Hfirst) in Hv. injection Hv as <-.
    destruct Hob as [[ps ->]|(es & nm & ->)]; [by destruct (Hobj ps)|].
    by destruct (Harr es nm).
Qed.

Lemma readAndIndexFile_skips_primitives_witness :
  readFile archive_b "/likes/c.json" = Ok JNull ∧
  first_match "/likes/c.json" (tables db_two_tables) likes_table ∧
  ∃ s', readAndIndexFile db_two_tables archive_b "/likes/c.json" empty_store
        = (Ok NotIndexed, s') ∧
        records s' = records empty_store.
Proof.
  split; [reflexivity|]. split.
  { exists [posts_table], []. split; [reflexivity|].
    split; [by repeat constructor|reflexivity]. }
  refine (readAndIndexFile_skips_primitives db_two_tables archive_b
            "/likes/c.json" empty_store JNull eq_refl _ _ _); [done|done|].
  intros t Hfirst.
  assert (first_match "/likes/c.json" (tables db_two_tables) likes_table)
    as Hlikes.
  { exists [posts_table], []. split; [reflexivity|].
    split; [by repeat constructor|reflexivity]. }
  by rewrite (first_match_unique _ _ _ _ Hfirst Hlikes).
Defined.

(** ** Passes that follow one another *)

(** X4.  On a database that is open and has its [idx], a pass that follows
    a pass on the same archive does nothing when the archive's version has
    not moved since the first pass read it: it returns with the store as the
    first pass left it, trace included.  (The listener of [changed] starts a
    pass for every event; all but the first find nothing to do until the
    archive's version moves.)  The handle as the second pass finds it is
    [archive']: when it reports a version beyond the one persisted, the
    second pass indexes up to that version. *)
Theorem indexArchive_again_does_nothing db archive archive' s :
  isOpen db = true → idx db = true →
  url archive' = url archive →
  let s1 := (indexArchive db archive s).2 in
  (info_version (getInfo archive') ≤ info_version (getInfo archive) →
   indexArchive db archive' s1 = (Ok (), s1)) ∧
  (indexed_version s1 (url archive) < info_version (getInfo archive') →
   indexed_version (indexArchive db archive' s1).2 (url archive)
   = info_version (getInfo archive')).
Proof.
  intros Hopen Hidx Hurl s1.
  assert (info_version (getInfo archive) ≤ indexed_version s1 (url archive))
    as Hdone.
  { unfold s1, indexed_version at 1. rewrite indexArchive_indexMeta.
    destruct (decide _) as [_|Hno].
    - by rewrite lookup_insert_eq.
    - fold (indexed_version s (url archive)).
      apply Z.le_ngt. intros ?. by apply Hno. }
  split.
  - intros Hsame. apply indexArchive_up_to_date; [done..|].
    rewrite Hurl. lia.
  - intros Hmoved. unfold indexed_version at 1.
    rewrite indexArchive_indexMeta, Hurl.
    rewrite decide_True by done. by rewrite lookup_insert_eq.
Qed.

Lemma indexArchive_again_does_nothing_witness :
  let s1 := (indexArchive db_open archive_a_behind empty_store).2 in
  indexed_version s1 "dat://a" = 2 ∧
  indexArchive db_open archive_a_behind s1 = (Ok (), s1) ∧
  indexed_version (indexArchive db_open archive_a s1).2 "dat://a" = 3.
Proof.
  split; [vm_compute; reflexivity|]. split.
  - exact (proj1 (indexArchive_again_does_nothing db_open archive_a_behind
                    archive_a_behind empty_store eq_refl eq_refl eq_refl)
             ltac:(done)).
  - refine (proj2 (indexArchive_again_does_nothing db_open archive_a_behind
                     archive_a empty_store eq_refl eq_refl eq_refl) _).
    vm_compute. reflexivity.
Defined.

(** X5.  On a database that is open and has its [idx]: after the rebuild
    reset, the next pass on an archive reads its whole history again:
    whatever version had been indexed, the window asked of [archive.history]
    starts at version 1 and ends after the archive's version, which is the
    version persisted when the pass ends. *)
Theorem rebuild_rescans_whole_history db archive s :
  isOpen db = true → idx db = true →
  _tablesToRebuild db ≠ [] →
  0 < info_version (getInfo archive) →
  let u := url archive in
  let remote := info_version (getInfo archive) in
  ∃ s1 s2 rest,
    resetOutdatedIndexes db s = (Ok true, s1) ∧
    indexArchive db archive s1 = (Ok (), s2) ∧
    trace s2 = trace s1 ++ HistoryRead u 1 (remote + 1) :: rest ∧
    indexed_version s2 u = remote.
Proof.
  intros Hopen Hidx Hne Hpos u remote.
  destruct (proj2 (resetOutdatedIndexes_run db s) Hne)
    as (s1 & Hreset & _ & _ & Hmeta).
  assert (indexed_version s1 u = 0) as Hv.
  { unfold indexed_version. rewrite Hmeta. by destruct (indexMeta s !! u). }
  assert (indexed_version s1 u < remote) as Hlt by (rewrite Hv; exact Hpos).
  destruct (indexArchive_run db archive s1 Hopen Hidx Hlt)
    as (outs & _ & _ & Hrun).
  fold u remote in Hrun. rewrite Hv in Hrun. change (0 + 1) with 1 in Hrun.
  exists s1. eexists. eexists. split; [done|]. split; [exact Hrun|].
  split.
  - simpl. rewrite run_actions_trace. simpl. rewrite <-!app_assoc. done.
  - unfold indexed_version. simpl. by rewrite lookup_insert_eq.
Qed.

Lemma rebuild_rescans_whole_history_witness :
  indexed_version store_at_5 "dat://a" = 5 ∧
  ∃ s1 s2 rest,
    resetOutdatedIndexes db_rebuild store_at_5 = (Ok true, s1) ∧
    indexArchive db_rebuild archive_a s1 = (Ok (), s2) ∧
    trace s2 = trace s1 ++ HistoryRead "dat://a" 1 4 :: rest ∧
    indexed_version s2 "dat://a" = 3.
Proof.
  split; [vm_compute; reflexivity|].
  refine (rebuild_rescans_whole_history db_rebuild archive_a store_at_5
            eq_refl eq_refl _ _); [discriminate|reflexivity].
Defined.

(** ** What a pass reaches *)

Lemma batch_actions_about db archive (updates : list (string * Update))
    (outs : list (Outcome * list Action)) :
  Forall2 (λ kv out,
             uniform (applyUpdate db archive kv.2) (Ok out.1) out.2 ∧
             Forall (λ a, about_url a = url archive +:+ path kv.2) out.2)
          updates outs →
  Forall (λ a, ∃ p, about_url a = url archive +:+ p) (concat outs.*2).
Proof.
  induction 1 as [|kv out updates outs [_ Habout] _ IH]; simpl; [constructor|].
  apply Forall_app. split; [|done].
  eapply Forall_impl; [exact Habout|]. simpl. by eauto.
Qed.

Lemma first_match_elem p ts t :
  first_match p ts t → t ∈ ts ∧ isRecordFile t p = true.
Proof.
  intros (b & a & -> & _ & Ht). split; [|done].
  apply elem_of_app. right. by left.
Qed.

Lemma applyUpdate_Named db archive update s n s' :
  applyUpdate db archive update s = (Ok (Named n), s') →
  ∃ t, first_match (path update) (tables db) t ∧ name t = n.
Proof.
  unfold applyUpdate. destruct (String.eqb (type update) "del").
  - intros (t & Hfirst & Hn & _)%unindexFile_Named%unindexOnFirstMatch_Named.
    by exists t.
  - intros (t & ? & ? & ? & Hfirst & Hn & _)%readAndIndexFile_stored.
    by exists t.
Qed.

Lemma indexArchive_frame db archive s :
  let s' := (indexArchive db archive s).2 in
  fileEvents s' = fileEvents s ∧ streams s' = streams s ∧
  (∀ u, u ≠ url archive → indexMeta s' !! u = indexMeta s !! u) ∧
  (∀ t k, (∀ p, k ≠ url archive +:+ p) →
          records s' !! (t, k) = records s !! (t, k)).
Proof.
  destruct (isOpen db) eqn:Hopen, (idx db) eqn:Hidx.
  2-4: by (edestruct (indexArchive_unusable_store db archive s) as [msg ->];
           [rewrite ?Hopen, ?Hidx; auto|]).
  destruct (Z.lt_ge_cases (indexed_version s (url archive))
              (info_version (getInfo archive))) as [Hlt|Hge].
  - destruct (indexArchive_run db archive s Hopen Hidx Hlt)
      as (outs & Houts & _ & ->). simpl.
    rewrite !(proj1 (run_actions_fileEvents _ _)),
      !(proj2 (run_actions_fileEvents _ _)), run_actions_indexMeta. simpl.
    split; [done|]. split; [done|]. split.
    + intros u Hu. by rewrite lookup_insert_ne.
    + intros t k Hk. rewrite run_actions_records_other; [done|].
      eapply Forall_impl; [exact (batch_actions_about _ _ _ _ Houts)|].
      simpl. intros a [p Hp] Heq. apply (Hk p). congruence.
  - by rewrite indexArchive_up_to_date.
Qed.

(** X6.  A pass reaches its own archive only: it leaves the subscriptions
    alone, the IndexMeta records of the other archives, and every record
    whose url is not the url of its archive followed by a path. *)
Theorem indexArchive_reaches_its_archive_only db archive s :
  let s' := (indexArchive db archive s).2 in
  fileEvents s' = fileEvents s ∧ streams s' = streams s ∧
  (∀ u, u ≠ url archive → indexMeta s' !! u = indexMeta s !! u) ∧
  (∀ t k, (∀ p, k ≠ url archive +:+ p) →
          records s' !! (t, k) = records s !! (t, k)).
Proof. apply indexArchive_frame. Qed.

(** X7.  A pass appends to the trace, and every [index-updated] event among
    the events it appends is for its own archive, carries the archive's
    version, and names a table of [db.tables] that is the first to take a
    path of the window scanned, a path that one of the tables' path patterns
    matches. *)
Theorem indexArchive_notifies_touched_tables db archive s :
  ∃ new,
    trace (indexArchive db archive s).2 = trace s ++ new ∧
    ∀ n u v,
      IndexUpdated n u v ∈ new →
      u = url archive ∧ v = info_version (getInfo archive) ∧
      ∃ t update,
        update ∈ history archive (indexed_version s (url archive) + 1)
                   (info_version (getInfo archive) + 1) ∧
        anymatch (_tablePathPatterns db) (path update) = true ∧
        first_match (path update) (tables db) t ∧ name t = n.
Proof.
  destruct (isOpen db) eqn:Hopen, (idx db) eqn:Hidx.
  2-4: by (edestruct (indexArchive_unusable_store db archive s) as [msg ->];
           [rewrite ?Hopen, ?Hidx; auto|];
           eexists; split; [done|];
           intros n u v [= ]%list_elem_of_singleton).
  destruct (Z.lt_ge_cases (indexed_version s (url archive))
              (info_version (getInfo archive))) as [Hlt|Hge].
  2:{ rewrite indexArchive_up_to_date by done. exists [].
      split; [by rewrite app_nil_r|]. by intros n u v ?%elem_of_nil. }
  destruct (indexArchive_run db archive s Hopen Hidx Hlt)
    as (outs & Houts & _ & ->). simpl.
  rewrite run_actions_trace. simpl. eexists.
  split; [by rewrite <-!app_assoc|]. intros n u v.
  rewrite !elem_of_app, !elem_of_cons, !elem_of_app, !elem_of_cons.
  intros [[[= ]|?%elem_of_nil]|[Hin|[[= ]|[Hin|[[= ]|?%elem_of_nil]]]]];
    try done.
  - apply list_elem_of_fmap in Hin as ([| |] & ? & _); done.
  - apply notifications_elem in Hin as (n' & _ & Hin & [= -> -> ->]).
    split; [done|]. split; [done|].
    apply list_elem_of_fmap in Hin as ([o acts] & Ho & Hin). simpl in Ho.
    subst o. apply list_elem_of_lookup_1 in Hin as [i Hi].
    destruct (Forall2_lookup_r _ _ _ _ _ Houts Hi) as ([p upd] & Hkv & Hu & _).
    simpl in Hu. specialize (Hu s).
    apply applyUpdate_Named in Hu as (t & Hfirst & Hn).
    pose proof (collapse_entries _ _ _ _ (list_elem_of_lookup_2 _ _ _ Hkv))
      as (Hp & Hm & Hhist).
    rewrite <-Hp in Hm. by exists t, upd.
Qed.

(** The pass of the example notifies [posts] once, for version 3. *)
Example indexArchive_notifies_posts :
  filter (λ e, is_notification e = true)
    (trace (indexArchive db_open archive_a empty_store).2)
  = [IndexUpdated "posts" "dat://a" 3; IndexesUpdated "dat://a" 3].
Proof. vm_compute. reflexivity. Qed.

(** ** Removing an archive *)

Lemma deletes_run db (ms : list (string * string)) s :
  promise_all (map (λ m, IDB.delete db m.1 m.2) ms) s
  = (if forallb (λ m, negb (idbFault db m.1 m.2)) ms
     then Ok (map (λ _, ()) ms) else Throw StoreError,
     run_actions
       ((λ m, Delete m.1 m.2)
          <$> filter (λ m, idbFault db m.1 m.2 = false) ms) s).
Proof.
  revert s. induction ms as [|[t k] ms IH]; intros s; [done|].
  cbn [map promise_all forallb]. unfold IDB.delete at 1. simpl fst. simpl snd.
  rewrite filter_cons. simpl.
  destruct (idbFault db t k) eqn:Hf; simpl.
  - rewrite IH. by destruct (forallb _ ms).
  - rewrite IH. destruct (forallb _ ms); done.
Qed.

Lemma deletes_lookup (l : list (string * string)) s key :
  records (run_actions ((λ m, Delete m.1 m.2) <$> l) s) !! key
  = if decide (key ∈ l) then None else records s !! key.
Proof.
  revert s. induction l as [|[t k] l IH]; intros s; [done|].
  rewrite fmap_cons. change (run_actions (?a :: ?l) ?s)
    with (run_actions l (act a s)). rewrite IH. simpl.
  destruct (decide (key ∈ l)) as [Hin|Hnin].
  - rewrite decide_True; [done|]. by right.
  - destruct (decide (key = (t, k))) as [->|Hne].
    + rewrite decide_True by by left. by rewrite lookup_delete_eq.
    + rewrite decide_False.
      2:{ by intros [?|?]%elem_of_cons. }
      by rewrite lookup_delete_ne.
Qed.

Lemma forallb_no_fault db (l : list (string * string)) :
  forallb (λ m, negb (idbFault db m.1 m.2)) l = true
  ↔ Forall (λ m, idbFault db m.1 m.2 = false) l.
Proof.
  induction l as [|m l IH]; simpl; [by split; [constructor|]|].
  by rewrite andb_true_iff, negb_true_iff, IH, Forall_cons.
Qed.

Lemma unindexArchive_run db archive s :
  let listed := scanArchiveForRecords db archive in
  let deleted := filter (λ m, idbFault db m.1 m.2 = false) listed in
  let s1 := run_actions ((λ m, Delete m.1 m.2) <$> deleted) s in
  unindexArchive db archive s
  = if forallb (λ m, negb (idbFault db m.1 m.2)) listed
    then (Ok (), emit (MetaDelete (url archive))
                   (set_indexMeta (delete (url archive)) s1))
    else (Throw StoreError, s1).
Proof.
  intros listed deleted s1. unfold unindexArchive. rewrite bind_run, deletes_run.
  fold listed. by destruct (forallb _ listed).
Qed.

(** X8.  When the store refuses none of the deletions, [unindexArchive]
    returns with the IndexMeta record of the archive deleted, and with no
    record left under the keys that the tables' [listRecordFiles] gave for
    the archive; every other record is as it was. *)
Theorem unindexArchive_deletes_listed_records db archive s :
  let listed := scanArchiveForRecords db archive in
  Forall (λ m, idbFault db m.1 m.2 = false) listed →
  ∃ s', unindexArchive db archive s = (Ok (), s') ∧
    indexMeta s' = delete (url archive) (indexMeta s) ∧
    ∀ key, records s' !! key
           = if decide (key ∈ listed) then None else records s !! key.
Proof.
  intros listed Hok. rewrite unindexArchive_run. fold listed.
  rewrite (proj2 (forallb_no_fault db listed) Hok).
  eexists. split; [done|]. simpl. rewrite run_actions_indexMeta.
  split; [done|]. intros key. rewrite deletes_lookup.
  destruct (decide (key ∈ listed)) as [Hin|Hnin].
  - rewrite decide_True; [done|]. apply list_elem_of_filter. split; [|done].
    by apply (proj1 (Forall_forall _ _) Hok).
  - rewrite decide_False; [done|]. by intros [_ ?]%list_elem_of_filter.
Qed.

Lemma unindexArchive_deletes_listed_records_witness :
  ∃ s', unindexArchive db_two_tables archive_b
          (indexArchive db_two_tables archive_b empty_store).2 = (Ok (), s') ∧
    indexMeta s'
    = delete "dat://b"
        (indexMeta (indexArchive db_two_tables archive_b empty_store).2) ∧
    ∀ key, records s' !! key
           = if decide (key ∈ scanArchiveForRecords db_two_tables archive_b)
             then None
             else records (indexArchive db_two_tables archive_b empty_store).2
                    !! key.
Proof.
  apply (unindexArchive_deletes_listed_records db_two_tables archive_b).
  by repeat constructor.
Defined.

(** X9.  When the store refuses one of the deletions, [unindexArchive] throws
    and the IndexMeta record of the archive stays as it was.  The deletions
    that the store accepts are made all the same: the records they name are
    gone, every other record is as it was. *)
Theorem unindexArchive_failure_keeps_meta db archive s :
  let listed := scanArchiveForRecords db archive in
  Exists (λ m, idbFault db m.1 m.2 = true) listed →
  ∃ s', unindexArchive db archive s = (Throw StoreError, s') ∧
    indexMeta s' = indexMeta s ∧
    ∀ key, records s' !! key
           = if decide (key ∈ listed ∧ idbFault db key.1 key.2 = false)
             then None else records s !! key.
Proof.
  intros listed Hfault. rewrite unindexArchive_run. fold listed.
  destruct (forallb _ listed) eqn:Hall.
  { apply forallb_no_fault in Hall. apply Exists_exists in Hfault as (m & Hm & Hf).
    rewrite (proj1 (Forall_forall _ _) Hall m Hm) in Hf. done. }
  eexists. split; [done|]. rewrite run_actions_indexMeta.
  split; [done|]. intros key. rewrite deletes_lookup.
  destruct (decide (key ∈ listed ∧ _)) as [[Hin Hk]|Hno].
  - rewrite decide_True; [done|]. by apply list_elem_of_filter.
  - rewrite decide_False; [done|]. intros [? ?]%list_elem_of_filter.
    by apply Hno.
Qed.

Lemma unindexArchive_failure_keeps_meta_witness :
  ∃ s', unindexArchive db_faulty archive_b store_at_5 = (Throw StoreError, s') ∧
    indexMeta s' = indexMeta store_at_5 ∧
    ∀ key, records s' !! key
           = if decide (key ∈ scanArchiveForRecords db_faulty archive_b
                        ∧ idbFault db_faulty key.1 key.2 = false)
             then None else records store_at_5 !! key.
Proof.
  apply (unindexArchive_failure_keeps_meta db_faulty archive_b).
  apply Exists_cons_tl, Exists_cons_hd. reflexivity.
Defined.

(** X10.  When [unindexArchive] throws, [removeArchive] throws before it
    reaches [unwatchArchive]: the handle keeps its stream and its
    [fileEvents], and the archive keeps its IndexMeta record. *)
Theorem removeArchive_failure_keeps_watching db archive s :
  Exists (λ m, idbFault db m.1 m.2 = true) (scanArchiveForRecords db archive) →
  ∃ s', removeArchive db archive s = (Throw StoreError, s') ∧
    fileEvents s' = fileEvents s ∧ streams s' = streams s ∧
    indexMeta s' = indexMeta s.
Proof.
  intros Hfault. unfold removeArchive. rewrite bind_run, unindexArchive_run.
  destruct (forallb _ _) eqn:Hall.
  { apply forallb_no_fault in Hall. apply Exists_exists in Hfault as (m & Hm & Hf).
    rewrite (proj1 (Forall_forall _ _) Hall m Hm) in Hf. done. }
  eexists. split; [done|].
  rewrite (proj1 (run_actions_fileEvents _ _)),
    (proj2 (run_actions_fileEvents _ _)), run_actions_indexMeta. done.
Qed.

Lemma removeArchive_failure_keeps_watching_witness :
  let s := (watchArchive archive_b store_at_5).2 in
  fileEvents s !! handle archive_b = Some 0%nat ∧
  ∃ s', removeArchive db_faulty archive_b s = (Throw StoreError, s') ∧
    fileEvents s' = fileEvents s ∧ streams s' = streams s ∧
    indexMeta s' = indexMeta s.
Proof.
  split; [vm_compute; reflexivity|].
  apply (removeArchive_failure_keeps_watching db_faulty archive_b).
  apply Exists_cons_tl, Exists_cons_hd. reflexivity.
Defined.

(** ** Adding an archive *)

Lemma addArchive_run db archive s :
  let s0 := emit (MetaWrite (url archive) 0)
              (set_indexMeta
                 <[url archive := {| version := 0;
                      isWritable := Some (isOwner (getInfo archive)) |}]> s) in
  let s1 := (indexArchive db archive s0).2 in
  addArchive db archive s = start (Watch archive) s1 ∧
  fileEvents s1 = fileEvents s ∧ streams s1 = streams s.
Proof.
  cbv zeta. unfold addArchive. rewrite bind_run.
  unfold IDB.put_meta at 1, modify at 1. rewrite bind_run.
  set (s0 := emit _ _).
  pose proof (indexArchive_returns db archive s0) as Hret.
  destruct (indexArchive_frame db archive s0) as (Hfe & Hst & _).
  destruct (indexArchive db archive s0) as [r s']. simpl in *. by subst r.
Qed.

(** A call of [watchArchive] that is resumed before anything else runs is a
    call that ran to its end. *)
Lemma start_resume archive s :
  (pending ← start (Watch archive); resume_all (option_list pending)) s
  = watchArchive archive s.
Proof.
  unfold start, watchArchive. rewrite !bind_run. unfold watchArchive_check.
  destruct (fileEvents s !! handle archive); [done|].
  by destruct (_loadPromise archive).
Qed.

Lemma addArchive_settled_run db archive s :
  let s0 := emit (MetaWrite (url archive) 0)
              (set_indexMeta
                 <[url archive := {| version := 0;
                      isWritable := Some (isOwner (getInfo archive)) |}]> s) in
  let s1 := (indexArchive db archive s0).2 in
  addArchive_settled db archive s = watchArchive archive s1 ∧
  fileEvents s1 = fileEvents s ∧ streams s1 = streams s.
Proof.
  cbv zeta. destruct (addArchive_run db archive s) as (Hrun & Hfe & Hst).
  split; [|done]. rewrite <-start_resume. unfold addArchive_settled.
  by rewrite !bind_run, Hrun.
Qed.

Lemma addArchive_settled_indexMeta db archive s :
  indexMeta (addArchive_settled db archive s).2
  = indexMeta (addArchive db archive s).2.
Proof.
  destruct (addArchive_run db archive s) as (Hrun & _).
  rewrite (proj1 (addArchive_settled_run db archive s)), Hrun.
  by rewrite (proj2 (watchArchive_indexMeta _ _)),
    (proj2 (start_indexMeta _ _)).
Qed.

(** X11.  On a database that is open and has its [idx], [addArchive] for a
    handle that is not watched returns with the archive indexed: the
    IndexMeta record holds the archive's version (0 for an archive without
    versions) and the [isOwner] flag read from the archive.  The call of
    [watchArchive] is not awaited.  For a handle without a [_loadPromise] it
    has run to its end when [addArchive] returns.  For a handle with one,
    [addArchive] returns with the subscriptions as they were, and the
    subscription is made when the call resumes.  Once it is made the handle's
    [fileEvents] is a new, open stream, and the meta store is as
    [addArchive] left it. *)
Theorem addArchive_indexes_and_watches db archive s :
  isOpen db = true → idx db = true →
  fileEvents s !! handle archive = None →
  ∃ s' s'' i,
    addArchive db archive s
    = (Ok (if _loadPromise archive then Some archive else None), s') ∧
    indexMeta s' !! url archive
    = Some {| version := Z.max 0 (info_version (getInfo archive));
              isWritable := Some (isOwner (getInfo archive)) |} ∧
    (if _loadPromise archive
     then fileEvents s' = fileEvents s ∧ streams s' = streams s ∧
          resume_all [archive] s' = (Ok (), s'')
     else s'' = s') ∧
    indexMeta s'' = indexMeta s' ∧
    fileEvents s'' !! handle archive = Some i ∧
    streams s !! i = None ∧
    streams s'' !! i = Some {| owner := handle archive; closed := false |}.
Proof.
  intros Hopen Hidx Hfe.
  assert (indexMeta (addArchive db archive s).2 !! url archive
          = Some {| version := Z.max 0 (info_version (getInfo archive));
                    isWritable := Some (isOwner (getInfo archive)) |})
    as Hrecord.
  { rewrite addArchive_indexMeta. cbv zeta.
    destruct (decide _) as [(_ & _ & Hpos)|Hno]; rewrite lookup_insert_eq.
    - by rewrite Z.max_r by lia.
    - rewrite Z.max_l; [done|]. apply Z.le_ngt. intros ?. by apply Hno. }
  destruct (addArchive_run db archive s) as (Hrun & Hfe1 & Hst1).
  rewrite Hrun in *. unfold start in *.
  rewrite bind_run in *. unfold watchArchive_check in *.
  rewrite Hfe1, Hfe in *.
  destruct (_loadPromise archive); simpl in *;
    (eexists _, _, (length (streams s)); split; [done|];
     split; [exact Hrecord|]; split; [done|]; simpl;
     rewrite Hst1, lookup_insert_eq; split; [done|]; split; [done|];
     split; [by apply lookup_ge_None_2|by apply list_lookup_middle]).
Qed.

Lemma addArchive_indexes_and_watches_witness :
  ∃ s' s'' i,
    addArchive db_open archive_a store_at_5 = (Ok (Some archive_a), s') ∧
    indexMeta s' !! "dat://a"
    = Some {| version := 3; isWritable := Some true |} ∧
    (fileEvents s' = fileEvents store_at_5 ∧
     streams s' = streams store_at_5 ∧
     resume_all [archive_a] s' = (Ok (), s'')) ∧
    indexMeta s'' = indexMeta s' ∧
    fileEvents s'' !! handle archive_a = Some i ∧
    streams store_at_5 !! i = None ∧
    streams s'' !! i = Some {| owner := handle archive_a; closed := false |}.
Proof.
  exact (addArchive_indexes_and_watches db_open archive_a store_at_5
           eq_refl eq_refl eq_refl).
Defined.

(** A handle without a [_loadPromise] is watched when [addArchive]
    returns. *)
Example addArchive_watches_at_once :
  let run := addArchive db_two_tables archive_b store_at_5 in
  run.1 = Ok None ∧
  fileEvents run.2 !! handle archive_b = Some 0%nat ∧
  streams run.2 = [{| owner := handle archive_b; closed := false |}].
Proof. repeat split; vm_compute; reflexivity. Qed.

(** [removeArchive] before the pending subscription is made leaves the
    handle watched: [unwatchArchive] finds no [fileEvents] to close, and the
    call of [watchArchive] that resumes afterwards sets it. *)
Example removeArchive_before_subscription :
  let added := addArchive db_open archive_a empty_store in
  let removed := removeArchive db_open archive_a added.2 in
  let resumed := resume_all [archive_a] removed.2 in
  added.1 = Ok (Some archive_a) ∧ removed.1 = Ok () ∧ resumed.1 = Ok () ∧
  indexMeta resumed.2 !! url archive_a = None ∧
  fileEvents resumed.2 !! handle archive_a = Some 0%nat ∧
  streams resumed.2 = [{| owner := handle archive_a; closed := false |}].
Proof. repeat split; vm_compute; reflexivity. Qed.

Lemma one_subscription_ext s s' :
  fileEvents s' = fileEvents s → streams s' = streams s →
  one_subscription s → one_subscription s'.
Proof. unfold one_subscription. by intros -> ->. Qed.

Lemma one_subscription_unwatched s h :
  one_subscription s → fileEvents s !! h = None → active s h = [].
Proof.
  intros Hinv Hnone. specialize (Hinv h). rewrite Hnone in Hinv.
  unfold active. apply elem_of_nil_inv.
  intros st [[Ho Hc] Hin]%list_elem_of_filter.
  apply list_elem_of_lookup_1 in Hin as [j Hj].
  rewrite (Hinv j st Hj Ho) in Hc. done.
Qed.

Lemma unwatchArchive_fileEvents archive s :
  fileEvents (unwatchArchive archive s).2 !! handle archive = None.
Proof.
  unfold unwatchArchive, modify. simpl.
  destruct (fileEvents s !! handle archive) eqn:Hfe; simpl; [|done].
  by rewrite lookup_delete_eq.
Qed.

(** X12.  [addArchive], once the subscription it started is made, followed
    by [removeArchive], when the store refuses none of the deletions: both
    return; the archive has no IndexMeta record left, the records of the
    other archives are as they were, and the handle has no [fileEvents] and no
    open stream. *)
Theorem removeArchive_undoes_addArchive db archive s :
  one_subscription s →
  Forall (λ m, idbFault db m.1 m.2 = false) (scanArchiveForRecords db archive) →
  ∃ s1 s2,
    addArchive_settled db archive s = (Ok (), s1) ∧
    removeArchive db archive s1 = (Ok (), s2) ∧
    indexMeta s2 !! url archive = None ∧
    (∀ u, u ≠ url archive → indexMeta s2 !! u = indexMeta s !! u) ∧
    fileEvents s2 !! handle archive = None ∧
    active s2 (handle archive) = [].
Proof.
  intros Hinv Hok.
  pose proof (addArchive_indexMeta db archive s) as Hmeta.
  rewrite <-addArchive_settled_indexMeta in Hmeta.
  destruct (addArchive_settled_run db archive s) as (Hrun & Hfe0 & Hst0).
  cbv zeta in Hmeta. rewrite Hrun in Hmeta.
  pose proof (one_subscription_ext _ _ Hfe0 Hst0 Hinv) as Hinv0.
  apply (watchArchive_one_subscription archive) in Hinv0.
  destruct (watchArchive_indexMeta archive
              (indexArchive db archive
                 (emit (MetaWrite (url archive) 0)
                    (set_indexMeta
                       <[url archive := {| version := 0;
                            isWritable := Some (isOwner (getInfo archive)) |}]>
                       s))).2) as [Hret _].
  destruct (watchArchive archive _) as [r s1]. simpl in *. subst r.
  exists s1. rewrite Hrun. unfold removeArchive.
  rewrite bind_run, unindexArchive_run, (proj2 (forallb_no_fault _ _) Hok).
  set (s1' := emit _ _).
  assert (one_subscription s1') as Hinv1.
  { apply (one_subscription_ext s1); [| |done]; unfold s1'; simpl.
    - apply run_actions_fileEvents.
    - apply run_actions_fileEvents. }
  assert (indexMeta s1' = delete (url archive) (indexMeta s1)) as Hmeta1.
  { unfold s1'. simpl. by rewrite run_actions_indexMeta. }
  pose proof (unwatchArchive_one_subscription archive s1' Hinv1) as Hinv2.
  pose proof (unwatchArchive_fileEvents archive s1') as Hfe2.
  pose proof (unwatchArchive_indexMeta archive s1') as Hmeta2.
  assert ((unwatchArchive archive s1').1 = Ok ()) as Hret2 by done.
  destruct (unwatchArchive archive s1') as [r s2]. simpl in *. subst r.
  exists s2. split; [done|]. split; [done|].
  rewrite Hmeta2, Hmeta1, Hmeta. split; [|split; [|split]].
  - by rewrite lookup_delete_eq.
  - intros u Hu. rewrite lookup_delete_ne by done.
    destruct (decide _); by rewrite lookup_insert_ne.
  - done.
  - by apply one_subscription_unwatched.
Qed.

Lemma removeArchive_undoes_addArchive_witness :
  ∃ s1 s2,
    addArchive_settled db_two_tables archive_b store_at_5 = (Ok (), s1) ∧
    removeArchive db_two_tables archive_b s1 = (Ok (), s2) ∧
    indexMeta s2 !! url archive_b = None ∧
    (∀ u, u ≠ url archive_b → indexMeta s2 !! u = indexMeta store_at_5 !! u) ∧
    fileEvents s2 !! handle archive_b = None ∧
    active s2 (handle archive_b) = [].
Proof.
  apply (removeArchive_undoes_addArchive db_two_tables archive_b store_at_5).
  - intros h. simpl. rewrite lookup_empty. by intros [|?] ?.
  - by repeat constructor.
Defined.

(** ** Subscriptions *)

(** X13.  Calls of [watchArchive] and [unwatchArchive] that each run to
    their end before the next starts, in any number and order and on any
    handles, leave every handle with one open stream at most, the one its
    [fileEvents] holds. *)
Theorem calls_in_turn_keep_one_subscription cs s h :
  one_subscription s →
  one_subscription (run_in_turn cs s).2 ∧
  (length (active (run_in_turn cs s).2 h) ≤ 1)%nat.
Proof.
  intros Hinv%(run_in_turn_one_subscription cs). split; [done|].
  by apply one_subscription_active.
Qed.

Lemma calls_in_turn_keep_one_subscription_witness :
  let cs := [Watch archive_a; Watch archive_a; Unwatch archive_a;
             Watch archive_a] in
  one_subscription (run_in_turn cs empty_store).2 ∧
  (length (active (run_in_turn cs empty_store).2 (handle archive_a)) ≤ 1)%nat.
Proof.
  exact (calls_in_turn_keep_one_subscription _ empty_store (handle archive_a)
           one_subscription_empty).
Defined.

(** ** Waiting for an archive to be indexed *)

Lemma waitTillIndexed_run archive s :
  waitTillIndexed archive s
  = (Ok (if indexed_version s (url archive) >=? info_version (getInfo archive)
         then Resolved else Listening (info_version (getInfo archive))), s).
Proof.
  unfold waitTillIndexed. rewrite bind_run. unfold IDB.get, gets.
  fold (indexed_version s (url archive)). by destruct (_ >=? _).
Qed.

Lemma waitTillIndexed_Listening archive s target :
  waitTillIndexed archive s = (Ok (Listening target), s) →
  target = info_version (getInfo archive) ∧
  indexed_version s (url archive) < info_version (getInfo archive).
Proof.
  rewrite waitTillIndexed_run.
  destruct (Z.geb_spec (indexed_version s (url archive))
              (info_version (getInfo archive))); [done|].
  by intros [= <-].
Qed.

(** X14.  A call of [waitTillIndexed] that finds the archive behind waits
    for the archive's version.  The next pass on the archive, on a database
    that is open and has its [idx], ends with the [indexes-updated] event on
    which the listener resolves the promise, and emits nothing before it on
    which the listener would; a call of [waitTillIndexed] made after the pass
    resolves at once. *)
Theorem waitTillIndexed_resolved_by_pass db archive s target :
  isOpen db = true → idx db = true →
  waitTillIndexed archive s = (Ok (Listening target), s) →
  ∃ s' before,
    indexArchive db archive s = (Ok (), s') ∧
    trace s' = trace s ++ before ++ [IndexesUpdated (url archive) target] ∧
    Forall (λ e, onIndex archive target e = false) before ∧
    onIndex archive target (IndexesUpdated (url archive) target) = true ∧
    waitTillIndexed archive s' = (Ok Resolved, s').
Proof.
  intros Hopen Hidx [-> Hlt]%waitTillIndexed_Listening.
  destruct (indexArchive_run db archive s Hopen Hidx Hlt)
    as (outs & _ & _ & Hrun).
  eexists. eexists (HistoryRead _ _ _ :: (event_of <$> concat outs.*2)
                    ++ MetaWrite _ _ :: omap (notification _ _) (js_set outs.*1)).
  split; [exact Hrun|]. split; [|split; [|split]].
  - simpl. rewrite run_actions_trace. simpl. by rewrite <-!app_assoc.
  - constructor; [done|]. apply Forall_app. split.
    + apply Forall_fmap, Forall_forall. by intros [| |] _.
    + constructor; [done|]. apply Forall_forall.
      intros e (o & _ & He)%list_elem_of_omap.
      unfold notification in He. destruct o as [n|]; [|done].
      destruct (String.eqb n ""); by simplify_eq.
  - simpl. rewrite String.eqb_refl. simpl. apply Z.geb_le. lia.
  - rewrite waitTillIndexed_run. unfold indexed_version. simpl.
    rewrite lookup_insert_eq. simpl.
    by destruct (Z.geb_spec (info_version (getInfo archive))
                   (info_version (getInfo archive))) as [_|?]; [|lia].
Qed.

Lemma waitTillIndexed_resolved_by_pass_witness :
  ∃ s' before,
    indexArchive db_open archive_a empty_store = (Ok (), s') ∧
    trace s' = trace empty_store ++ before ++ [IndexesUpdated "dat://a" 3] ∧
    Forall (λ e, onIndex archive_a 3 e = false) before ∧
    onIndex archive_a 3 (IndexesUpdated "dat://a" 3) = true ∧
    waitTillIndexed archive_a s' = (Ok Resolved, s').
Proof.
  exact (waitTillIndexed_resolved_by_pass db_open archive_a empty_store 3
           eq_refl eq_refl eq_refl).
Defined.

(** X15.  On a database that is closed or has no [idx], a pass does not
    resolve a waiting [waitTillIndexed]: it logs one line, emits no event,
    and a call of [waitTillIndexed] made after it waits as the first one
    does. *)
Theorem waitTillIndexed_pending_on_unusable_db db archive s target :
  isOpen db = false ∨ idx db = false →
  waitTillIndexed archive s = (Ok (Listening target), s) →
  ∃ s' msg,
    indexArchive db archive s = (Ok (), s') ∧
    trace s' = trace s ++ [ConsoleLog msg ""] ∧
    onIndex archive target (ConsoleLog msg "") = false ∧
    waitTillIndexed archive s' = (Ok (Listening target), s').
Proof.
  intros Hun [-> Hlt]%waitTillIndexed_Listening.
  destruct (indexArchive_unusable_store db archive s Hun) as [msg Hrun].
  eexists _, msg. split; [exact Hrun|]. split; [done|]. split; [done|].
  rewrite waitTillIndexed_run.
  change (indexed_version (emit (ConsoleLog msg "") s) (url archive))
    with (indexed_version s (url archive)).
  by destruct (Z.geb_spec (indexed_version s (url archive))
                 (info_version (getInfo archive))) as [?|_]; [lia|].
Qed.

Lemma waitTillIndexed_pending_on_unusable_db_witness :
  ∃ s' msg,
    indexArchive db_closed archive_a empty_store = (Ok (), s') ∧
    trace s' = trace empty_store ++ [ConsoleLog msg ""] ∧
    onIndex archive_a 3 (ConsoleLog msg "") = false ∧
    waitTillIndexed archive_a s' = (Ok (Listening 3), s').
Proof.
  exact (waitTillIndexed_pending_on_unusable_db db_closed archive_a
           empty_store 3 (or_introl eq_refl) eq_refl).
Defined.

End indexer_properties.

(* ===================================================================== *)
(** * Further properties of lib/schemas.js *)
(* ===================================================================== *)

Section schemas_properties.
Import JS Schemas Examples.

(** ** What [validateAndSanitize] accepts and what it leaves *)

Lemma sanitizeTable_Throw e t : sanitizeTable (Throw e) t = Throw e.
Proof. done. Qed.

Lemma assoc_get_is_Some {A} (k : string) (ps : list (string * A)) :
  k ∈ ps.*1 → ∃ v, assoc_get k ps = Some v.
Proof.
  intros Hin. destruct (assoc_get k ps) as [v|] eqn:Hget; [by exists v|].
  by apply assoc_get_None in Hget.
Qed.

Lemma assoc_set_fst {A} (k : string) (v : A) (ps : list (string * A)) :
  k ∈ ps.*1 → (assoc_set k v ps).*1 = ps.*1.
Proof.
  induction ps as [|[k' v'] ps IH]; simpl; [by intros ?%elem_of_nil|].
  destruct (String.eqb_spec k k') as [->|Hne]; [done|].
  intros [?|Hin]%elem_of_cons; [done|]. simpl. f_equal. by apply IH.
Qed.

(** One round of the loop on a schema object. *)
Lemma sanitizeTable_round qs t table schema' :
  assoc_get t qs = Some table →
  sanitizeTable (Ok (JObj qs)) t = Ok schema' →
  (table = JNull ∧ schema' = JObj qs) ∨
  (table ≠ JNull ∧
   ∃ tidx table',
     get table "index" = Ok tidx ∧
     set table "index" (arrayify tidx) = Ok table' ∧
     schema' = JObj (assoc_set t table' qs)).
Proof.
  intros Hget. unfold sanitizeTable. unbind. simpl get. rewrite Hget. simpl.
  destruct (strict_eq table JNull) eqn:Hnull.
  - apply strict_eq_null in Hnull. intros [= <-]. by left.
  - assert (table ≠ JNull) as Hne.
    { intros ->. by rewrite (proj2 (strict_eq_null JNull)) in Hnull. }
    destruct (assert _ _); [|done].
    destruct (get table "index") as [tidx|]; [|done].
    destruct (set table "index" (arrayify tidx)) as [table'|] eqn:Hset; [|done].
    intros [= <-]. right. split; [done|]. by exists tidx, table'.
Qed.

Lemma foldl_sanitizeTable qs names schema' :
  NoDup names → (∀ t, t ∈ names → t ∈ qs.*1) →
  foldl sanitizeTable (Ok (JObj qs)) names = Ok schema' →
  ∃ qs', schema' = JObj qs' ∧ qs'.*1 = qs.*1 ∧
    (∀ t, t ∉ names → assoc_get t qs' = assoc_get t qs) ∧
    (∀ t table, t ∈ names → assoc_get t qs = Some table →
       ∃ table', assoc_get t qs' = Some table' ∧
         (table = JNull → table' = JNull) ∧
         (table ≠ JNull →
          ∃ tidx, get table "index" = Ok tidx ∧
                  set table "index" (arrayify tidx) = Ok table')).
Proof.
  revert qs. induction names as [|t names IH]; intros qs Hnd Hkeys Hfold;
    cbn [foldl] in Hfold.
  - simplify_eq. exists qs. split; [done|]. split; [done|]. split; [done|].
    by intros ? ? ?%elem_of_nil.
  - apply NoDup_cons in Hnd as [Ht Hnd].
    destruct (assoc_get_is_Some t qs) as [table Htable].
    { apply Hkeys. by left. }
    destruct (sanitizeTable (Ok (JObj qs)) t) as [schema1|e] eqn:Hstep.
    2:{ rewrite foldl_Throw in Hfold; [done|]. apply sanitizeTable_Throw. }
    assert (∃ qs1, schema1 = JObj qs1 ∧ qs1.*1 = qs.*1 ∧
              (∀ u, u ≠ t → assoc_get u qs1 = assoc_get u qs) ∧
              ∃ table', assoc_get t qs1 = Some table' ∧
                (table = JNull → table' = JNull) ∧
                (table ≠ JNull →
                 ∃ tidx, get table "index" = Ok tidx ∧
                         set table "index" (arrayify tidx) = Ok table'))
      as (qs1 & -> & Hkeys1 & Hother1 & table1 & Htable1 & Hsan1).
    { destruct (sanitizeTable_round _ _ _ _ Htable Hstep)
        as [[-> ->]|(Hne & tidx & table' & Hidx & Hset & ->)].
      - exists qs. split; [done|]. split; [done|]. split; [done|].
        exists JNull. by repeat split.
      - exists (assoc_set t table' qs). split; [done|].
        split; [apply assoc_set_fst, Hkeys; by left|]. split.
        + intros u Hu. rewrite assoc_get_set.
          by destruct (String.eqb_spec u t).
        + exists table'. rewrite assoc_get_set, String.eqb_refl.
          split; [done|]. split; [done|]. intros _. by exists tidx. }
    destruct (IH qs1 Hnd) as (qs' & -> & Hkeys' & Hother' & Hsan'); [|done|].
    { intros u Hu. rewrite Hkeys1. apply Hkeys. by right. }
    exists qs'. split; [done|]. split; [congruence|]. split.
    + intros u Hu. rewrite Hother'.
      * apply Hother1. intros ->. apply Hu. by left.
      * intros ?. apply Hu. by right.
    + intros u table0 [->|Hu]%elem_of_cons Hget.
      * rewrite Htable in Hget. injection Hget as <-.
        exists table1. by rewrite (Hother' t Ht).
      * apply Hsan'; [done|]. rewrite Hother1; [done|]. by intros ->.
Qed.

Lemma validateAndSanitize_sanitized ps schema' :
  NoDup ps.*1 →
  validateAndSanitize (JObj ps) = Ok schema' →
  ∃ ps', schema' = JObj ps' ∧ ps'.*1 = ps.*1 ∧
    assoc_get "version" ps' = assoc_get "version" ps ∧
    (∃ n, assoc_get "version" ps = Some (JNum n) ∧ 0 < n) ∧
    ∀ t table, t ≠ "version" → assoc_get t ps = Some table →
      ∃ table', assoc_get t ps' = Some table' ∧
        (table = JNull → table' = JNull) ∧
        (table ≠ JNull →
         ∃ tidx, get table "index" = Ok tidx ∧
                 set table "index" (arrayify tidx) = Ok table').
Proof.
  intros Hnd. unfold validateAndSanitize. unbind. simpl.
  destruct (assoc_get "version" ps) as [v|] eqn:Hv; simpl; [|done].
  destruct (positive_number v) eqn:Hpos; simpl; [|done].
  destruct v as [| | |n| | |]; try done.
  intros Hfold. apply foldl_sanitizeTable in Hfold
    as (ps' & -> & Hkeys & Hother & Hsan).
  - exists ps'. split; [done|]. split; [done|]. split; [|split].
    + rewrite Hother, Hv; [done|]. unfold getTableNames. simpl.
      by intros [? _]%list_elem_of_filter.
    + exists n. split; [done|]. by apply Z.ltb_lt.
    + intros t table Ht Hget. apply Hsan; [|done].
      unfold getTableNames. simpl. apply list_elem_of_filter. split; [done|].
      by eapply assoc_get_Some.
  - unfold getTableNames. simpl. by apply NoDup_filter.
  - unfold getTableNames. simpl. by intros t [_ ?]%list_elem_of_filter.
Qed.

(** X16.  What [validateAndSanitize] leaves of a schema object it accepts:
    the same keys in the same order and the same [version], which is a
    positive number; a table set to [null] stays [null]; every other table
    has been read for its [index] and given the arrayified value as its
    [index] (the value itself when it is an array, the one-element array of
    the value otherwise, [undefined] included), nothing else of it
    changed. *)
Theorem validateAndSanitize_arrayifies_indexes ps schema' :
  NoDup ps.*1 →
  validateAndSanitize (JObj ps) = Ok schema' →
  ∃ ps', schema' = JObj ps' ∧ ps'.*1 = ps.*1 ∧
    assoc_get "version" ps' = assoc_get "version" ps ∧
    (∃ n, assoc_get "version" ps = Some (JNum n) ∧ 0 < n) ∧
    ∀ t table, t ≠ "version" → assoc_get t ps = Some table →
      ∃ table', assoc_get t ps' = Some table' ∧
        (table = JNull → table' = JNull) ∧
        (table ≠ JNull →
         ∃ tidx, get table "index" = Ok tidx ∧
                 set table "index" (arrayify tidx) = Ok table').
Proof. apply validateAndSanitize_sanitized. Qed.

Lemma validateAndSanitize_arrayifies_indexes_witness :
  ∃ ps', JObj [("version", JNum 1);
               ("posts", JObj [("index", JArr [JNum 5] [])])] = JObj ps' ∧
    ps'.*1 = ["version"; "posts"] ∧
    assoc_get "version" ps' = Some (JNum 1) ∧
    (∃ n, Some (JNum 1) = Some (JNum n) ∧ 0 < n) ∧
    ∀ t table, t ≠ "version" →
      assoc_get t [("version", JNum 1); ("posts", JObj [("index", JNum 5)])]
      = Some table →
      ∃ table', assoc_get t ps' = Some table' ∧
        (table = JNull → table' = JNull) ∧
        (table ≠ JNull →
         ∃ tidx, get table "index" = Ok tidx ∧
                 set table "index" (arrayify tidx) = Ok table').
Proof.
  refine (validateAndSanitize_arrayifies_indexes
            [("version", JNum 1); ("posts", JObj [("index", JNum 5)])]
            _ _ eq_refl).
  apply (bool_decide_unpack _). vm_compute. exact I.
Defined.



Lemma foldl_sanitizeTable_index qs names sidx :
  assoc_get "index" qs = Some sidx →
  truthy sidx = true → String.eqb (typeof sidx) "string" = false →
  isArrayOfStrings sidx = false →
  "index" ∈ names →
  ∃ e, foldl sanitizeTable (Ok (JObj qs)) names = Throw e.
Proof.
  intros Hidx Htruthy Hstring Harr.
  induction names as [|t names IH]; [by intros ?%elem_of_nil|].
  intros Hin. cbn [foldl].
  assert (sanitizeTable (Ok (JObj qs)) t = Ok (JObj qs) ∧ t ≠ "index"
          ∨ ∃ e, sanitizeTable (Ok (JObj qs)) t = Throw e) as [[-> Ht]|[e ->]].
  { unfold sanitizeTable. unbind. simpl get. rewrite Hidx. simpl default.
    destruct (strict_eq _ JNull) eqn:Hnull.
    - left. split; [done|]. intros ->. rewrite Hidx in Hnull. simpl in Hnull.
      apply strict_eq_null in Hnull as ->. done.
    - right. rewrite Htruthy, Hstring, Harr. simpl. by eexists. }
  - apply IH. by apply elem_of_cons in Hin as [?|?].
  - exists e. apply foldl_Throw, sanitizeTable_Throw.
Qed.

(** X18.  The assertion in the loop of [validateAndSanitize] is on the field
    [index] of the schema.  A schema that has a key [index] whose value is
    truthy and neither a string nor an array of strings (a table named
    [index], declared as an object) is refused, whatever its tables are. *)
Theorem validateAndSanitize_refuses_key_index ps sidx :
  assoc_get "index" ps = Some sidx →
  truthy sidx = true → typeof sidx ≠ "string" → isArrayOfStrings sidx = false →
  ∃ e, validateAndSanitize (JObj ps) = Throw e.
Proof.
  intros Hidx Htruthy Hstring%String.eqb_neq Harr.
  unfold validateAndSanitize. unbind. simpl.
  destruct (assert (positive_number _) _); [|by eexists].
  apply (foldl_sanitizeTable_index _ _ sidx); try done.
  unfold getTableNames. simpl. apply list_elem_of_filter. split; [done|].
  by eapply assoc_get_Some.
Qed.

Lemma validateAndSanitize_refuses_key_index_witness :
  ∃ e, validateAndSanitize
         (JObj [("version", JNum 1);
                ("index", JObj [("path", JStr "/index/*.json");
                                ("index", JArr [JStr "createdAt"] [])])])
       = Throw e.
Proof.
  apply (validateAndSanitize_refuses_key_index _
           (JObj [("path", JStr "/index/*.json");
                  ("index", JArr [JStr "createdAt"] [])]));
    [reflexivity|reflexivity|by vm_compute|reflexivity].
Defined.

(** ** The arrays of a diff *)

Section diff_properties.
Variable inherited : jsval → string → option jsval.
Variable sharedPath : string → bool.
Variable diffArrays : jsval → jsval → result jsval.

Local Abbreviation diffTable :=
  (diffTable inherited sharedPath diffArrays).
Local Abbreviation diff := (diff inherited sharedPath diffArrays).

(** A loop over the names, for any of the arrays. *)
Lemma foldl_diffTable_entries {X} (field : Diff → list X)
    (entered : string → X → Prop) old new names :
  (∀ d0 d1 t, t ∈ names → diffTable old new (Ok d0) t = Ok d1 →
              ∀ x, x ∈ field d1 ↔ x ∈ field d0 ∨ entered t x) →
  ∀ d0 d, foldl (diffTable old new) (Ok d0) names = Ok d →
  ∀ x, x ∈ field d ↔ x ∈ field d0 ∨ ∃ t, t ∈ names ∧ entered t x.
Proof.
  induction names as [|t names IH]; intros Hstep d0 d Hfold x;
    cbn [foldl] in Hfold.
  - simplify_eq. split; [by left|]. by intros [?|(? & ?%elem_of_nil & _)].
  - destruct (diffTable old new (Ok d0) t) as [d1|e] eqn:Ht.
    + rewrite (IH (λ a b u Hu, Hstep a b u (list_elem_of_further _ _ _ Hu))
                 _ _ Hfold x).
      rewrite (Hstep _ _ _ (list_elem_of_here _ _) Ht x).
      setoid_rewrite elem_of_cons. naive_solver.
    + rewrite foldl_Throw in Hfold; [done|]. apply diffTable_Throw.
Qed.

(** A table is newly added when a round finds it in the new schema and not
    in the old one. *)
Lemma round_newly_added old new t b nd :
  t ∈ getTableNames old ∨ t ∈ getTableNames new →
  (if truthy old then has_in inherited old t else Ok false) = Ok b →
  lookup inherited new t = Ok nd →
  newly_added inherited old new t ∧ get new t = Ok nd
  ↔ b = false ∧ nd ≠ JNull.
Proof.
  intros Hdecl Hin Hnd.
  pose proof (oldSchemaHasTable_spec _ _ _ _ Hin) as Hb.
  pose proof (oldSchemaHasTable_own _ _ _ _ Hin) as Hown.
  unfold newly_added. split.
  - intros [(Hnew & Hno & Hne) Hget].
    split; [destruct b; [|done]; by destruct Hno; apply Hb|].
    intros ->. rewrite (lookup_table _ _ _ Hnew) in Hnd. done.
  - intros [-> Hne]. assert (t ∈ getTableNames new) as Hnew.
    { destruct Hdecl as [Hold|?]; [|done]. by specialize (Hown Hold). }
    rewrite <-(lookup_table inherited _ _ Hnew), Hnd.
    split; [|done]. split; [done|]. split; [by intros ?%Hb|]. congruence.
Qed.

(** What one round of the loop does to [add]. *)
Lemma diffTable_add old new d0 d1 t :
  t ∈ getTableNames old ∨ t ∈ getTableNames new →
  diffTable old new (Ok d0) t = Ok d1 →
  ∀ x, x ∈ add d1 ↔
       x ∈ add d0 ∨
       (x.1 = t ∧ newly_added inherited old new t ∧ get new t = Ok x.2).
Proof.
  intros Hdecl H x. unfold Schemas.diffTable in H. unbind.
  destruct (if truthy old then _ else _) as [b|] eqn:Hin; [|done].
  destruct (lookup inherited new t) as [nd|] eqn:Hnd; [|done].
  pose proof (round_newly_added _ _ _ _ _ Hdecl Hin Hnd) as Hadd.
  assert (∀ def, newly_added inherited old new t ∧ get new t = Ok def →
                 def = nd ∧ b = false ∧ nd ≠ JNull) as Hdef.
  { intros def [Hnew Hget]. destruct (Hnew) as (Hown & _).
    rewrite (lookup_table _ _ _ Hown), Hget in Hnd. simplify_eq.
    split; [done|]. by apply Hadd. }
  destruct (strict_eq nd JNull) eqn:Hnull.
  - apply strict_eq_null in Hnull as ->.
    assert (add d1 = add d0) as ->.
    { destruct b; simpl in H; by simplify_eq. }
    split; [by left|]. intros [?|(_ & Hnew)]; [done|].
    by destruct (Hdef _ Hnew) as (_ & _ & ?).
  - assert (nd ≠ JNull) as Hne.
    { intros ->. by rewrite (proj2 (strict_eq_null JNull)) in Hnull. }
    destruct b; simpl in H.
    + assert (add d1 = add d0) as ->.
      { destruct (truthy nd); [|by simplify_eq].
        destruct (lookup inherited old t); [|done].
        destruct (diffTables diffArrays _ _ nd) as [tc|]; [|done].
        simplify_eq.
        by destruct (truthy (indexDiff tc)), (truthy (needsRebuild tc)). }
      split; [by left|]. intros [?|(_ & Hnew)]; [done|].
      by destruct (Hdef _ Hnew) as (_ & ? & _).
    + simplify_eq. simpl. rewrite elem_of_app, list_elem_of_singleton.
      destruct x as [u def]. simpl. split.
      * intros [?|[= -> ->]]; [by left|]. right. split; [done|].
        by apply Hadd.
      * intros [?|(-> & Hnew)]; [by left|]. right.
        by destruct (Hdef _ Hnew) as (-> & _).
Qed.

(** What one round of the loop does to [change]. *)
Lemma diffTable_change old new d0 d1 t :
  diffTable old new (Ok d0) t = Ok d1 →
  ∀ x, x ∈ change d1 ↔
       x ∈ change d0 ∨
       (x.1 = t ∧ in_schema inherited old t ∧
        ∃ od nd, lookup inherited old t = Ok od ∧
                 lookup inherited new t = Ok nd ∧ truthy nd = true ∧
                 diffTables diffArrays (sharedPath t) od nd = Ok x.2 ∧
                 truthy (indexDiff x.2) = true).
Proof.
  intros H x. unfold Schemas.diffTable in H. unbind.
  destruct (if truthy old then _ else _) as [b|] eqn:Hin; [|done].
  pose proof (oldSchemaHasTable_spec _ _ _ _ Hin) as Hb.
  destruct (lookup inherited new t) as [nd|] eqn:Hnd; [|done].
  destruct (strict_eq nd JNull) eqn:Hnull.
  - apply strict_eq_null in Hnull as ->.
    assert (change d1 = change d0) as ->.
    { destruct b; simpl in H; by simplify_eq. }
    split; [by left|].
    intros [?|(_ & _ & od & nd & _ & [= <-] & ? & _)]; done.
  - destruct b; simpl in H.
    + destruct (truthy nd) eqn:Htr.
      2:{ simplify_eq. split; [by left|].
          intros [?|(_ & _ & od & nd' & _ & [= <-] & ? & _)]; [done|congruence]. }
      destruct (lookup inherited old t) as [od|] eqn:Hod; [|done].
      destruct (diffTables diffArrays (sharedPath t) od nd) as [tc|] eqn:Htc;
        [|done].
      simplify_eq. destruct x as [u tc']. simpl.
      destruct (truthy (indexDiff tc)) eqn:Hidx.
      * assert (change (if truthy (needsRebuild tc)
                        then push_rebuild (push_change d0 t tc) t
                        else push_change d0 t tc) = change d0 ++ [(t, tc)]) as ->.
        { by destruct (truthy (needsRebuild tc)). }
        rewrite elem_of_app, list_elem_of_singleton. split.
        -- intros [?|[= -> ->]]; [by left|]. right.
           split; [done|]. split; [by apply Hb|]. by exists od, nd.
        -- intros [?|(-> & _ & od' & nd' & [= <-] & [= <-] & _ & Htc' & _)];
             [by left|]. right. congruence.
      * assert (change (if truthy (needsRebuild tc)
                        then push_rebuild d0 t else d0) = change d0) as ->.
        { by destruct (truthy (needsRebuild tc)). }
        split; [by left|].
        intros [?|(-> & _ & od' & nd' & [= <-] & [= <-] & _ & Htc' & Hidx')];
          [done|]. congruence.
    + assert (change d1 = change d0) as ->.
      { by simplify_eq. }
      split; [by left|]. intros [?|(_ & Hold & _)]; [done|].
      apply Hb in Hold. done.
Qed.

(** The [add] array of a diff, exactly. *)
Lemma diff_add_iff old new d t def :
  diff old new = Ok d →
  (t, def) ∈ add d ↔ newly_added inherited old new t ∧ get new t = Ok def.
Proof.
  intros Hd%diff_Ok.
  rewrite (foldl_diffTable_entries add
             (λ t x, x.1 = t ∧ newly_added inherited old new t
                     ∧ get new t = Ok x.2)
             old new _ (λ d0 d1 u Hu, diffTable_add old new d0 d1 u
                          (proj2 (allTableNames_elem _ _ _ Hu))) _ _ Hd).
  simpl. split.
  - intros [?%elem_of_nil|(u & Hu & -> & Hnew)]; done.
  - intros [Hnew Hget]. right. exists t.
    split; [|done]. apply elem_of_js_set, elem_of_app. right.
    by destruct Hnew.
Qed.

(** The [change] array of a diff, exactly. *)
Lemma diff_change_iff old new d t tc :
  diff old new = Ok d →
  (t, tc) ∈ change d ↔
  (t ∈ getTableNames old ∨ t ∈ getTableNames new) ∧
  in_schema inherited old t ∧
  ∃ od nd, lookup inherited old t = Ok od ∧
           lookup inherited new t = Ok nd ∧ truthy nd = true ∧
           diffTables diffArrays (sharedPath t) od nd = Ok tc ∧
           truthy (indexDiff tc) = true.
Proof.
  intros Hd%diff_Ok.
  rewrite (foldl_diffTable_entries change
             (λ t x, x.1 = t ∧ in_schema inherited old t ∧
                ∃ od nd, lookup inherited old t = Ok od ∧
                  lookup inherited new t = Ok nd ∧ truthy nd = true ∧
                  diffTables diffArrays (sharedPath t) od nd = Ok x.2 ∧
                  truthy (indexDiff x.2) = true)
             old new _ (λ d0 d1 u _, diffTable_change old new d0 d1 u)
             _ _ Hd).
  simpl. split.
  - intros [?%elem_of_nil|(u & Hu & -> & Hold & Hrest)]; [done|].
    split; [|done]. by apply allTableNames_elem in Hu as [_ ?].
  - intros (Hdecl & Hold & Hrest). right. exists t.
    split; [|done]. by apply elem_of_js_set, elem_of_app.
Qed.

(** The arrays of a diff do not contradict one another. *)
Lemma diff_consistent old new d t :
  diff old new = Ok d →
  (t ∈ (add d).*1 → t ∈ tablesToRebuild d ∧ (t ∉ (change d).*1)) ∧
  (t ∈ remove d →
   (t ∉ (add d).*1) ∧ (t ∉ (change d).*1) ∧ (t ∉ tablesToRebuild d)).
Proof.
  intros Hd. split.
  - intros ([u def] & -> & Hin)%list_elem_of_fmap. simpl.
    apply (diff_add_iff _ _ _ _ _ Hd) in Hin as [Hadd _]. split.
    + apply (diff_tablesToRebuild_iff _ _ _ _ _ _ _ Hd). by left.
    + intros ([u' tc] & Heq & Hin)%list_elem_of_fmap. simpl in Heq. subst u'.
      apply (diff_change_iff _ _ _ _ _ Hd) in Hin as (_ & Hold & _).
      by destruct Hadd as (_ & ? & _).
  - intros (_ & Hold & Hnull)%(diff_remove_iff _ _ _ _ _ _ _ Hd).
    split; [|split].
    + intros ([u def] & -> & Hin)%list_elem_of_fmap. simpl in *.
      apply (diff_add_iff _ _ _ _ _ Hd) in Hin as [(_ & ? & _) _]. done.
    + intros ([u tc] & -> & Hin)%list_elem_of_fmap. simpl in *.
      apply (diff_change_iff _ _ _ _ _ Hd) in Hin
        as (_ & _ & od & nd & _ & Hnd & Htr & _).
      rewrite Hnull in Hnd. by simplify_eq.
    + intros [(_ & ? & _)|(_ & _ & op & np & _ & Hp & _)]
        %(diff_tablesToRebuild_iff _ _ _ _ _ _ _ Hd); [done|].
      unfold path_of in Hp. unbind. by rewrite Hnull in Hp.
Qed.

Lemma foldl_diffTable_first old new names d0 d :
  truthy old = false →
  remove d0 = [] → change d0 = [] → tablesToRebuild d0 = (add d0).*1 →
  foldl (diffTable old new) (Ok d0) names = Ok d →
  remove d = [] ∧ change d = [] ∧ tablesToRebuild d = (add d).*1.
Proof.
  intros Hold. revert d0.
  induction names as [|t names IH]; intros d0 Hr Hc Ht Hfold;
    cbn [foldl] in Hfold; [by simplify_eq|].
  destruct (diffTable old new (Ok d0) t) as [d1|e] eqn:Hstep.
  2:{ rewrite foldl_Throw in Hfold; [done|]. apply diffTable_Throw. }
  apply (IH d1); [..|done].
  all: unfold Schemas.diffTable in Hstep; unbind; rewrite Hold in Hstep;
    destruct (lookup inherited new t) as [nd|]; [|done]; simpl in Hstep;
    destruct (strict_eq nd JNull) eqn:Hnull; simpl in Hstep;
    [apply strict_eq_null in Hnull as ->; simpl in Hstep; by simplify_eq|].
  all: simplify_eq; simpl; try done.
  by rewrite fmap_app, Ht.
Qed.

Lemma foldl_diffTable_steps old new names d0 d t :
  foldl (diffTable old new) (Ok d0) names = Ok d →
  t ∈ names →
  ∃ d1 d2, diffTable old new (Ok d1) t = Ok d2.
Proof.
  revert d0. induction names as [|u names IH]; intros d0 Hfold;
    [by intros ?%elem_of_nil|].
  cbn [foldl] in Hfold.
  destruct (diffTable old new (Ok d0) u) as [d1|e] eqn:Hstep.
  2:{ rewrite foldl_Throw in Hfold; [done|]. apply diffTable_Throw. }
  intros [->|Hin]%elem_of_cons; [by eauto|]. by eapply IH.
Qed.

End diff_properties.

(** X19.  On every pair of schemas that [diff] accepts, the [add] array holds
    exactly the tables that the new schema declares and does not set to
    [null] and that are no name [in] the old schema (no key of it, and no
    name it inherits), each with the definition the new schema gives it. *)
Theorem diff_add_exact inherited sharedPath diffArrays old new d t def :
  diff inherited sharedPath diffArrays old new = Ok d →
  (t, def) ∈ add d ↔ newly_added inherited old new t ∧ get new t = Ok def.
Proof. apply diff_add_iff. Qed.

Lemma diff_add_exact_witness :
  let likes := JObj [("path", JStr "/likes/*.json"); ("index", JArr [] [])] in
  diff object_runtime nothing_shared noIndexDelta schema_v1 schema_v2_moved
    = Ok {| add := [("likes", likes)]; change := []; remove := [];
            tablesToRebuild := ["posts"; "likes"] |} ∧
  (("likes", likes) ∈ [("likes", likes)] ↔
   newly_added object_runtime schema_v1 schema_v2_moved "likes"
   ∧ get schema_v2_moved "likes" = Ok likes).
Proof.
  assert (diff object_runtime nothing_shared noIndexDelta
            schema_v1 schema_v2_moved
    = Ok {| add := [("likes", JObj [("path", JStr "/likes/*.json");
                                    ("index", JArr [] [])])];
            change := []; remove := [];
            tablesToRebuild := ["posts"; "likes"] |}) as Hd
    by (vm_compute; reflexivity).
  exact (conj Hd (diff_add_exact _ _ _ _ _ _ "likes" _ Hd)).
Defined.

(** X20.  On every pair of schemas that [diff] accepts, the [change] array
    holds exactly the tables that are a name [in] the old schema (a key of
    it, or a name it inherits) and to which the new schema gives a truthy
    definition with an index delta: the entry of a table is what
    [diffTables] returns for the two definitions as [diff] reads them, and
    its [indexDiff] is truthy. *)
Theorem diff_change_exact inherited sharedPath diffArrays old new d t tc :
  diff inherited sharedPath diffArrays old new = Ok d →
  (t, tc) ∈ change d ↔
  (t ∈ getTableNames old ∨ t ∈ getTableNames new) ∧
  in_schema inherited old t ∧
  ∃ od nd, lookup inherited old t = Ok od ∧
           lookup inherited new t = Ok nd ∧ truthy nd = true ∧
           diffTables diffArrays (sharedPath t) od nd = Ok tc ∧
           truthy (indexDiff tc) = true.
Proof. apply diff_change_iff. Qed.

Lemma diff_change_exact_witness :
  let delta := {| indexDiff := JObj [("add", JArr [JStr "a"] []);
                                     ("remove", JUndefined)];
                  needsRebuild := JUndefined |} in
  diff object_runtime nothing_shared replaceIndexes
    schema_v1_bare schema_v2_constructor
    = Ok {| add := []; change := [("constructor", delta)]; remove := [];
            tablesToRebuild := [] |} ∧
  (("constructor", delta) ∈ [("constructor", delta)] ↔
   ("constructor" ∈ getTableNames schema_v1_bare
    ∨ "constructor" ∈ getTableNames schema_v2_constructor) ∧
   in_schema object_runtime schema_v1_bare "constructor" ∧
   ∃ od nd, lookup object_runtime schema_v1_bare "constructor" = Ok od ∧
            lookup object_runtime schema_v2_constructor "constructor" = Ok nd ∧
            truthy nd = true ∧
            diffTables replaceIndexes (nothing_shared "constructor") od nd
            = Ok delta ∧
            truthy (indexDiff delta) = true).
Proof.
  split; [vm_compute; reflexivity|].
  exact (diff_change_exact object_runtime nothing_shared replaceIndexes
           schema_v1_bare schema_v2_constructor _ "constructor" _ eq_refl).
Defined.

(** A table of both schemas whose index is declared anew. *)
Example diff_changes_declared_table :
  diff object_runtime nothing_shared replaceIndexes schema_v1 schema_v2_moved
  = Ok {| add := [("likes", JObj [("path", JStr "/likes/*.json");
                                  ("index", JArr [] [])])];
          change := [("posts",
                      {| indexDiff :=
                           JObj [("add", JArr [JStr "createdAt"] []);
                                 ("remove", JArr [JStr "createdAt"] [])];
                         needsRebuild := JBool true |})];
          remove := [];
          tablesToRebuild := ["posts"; "likes"] |}.
Proof. vm_compute; reflexivity. Qed.

(** X21.  The arrays of a diff do not contradict one another: a table that is
    added is flagged for rebuild and is not changed; a table that is removed
    is not added, not changed and not flagged for rebuild. *)
Theorem diff_arrays_consistent inherited sharedPath diffArrays old new d t :
  diff inherited sharedPath diffArrays old new = Ok d →
  (t ∈ (add d).*1 → t ∈ tablesToRebuild d ∧ (t ∉ (change d).*1)) ∧
  (t ∈ remove d →
   (t ∉ (add d).*1) ∧ (t ∉ (change d).*1) ∧ (t ∉ tablesToRebuild d)).
Proof. apply diff_consistent. Qed.

Lemma diff_arrays_consistent_witness :
  diff object_runtime nothing_shared noIndexDelta schema_v1 schema_v2_moved
    = Ok {| add := [("likes", JObj [("path", JStr "/likes/*.json");
                                    ("index", JArr [] [])])];
            change := []; remove := [];
            tablesToRebuild := ["posts"; "likes"] |} ∧
  ("likes" ∈ ["likes"] →
   "likes" ∈ ["posts"; "likes"] ∧ ("likes" ∉ ([] : list string))) ∧
  ("likes" ∈ ([] : list string) →
   ("likes" ∉ ["likes"]) ∧ ("likes" ∉ ([] : list string))
   ∧ ("likes" ∉ ["posts"; "likes"])).
Proof.
  assert (diff object_runtime nothing_shared noIndexDelta
            schema_v1 schema_v2_moved
    = Ok {| add := [("likes", JObj [("path", JStr "/likes/*.json");
                                    ("index", JArr [] [])])];
            change := []; remove := [];
            tablesToRebuild := ["posts"; "likes"] |}) as Hd
    by (vm_compute; reflexivity).
  exact (conj Hd (diff_arrays_consistent _ _ _ _ _ _ "likes" Hd)).
Defined.

(** X22.  The diff for a first version (no old schema): nothing is removed
    and nothing changed; the tables added are the tables of the schema that
    are not set to [null], each with its definition; and the tables flagged
    for rebuild are the tables added, in the same order. *)
Theorem diff_first_version inherited sharedPath diffArrays old new d :
  truthy old = false →
  diff inherited sharedPath diffArrays old new = Ok d →
  remove d = [] ∧ change d = [] ∧ tablesToRebuild d = (add d).*1 ∧
  ∀ t def, (t, def) ∈ add d ↔
           t ∈ getTableNames new ∧ get new t = Ok def ∧ def ≠ JNull.
Proof.
  intros Hold Hd.
  destruct (foldl_diffTable_first _ _ _ _ _ _ emptyDiff _ Hold eq_refl eq_refl
              eq_refl (diff_Ok _ _ _ _ _ _ Hd)) as (Hr & Hc & Ht).
  split; [done|]. split; [done|]. split; [done|].
  intros t def. rewrite (diff_add_iff _ _ _ _ _ _ _ _ Hd). unfold newly_added.
  assert (¬ in_schema inherited old t) as Hno.
  { intros [? _]. congruence. }
  split.
  - intros [(? & _ & Hne) Hget]. split; [done|]. split; [done|]. congruence.
  - intros (? & Hget & Hne). split; [|done]. split; [done|]. split; [done|].
    congruence.
Qed.

Lemma diff_first_version_witness :
  let posts := JObj [("path", JStr "/posts/*.json");
                     ("index", JArr [JStr "createdAt"] [])] in
  diff object_runtime nothing_shared noIndexDelta JUndefined schema_v1
    = Ok {| add := [("posts", posts)]; change := []; remove := [];
            tablesToRebuild := ["posts"] |} ∧
  ([] : list string) = [] ∧ ([] : list (string * tableChanges)) = [] ∧
  ["posts"] = [("posts", posts)].*1 ∧
  ∀ t def, (t, def) ∈ [("posts", posts)] ↔
           t ∈ getTableNames schema_v1 ∧ get schema_v1 t = Ok def
           ∧ def ≠ JNull.
Proof.
  split; [vm_compute; reflexivity|].
  exact (diff_first_version object_runtime nothing_shared noIndexDelta
           JUndefined schema_v1 _ eq_refl eq_refl).
Defined.

(** X23.  [diff] throws when the new schema gives a definition with an index
    or a path to a table that the old schema holds as [null] (a table that
    was deleted) or as [undefined]: the definitions are compared field by
    field, and the old one has no field to read. *)
Theorem diff_throws_on_table_declared_again
    inherited sharedPath diffArrays old new t od nd :
  t ∈ getTableNames old →
  get old t = Ok od → od = JNull ∨ od = JUndefined →
  get new t = Ok nd →
  (∃ x, get nd "index" = Ok x ∧ truthy x = true) ∨
  (∃ x, get nd "path" = Ok x ∧ truthy x = true) →
  ∃ e, diff inherited sharedPath diffArrays old new = Throw e.
Proof.
  intros Hold Hod Hgone Hnd Hfield.
  destruct (diff inherited sharedPath diffArrays old new) as [d|e] eqn:Hd;
    [|by exists e].
  apply diff_Ok in Hd.
  destruct (foldl_diffTable_steps _ _ _ _ _ _ _ _ t Hd) as (d1 & d2 & Hstep).
  { apply elem_of_js_set, elem_of_app. by left. }
  exfalso. unfold diffTable in Hstep. unbind.
  destruct (if truthy old then _ else _) as [b|] eqn:Hin; [|done].
  rewrite (oldSchemaHasTable_own _ _ _ _ Hin Hold) in Hstep.
  assert (truthy nd = true) as Hnt.
  { destruct Hfield as [(x & Hx & Ht)|(x & Hx & Ht)]; by eapply get_truthy. }
  assert (lookup inherited new t = Ok nd) as Hlnd.
  { apply lookup_own; [done|]. eapply get_has_own; [done|]. by intros ->. }
  rewrite Hlnd, (lookup_table _ _ _ Hold), Hod in Hstep.
  assert (strict_eq nd JNull = false) as Hnull.
  { destruct (strict_eq nd JNull) eqn:Heq; [|done].
    apply strict_eq_null in Heq as ->. done. }
  rewrite Hnull, Hnt in Hstep. simpl in Hstep.
  unfold diffTables in Hstep. unbind.
  destruct (get nd "index") as [nidx|] eqn:Hnidx; [|done].
  destruct (truthy nidx) eqn:Hit.
  { by destruct Hgone as [-> | ->]. }
  destruct (get nd "path") as [npath|] eqn:Hnpath; [|done].
  destruct (truthy npath) eqn:Hpt.
  { by destruct Hgone as [-> | ->]. }
  destruct Hfield as [(x & [= <-] & Ht)|(x & [= <-] & Ht)]; congruence.
Qed.

Lemma diff_throws_on_table_declared_again_witness :
  diff object_runtime nothing_shared noIndexDelta schema_v1 schema_v2_null
    = Ok (push_remove emptyDiff "posts") ∧
  ∃ e, diff object_runtime nothing_shared noIndexDelta
         schema_v2_null schema_v3_again = Throw e.
Proof.
  split; [vm_compute; reflexivity|].
  refine (diff_throws_on_table_declared_again object_runtime nothing_shared
            noIndexDelta schema_v2_null
            schema_v3_again "posts" JNull _ _ eq_refl (or_introl eq_refl)
            eq_refl _).
  - apply (bool_decide_unpack _). vm_compute. exact I.
  - left. eexists. split; [reflexivity|reflexivity].
Defined.

(** ** The active tables *)

Lemma elem_of_set_add x y l : x ∈ set_add y l ↔ x = y ∨ x ∈ l.
Proof.
  unfold set_add. case_bool_decide as Hy.
  - split; [by right|]. by intros [->|?].
  - rewrite elem_of_app, list_elem_of_singleton. tauto.
Qed.

Lemma elem_of_set_delete x y l : x ∈ set_delete y l ↔ x ≠ y ∧ x ∈ l.
Proof. unfold set_delete. by rewrite list_elem_of_filter. Qed.

Lemma NoDup_set_add y l : NoDup l → NoDup (set_add y l).
Proof.
  intros Hnd. unfold set_add. case_bool_decide as Hy; [done|].
  apply NoDup_app. split; [done|]. split; [|apply NoDup_singleton].
  by intros x Hx ->%list_elem_of_singleton.
Qed.

Lemma NoDup_set_delete y l : NoDup l → NoDup (set_delete y l).
Proof. intros Hnd. by apply NoDup_filter. Qed.

Lemma activate_Throw schema e t : activate schema (Throw e) t = Throw e.
Proof. done. Qed.

Lemma activate_round schema names t :
  t ∈ getTableNames schema →
  ∃ names',
    activate schema (Ok names) t = Ok names' ∧
    (NoDup names → NoDup names') ∧
    ∀ x, x ∈ names' ↔
         (x = t ∧ get schema t ≠ Ok JNull) ∨ (x ≠ t ∧ x ∈ names).
Proof.
  intros (Htruthy & _ & _)%elem_of_getTableNames.
  destruct (get_defined schema t) as [table Htable].
  { by intros ->. } { by intros ->. }
  unfold activate. unbind. rewrite Htable.
  destruct (strict_eq table JNull) eqn:Hnull.
  - apply strict_eq_null in Hnull as ->. eexists. split; [done|].
    split; [apply NoDup_set_delete|].
    intros x. rewrite elem_of_set_delete. naive_solver.
  - assert (Ok table ≠ Ok JNull) as Hne.
    { intros [= ->]. by rewrite (proj2 (strict_eq_null JNull)) in Hnull. }
    eexists. split; [done|]. split; [apply NoDup_set_add|].
    intros x. rewrite elem_of_set_add.
    destruct (decide (x = t)) as [->|?]; naive_solver.
Qed.

Lemma foldl_activate schema ts names :
  (∀ t, t ∈ ts → t ∈ getTableNames schema) →
  ∃ names',
    foldl (activate schema) (Ok names) ts = Ok names' ∧
    (NoDup names → NoDup names') ∧
    ∀ x, x ∈ names' ↔
         (x ∈ ts ∧ get schema x ≠ Ok JNull) ∨ ((x ∉ ts) ∧ x ∈ names).
Proof.
  revert names. induction ts as [|t ts IH]; intros names Hts; cbn [foldl].
  - exists names. split; [done|]. split; [done|]. intros x.
    rewrite elem_of_nil. naive_solver.
  - destruct (activate_round schema names t) as (names1 & -> & Hnd1 & Hin1).
    { apply Hts. by left. }
    destruct (IH names1) as (names' & -> & Hnd' & Hin').
    { intros u Hu. apply Hts. by right. }
    exists names'. split; [done|]. split; [by auto|].
    intros x. rewrite Hin', Hin1, elem_of_cons.
    destruct (decide (x = t)) as [->|?]; destruct (decide (t ∈ ts));
      naive_solver.
Qed.

Lemma last_declared_snoc schemas schema t :
  last_declared (schemas ++ [schema]) t ↔
  (t ∈ getTableNames schema ∧ get schema t ≠ Ok JNull) ∨
  ((t ∉ getTableNames schema) ∧ last_declared schemas t).
Proof.
  split.
  - intros (before & s & after & Heq & Hin & Hne & Hafter).
    destruct after as [|s' after _] using rev_ind.
    + apply app_inj_tail in Heq as [_ ->]. by left.
    + rewrite app_comm_cons, app_assoc in Heq.
      apply app_inj_tail in Heq as [-> ->].
      apply Forall_app in Hafter as [Hafter Hlast].
      right. split; [exact (proj1 (Forall_singleton _ _) Hlast)|].
      by exists before, s, after.
  - intros [[Hin Hne]|[Hno (before & s & after & -> & Hin & Hne & Hafter)]].
    + exists schemas, schema, []. by repeat split.
    + exists before, s, (after ++ [schema]).
      split; [by rewrite <-app_assoc|]. split; [done|]. split; [done|].
      apply Forall_app. split; [done|]. by apply Forall_singleton.
Qed.

Lemma foldl_schemas_activate schemas :
  ∃ names,
    foldl (λ acc schema, foldl (activate schema) acc (getTableNames schema))
      (Ok []) schemas = Ok names ∧
    NoDup names ∧ ∀ t, t ∈ names ↔ last_declared schemas t.
Proof.
  induction schemas as [|schema schemas (names & IH & Hnd & Hin)] using rev_ind.
  - exists []. split; [done|]. split; [constructor|]. intros t.
    split; [by intros ?%elem_of_nil|].
    intros (before & s & after & Heq & _). by destruct before.
  - rewrite foldl_snoc, IH.
    destruct (foldl_activate schema (getTableNames schema) names)
      as (names' & -> & Hnd' & Hin'); [done|].
    exists names'. split; [done|]. split; [by auto|].
    intros t. rewrite Hin', last_declared_snoc, Hin. done.
Qed.

Lemma getActiveTableNames_run db schemas named :
  assoc_get "schemas" db = Some (JArr schemas named) →
  getActiveTableNames db
  = foldl (λ acc schema, foldl (activate schema) acc (getTableNames schema))
      (Ok []) schemas.
Proof. intros Hs. unfold getActiveTableNames. unbind. simpl. by rewrite Hs. Qed.

(** X24.  The active tables of a database whose [schemas] is an array: the
    names are distinct, and a table is active exactly when the last schema of
    the array that names it does not set it to [null].  (A table that a
    later version leaves out stays active; [null] ends it; a version after
    that may declare it again.) *)
Theorem getActiveTableNames_last_declaration db schemas named :
  assoc_get "schemas" db = Some (JArr schemas named) →
  ∃ names,
    getActiveTableNames db = Ok names ∧
    NoDup names ∧ ∀ t, t ∈ names ↔ last_declared schemas t.
Proof.
  intros Hs. rewrite (getActiveTableNames_run _ _ _ Hs).
  apply foldl_schemas_activate.
Qed.

Lemma getActiveTableNames_last_declaration_witness :
  getActiveTableNames db_object = Ok ["posts"; "likes"] ∧
  ∃ names,
    getActiveTableNames db_object = Ok names ∧
    NoDup names ∧ ∀ t, t ∈ names ↔ last_declared declared_schemas t.
Proof.
  split; [vm_compute; reflexivity|].
  exact (getActiveTableNames_last_declaration db_object _ [] eq_refl).
Defined.

(** ** The tables of the database object *)

Lemma assoc_get_delete {A} (k k' : string) (ps : list (string * A)) :
  assoc_get k (assoc_delete k' ps)
  = if String.eqb k k' then None else assoc_get k ps.
Proof.
  unfold assoc_delete. induction ps as [|[k0 v0] ps IH]; simpl.
  - by destruct (String.eqb k k').
  - rewrite filter_cons. simpl. destruct (decide (k0 ≠ k')) as [Hne|Heq].
    + simpl. rewrite IH. destruct (String.eqb_spec k k0) as [->|?]; [|done].
      by destruct (String.eqb_spec k0 k').
    + apply dec_stable in Heq as ->. rewrite IH.
      by destruct (String.eqb_spec k k').
Qed.

Lemma addTables_fold db names schemas named :
  assoc_get "schemas" db = Some (JArr schemas named) →
  "schemas" ∉ names →
  ∃ db',
    foldl (λ acc tableName,
             db ← acc;
             schemas ← get (JObj db) "schemas";
             declared ← get schemas tableName;
             if strict_eq declared JNull then Ok db
             else Ok (assoc_set tableName (JBool true) db))
          (Ok db) names = Ok db' ∧
    (∀ k, k ∈ names → get (JArr schemas named) k ≠ Ok JNull →
          assoc_get k db' = Some (JBool true)) ∧
    (∀ k, k ∈ names → get (JArr schemas named) k = Ok JNull →
          assoc_get k db' = assoc_get k db) ∧
    (∀ k, k ∉ names → assoc_get k db' = assoc_get k db).
Proof.
  revert db. induction names as [|t names IH]; intros db Hs Hno; cbn [foldl].
  - exists db. split; [done|]. by repeat split; intros k ?%elem_of_nil.
  - assert (t ≠ "schemas") as Ht by (intros ->; apply Hno; by left).
    assert ("schemas" ∉ names) as Hno' by (intros ?; apply Hno; by right).
    assert (get (JObj db) "schemas" = Ok (JArr schemas named)) as Hget.
    { simpl. by rewrite Hs. }
    unbind. rewrite Hget.
    destruct (get (JArr schemas named) t) as [declared|] eqn:Hdecl; [|done].
    destruct (strict_eq declared JNull) eqn:Hnull.
    + apply strict_eq_null in Hnull as ->.
      destruct (IH db Hs Hno') as (db' & -> & Hset & Hskip & Hother).
      exists db'. split; [done|]. split; [|split].
      * intros k [->|Hk]%elem_of_cons Hne; [done|by apply Hset].
      * intros k [->|Hk]%elem_of_cons Heq; [|by apply Hskip].
        destruct (decide (t ∈ names)); [by apply Hskip|by apply Hother].
      * intros k Hk. apply Hother. intros ?. apply Hk. by right.
    + assert (declared ≠ JNull) as Hne.
      { intros ->. by rewrite (proj2 (strict_eq_null JNull)) in Hnull. }
      destruct (IH (assoc_set t (JBool true) db)) as (db' & -> & Hset & Hskip & Hother);
        [|done|].
      { rewrite assoc_get_set. by destruct (String.eqb_spec "schemas" t). }
      exists db'. split; [done|]. split; [|split].
      * intros k [->|Hk]%elem_of_cons Hk'; [|by apply Hset].
        destruct (decide (t ∈ names)); [by apply Hset|].
        rewrite Hother by done. by rewrite assoc_get_set, String.eqb_refl.
      * intros k [->|Hk]%elem_of_cons Heq; [congruence|].
        rewrite Hskip by done. rewrite assoc_get_set.
        destruct (String.eqb_spec k t) as [->|?]; [congruence|done].
      * intros k Hk. rewrite Hother.
        2:{ intros ?. apply Hk. by right. }
        rewrite assoc_get_set. destruct (String.eqb_spec k t) as [->|?]; [|done].
        destruct Hk. by left.
Qed.

Lemma addTables_run db schemas named names :
  assoc_get "schemas" db = Some (JArr schemas named) →
  getActiveTableNames db = Ok names →
  "schemas" ∉ names →
  ∃ db',
    addTables db = Ok db' ∧
    (∀ k, k ∈ names → get (JArr schemas named) k ≠ Ok JNull →
          assoc_get k db' = Some (JBool true)) ∧
    (∀ k, k ∈ names → get (JArr schemas named) k = Ok JNull →
          assoc_get k db' = assoc_get k db) ∧
    (∀ k, k ∉ names → assoc_get k db' = assoc_get k db).
Proof.
  intros Hs Hnames Hno. unfold addTables. unbind. rewrite Hnames.
  by apply addTables_fold.
Qed.

(** X25.  [addTables] on a database whose [schemas] is an array and that has
    no active table named [schemas]: the property of every active table is
    set to [true], but for a name under which the array [db.schemas] itself
    holds [null]; the other properties of the database are as they were. *)
Theorem addTables_marks_active_tables db schemas named names :
  assoc_get "schemas" db = Some (JArr schemas named) →
  getActiveTableNames db = Ok names →
  "schemas" ∉ names →
  ∃ db',
    addTables db = Ok db' ∧
    (∀ k, k ∈ names → get (JArr schemas named) k ≠ Ok JNull →
          assoc_get k db' = Some (JBool true)) ∧
    (∀ k, k ∈ names → get (JArr schemas named) k = Ok JNull →
          assoc_get k db' = assoc_get k db) ∧
    (∀ k, k ∉ names → assoc_get k db' = assoc_get k db).
Proof. apply addTables_run. Qed.

Lemma addTables_marks_active_tables_witness :
  addTables db_object
    = Ok (db_object ++ [("posts", JBool true); ("likes", JBool true)]) ∧
  ∃ db',
    addTables db_object = Ok db' ∧
    (∀ k, k ∈ ["posts"; "likes"] →
          get (JArr declared_schemas []) k ≠ Ok JNull →
          assoc_get k db' = Some (JBool true)) ∧
    (∀ k, k ∈ ["posts"; "likes"] →
          get (JArr declared_schemas []) k = Ok JNull →
          assoc_get k db' = assoc_get k db_object) ∧
    (∀ k, k ∉ ["posts"; "likes"] → assoc_get k db' = assoc_get k db_object).
Proof.
  split; [vm_compute; reflexivity|].
  refine (addTables_marks_active_tables db_object declared_schemas []
            ["posts"; "likes"] eq_refl _ _).
  - vm_compute. reflexivity.
  - apply (bool_decide_unpack _). vm_compute. exact I.
Defined.

Lemma foldl_assoc_delete {A} (db : list (string * A)) names k :
  assoc_get k (foldl (λ db tableName, assoc_delete tableName db) db names)
  = if decide (k ∈ names) then None else assoc_get k db.
Proof.
  revert db. induction names as [|t names IH]; intros db; [done|].
  cbn [foldl]. rewrite IH, assoc_get_delete.
  destruct (decide (k ∈ names)) as [Hin|Hnin].
  - rewrite decide_True; [done|]. by right.
  - destruct (String.eqb_spec k t) as [->|Hne].
    + rewrite decide_True; [done|]. by left.
    + rewrite decide_False; [done|]. by intros [?|?]%elem_of_cons.
Qed.

(** X26.  [removeTables] after [addTables], on a database whose [schemas] is
    an array and that has no active table named [schemas]: no active table
    is a property of the database any more, and the other properties are as
    they were before [addTables]. *)
Theorem removeTables_undoes_addTables db schemas named names db' :
  assoc_get "schemas" db = Some (JArr schemas named) →
  getActiveTableNames db = Ok names →
  "schemas" ∉ names →
  addTables db = Ok db' →
  ∃ db'',
    removeTables db' = Ok db'' ∧
    (∀ k, k ∈ names → assoc_get k db'' = None) ∧
    (∀ k, k ∉ names → assoc_get k db'' = assoc_get k db).
Proof.
  intros Hs Hnames Hno Hadd.
  destruct (addTables_run _ _ _ _ Hs Hnames Hno)
    as (db1 & Hadd' & _ & _ & Hother).
  rewrite Hadd in Hadd'. injection Hadd' as <-.
  assert (getActiveTableNames db' = Ok names) as Hnames'.
  { rewrite (getActiveTableNames_run db' schemas named).
    - by rewrite <-(getActiveTableNames_run db schemas named Hs).
    - by rewrite Hother. }
  unfold removeTables. unbind. rewrite Hnames'. eexists. split; [done|].
  split; intros k Hk; rewrite foldl_assoc_delete.
  - by rewrite decide_True.
  - rewrite decide_False by done. by apply Hother.
Qed.

Lemma removeTables_undoes_addTables_witness :
  addTables db_object
    = Ok (db_object ++ [("posts", JBool true); ("likes", JBool true)]) ∧
  ∃ db'',
    removeTables (db_object ++ [("posts", JBool true); ("likes", JBool true)])
      = Ok db'' ∧
    (∀ k, k ∈ ["posts"; "likes"] → assoc_get k db'' = None) ∧
    (∀ k, k ∉ ["posts"; "likes"] → assoc_get k db'' = assoc_get k db_object).
Proof.
  assert (addTables db_object
    = Ok (db_object ++ [("posts", JBool true); ("likes", JBool true)])) as Hadd
    by (vm_compute; reflexivity).
  split; [exact Hadd|].
  refine (removeTables_undoes_addTables db_object declared_schemas []
            ["posts"; "likes"] _ eq_refl _ _ Hadd).
  - vm_compute. reflexivity.
  - apply (bool_decide_unpack _). vm_compute. exact I.
Defined.

(** ** Applying a diff *)

Lemma get_throws_TypeError v k e : get v k = Throw e → e = TypeError.
Proof. destruct v; simpl; by intros [= ]. Qed.

Lemma forEach_elems_throws_TypeError v e :
  forEach_elems v = Throw e → e = TypeError.
Proof. destruct v; simpl; by intros [= ]. Qed.

Lemma addIndex_throws_TypeError tableStore index e :
  (addIndex tableStore index).2 = Throw e → e = TypeError.
Proof.
  destruct index; simpl; try by intros [= ]. by case_bool_decide.
Qed.

Lemma addIndex_non_string tableStore index :
  (∀ i, index ≠ JStr i) → addIndex tableStore index = ([], Throw TypeError).
Proof. intros Hi. destruct index; try done. by destruct (Hi s). Qed.

Lemma forEach_throws_TypeError {A} (f : A → Tx unit) (l : list A) :
  (∀ x e, x ∈ l → (f x).2 = Throw e → e = TypeError) →
  ∀ e, (forEach f l).2 = Throw e → e = TypeError.
Proof.
  induction l as [|y l IH]; intros Hf e; simpl; [done|].
  unfold mbind, Tx_bind.
  destruct (f y) as [c [[]|e']] eqn:Hy.
  - destruct (forEach f l) as [c' r] eqn:Hl. simpl. intros ->.
    eapply IH; [|done]. intros x e0 Hx. apply Hf. by right.
  - simpl. intros [= <-]. apply (Hf y); [by left|]. by rewrite Hy.
Qed.

Lemma forEach_throws {A} (f : A → Tx unit) (l : list A) x :
  (∀ y e, y ∈ l → (f y).2 = Throw e → e = TypeError) →
  x ∈ l → (f x).2 = Throw TypeError →
  (forEach f l).2 = Throw TypeError.
Proof.
  induction l as [|y l IH]; intros Hf Hx Hthrow; [by apply elem_of_nil in Hx|].
  simpl. unfold mbind, Tx_bind.
  destruct (f y) as [c [[]|e']] eqn:Hy.
  - apply elem_of_cons in Hx as [->|Hx]; [by rewrite Hy in Hthrow|].
    destruct (forEach f l) as [c' r] eqn:Hl. simpl.
    apply IH; [|done..]. intros z e0 Hz. apply Hf. by right.
  - simpl. f_equal. apply (Hf y); [by left|]. by rewrite Hy.
Qed.

Lemma forEach_calls_return {A} (f : A → StoreCall) (l : list A) :
  (forEach (λ x, call (f x)) l).2 = Ok ().
Proof.
  induction l as [|y l IH]; [done|]. simpl. unfold mbind, Tx_bind. simpl.
  destruct (forEach _ l) as [c r]. by simpl in *.
Qed.

Lemma foldl_andb {A} (f : A → bool) (b : bool) (l : list A) :
  foldl (λ acc e, acc && f e) b l = b && forallb f l.
Proof.
  revert b. induction l as [|x l IH]; intros b; simpl.
  - by rewrite andb_true_r.
  - by rewrite IH, andb_assoc.
Qed.

Lemma isArrayOfStrings_false es nm :
  isArrayOfStrings (JArr es nm) = false → ∃ x, x ∈ es ∧ ∀ i, x ≠ JStr i.
Proof.
  unfold isArrayOfStrings. rewrite foldl_andb. simpl.
  induction es as [|x es IH]; simpl; [done|].
  destruct (String.eqb (typeof x) "string") eqn:Hx; simpl.
  - intros (y & Hy & Hno)%IH. exists y. split; [by right|done].
  - intros _. exists x. split; [by left|]. intros i ->. by vm_compute in Hx.
Qed.

(** The round of [applyDiff] for a table added. *)
Lemma applyDiff_add_round_throws tableName tableDef e :
  (_ ← call (CreateObjectStore tableName "url");
   index ← liftTx (get tableDef "index");
   indexes ← liftTx (forEach_elems index);
   forEach (addIndex tableName) indexes).2 = Throw e →
  e = TypeError.
Proof.
  unfold mbind, Tx_bind, call, liftTx.
  destruct (get tableDef "index") as [index|e'] eqn:Hget; simpl.
  2:{ intros [= <-]. by eapply get_throws_TypeError. }
  destruct (forEach_elems index) as [indexes|e'] eqn:Helems; simpl.
  2:{ intros [= <-]. by eapply forEach_elems_throws_TypeError. }
  destruct (forEach (addIndex tableName) indexes) as [c r] eqn:Hall. simpl.
  intros ->. apply (forEach_throws_TypeError (addIndex tableName) indexes).
  - intros x e0 _. apply addIndex_throws_TypeError.
  - by rewrite Hall.
Qed.

Lemma applyDiff_add_round_malformed tableName tableDef es nm x :
  get tableDef "index" = Ok (JArr es nm) →
  x ∈ es → (∀ i, x ≠ JStr i) →
  (_ ← call (CreateObjectStore tableName "url");
   index ← liftTx (get tableDef "index");
   indexes ← liftTx (forEach_elems index);
   forEach (addIndex tableName) indexes).2 = Throw TypeError.
Proof.
  intros Hget Hx Hno. unfold mbind, Tx_bind, call, liftTx. rewrite Hget. simpl.
  pose proof (forEach_throws (addIndex tableName) es x
                (λ y e _, addIndex_throws_TypeError tableName y e) Hx) as Hthrow.
  rewrite (addIndex_non_string _ _ Hno) in Hthrow. specialize (Hthrow eq_refl).
  destruct (forEach (addIndex tableName) es) as [c r]. by simpl in *.
Qed.

Lemma applyDiff_malformed_index d t def es nm x :
  (t, def) ∈ add d →
  get def "index" = Ok (JArr es nm) →
  x ∈ es → (∀ i, x ≠ JStr i) →
  (applyDiff d).2 = Throw TypeError.
Proof.
  intros Hin Hget Hx Hno. unfold applyDiff.
  pose proof (forEach_calls_return DeleteObjectStore (remove d)) as Hremove.
  unfold mbind at 1, Tx_bind at 1.
  destruct (forEach _ (remove d)) as [c1 r1]. simpl in Hremove. subst r1.
  match goal with |- context [forEach ?f (add d)] => set (round := f) end.
  assert ((forEach round (add d)).2 = Throw TypeError) as Hadd.
  { apply (forEach_throws round (add d) (t, def)); [|done|].
    - intros [u def'] e _. apply applyDiff_add_round_throws.
    - by eapply applyDiff_add_round_malformed. }
  unfold mbind at 1, Tx_bind at 1.
  destruct (forEach round (add d)) as [c2 r2]. simpl in Hadd. by subst r2.
Qed.

(** X27.  A table that [validateAndSanitize] lets through with an index
    specifier that is not a string or an array of strings (the specifier may
    be missing: it is arrayified to the array of [undefined]) cannot be
    created: when [diff] adds the table (the table is no name [in] the old
    schema), [applyDiff] throws a [TypeError], [addIndex] having called
    [split] on what is no string. *)
Theorem applyDiff_throws_on_malformed_index
    inherited sharedPath diffArrays old ps schema' d t def :
  NoDup ps.*1 →
  validateAndSanitize (JObj ps) = Ok schema' →
  diff inherited sharedPath diffArrays old schema' = Ok d →
  t ≠ "version" → ¬ in_schema inherited old t →
  assoc_get t ps = Some (JObj def) →
  isArrayOfStrings (arrayify (default JUndefined (assoc_get "index" def)))
  = false →
  (applyDiff d).2 = Throw TypeError.
Proof.
  intros Hnd Hvalid Hd Hv Hold Htable Hbad.
  destruct (validateAndSanitize_sanitized _ _ Hnd Hvalid)
    as (ps' & -> & Hkeys & _ & _ & Hsan).
  destruct (Hsan t _ Hv Htable) as (table' & Htable' & _ & Hset).
  destruct Hset as (tidx & Htidx & Hset); [done|].
  simpl in Htidx. injection Htidx as <-.
  simpl in Hset. injection Hset as <-.
  set (tidx := default JUndefined (assoc_get "index" def)) in *.
  assert (∃ es nm, arrayify tidx = JArr es nm) as (es & nm & Harr).
  { unfold arrayify. destruct tidx; simpl; by eauto. }
  rewrite Harr in *.
  apply isArrayOfStrings_false in Hbad as (x & Hx & Hno).
  apply (applyDiff_malformed_index d t
           (JObj (assoc_set "index" (JArr es nm) def)) es nm x); [|  |done..].
  - apply (diff_add_iff _ _ _ _ _ _ _ _ Hd). simpl. rewrite Htable'.
    split; [|done]. split; [|split; [done|]].
    + unfold getTableNames. simpl. apply list_elem_of_filter. split; [done|].
      by eapply assoc_get_Some.
    + simpl. by rewrite Htable'.
  - simpl. by rewrite assoc_get_set, String.eqb_refl.
Qed.

Lemma applyDiff_throws_on_malformed_index_witness :
  validateAndSanitize (JObj [("version", JNum 1); ("posts", JObj [])])
    = Ok (JObj [("version", JNum 1);
                ("posts", JObj [("index", JArr [JUndefined] [])])]) ∧
  applyDiff {| add := [("posts", JObj [("index", JArr [JUndefined] [])])];
               change := []; remove := []; tablesToRebuild := ["posts"] |}
    = ([CreateObjectStore "posts" "url"], Throw TypeError) ∧
  (applyDiff {| add := [("posts", JObj [("index", JArr [JUndefined] [])])];
                change := []; remove := []; tablesToRebuild := ["posts"] |}).2
    = Throw TypeError.
Proof.
  split; [vm_compute; reflexivity|]. split; [vm_compute; reflexivity|].
  refine (applyDiff_throws_on_malformed_index object_runtime nothing_shared
            noIndexDelta JUndefined
            [("version", JNum 1); ("posts", JObj [])] _ _ "posts" []
            _ eq_refl eq_refl _ _ eq_refl eq_refl).
  - apply (bool_decide_unpack _). vm_compute. exact I.
  - done.
  - by intros [? _].
Defined.

(** ** Index names *)

Section index_names.
Import Stdlib.Strings.Ascii.

Lemma split_not_nil sep s : split sep s ≠ [].
Proof.
  destruct s as [|c s]; simpl; [done|].
  destruct (Ascii.eqb c sep); [done|]. by destruct (split sep s).
Qed.

(** The pieces, joined by the separator, are the string. *)
Lemma concat_split sep s :
  String.concat (String sep EmptyString) (split sep s) = s.
Proof.
  induction s as [|c s IH]; simpl; [done|].
  pose proof (split_not_nil sep s) as Hne.
  destruct (Ascii.eqb_spec c sep) as [->|_].
  - destruct (split sep s) as [|piece pieces]; [done|].
    change (String.concat ?x (?a :: ?b :: ?l))
      with (a +:+ x +:+ String.concat x (b :: l)).
    simpl. by rewrite <-IH.
  - destruct (split sep s) as [|piece [|piece' pieces]]; [done|..].
    + simpl in *. by rewrite IH.
    + change (String.concat ?x (?a :: ?b :: ?l))
        with (a +:+ x +:+ String.concat x (b :: l)) in *.
      simpl. by rewrite <-IH.
Qed.

(** One more piece than there are separators. *)
Lemma length_split sep s :
  length (split sep s)
  = S (length (filter (λ c, c = sep) (String.list_ascii_of_string s))).
Proof.
  induction s as [|c s IH]; simpl; [done|].
  pose proof (split_not_nil sep s) as Hne. rewrite filter_cons.
  destruct (Ascii.eqb_spec c sep) as [->|Hc].
  - rewrite decide_True by done. simpl. by rewrite IH.
  - rewrite decide_False by done.
    destruct (split sep s) as [|piece pieces]; [done|]. simpl in *. done.
Qed.

Lemma split_pieces sep s :
  Forall (λ piece, sep ∉ String.list_ascii_of_string piece) (split sep s).
Proof.
  induction s as [|c s IH]; simpl.
  - repeat constructor. by intros ?%elem_of_nil.
  - destruct (Ascii.eqb_spec c sep) as [->|Hc].
    + constructor; [by intros ?%elem_of_nil|done].
    + destruct (split sep s) as [|piece pieces].
      * repeat constructor. simpl. by intros [?|?%elem_of_nil]%elem_of_cons.
      * apply Forall_cons in IH as [Hpiece Hpieces]. constructor; [|done].
        simpl. by intros [?|?]%elem_of_cons.
Qed.

(** X28.  The index that [addIndex] creates for an index name: the index is
    compound ([multiEntry] true) exactly when the name contains a [+]; the
    key path of a simple index is the name itself, and the key path of a
    compound index is the list of the pieces of the name between the [+]
    signs (two pieces at least, none with a [+] in it, which joined by [+]
    give the name). *)
Theorem addIndex_key_path tableStore i :
  ∃ keyPath multiEntry,
    addIndex tableStore (JStr i)
    = ([CreateIndex tableStore i keyPath multiEntry], Ok ()) ∧
    multiEntry = bool_decide ("+"%char ∈ String.list_ascii_of_string i) ∧
    (multiEntry = false → keyPath = JStr i) ∧
    (multiEntry = true →
     ∃ pieces, keyPath = JArr (JStr <$> pieces) [] ∧
       (2 ≤ length pieces)%nat ∧
       Forall (λ piece, "+"%char ∉ String.list_ascii_of_string piece) pieces ∧
       String.concat "+" pieces = i).
Proof.
  unfold addIndex, call.
  pose proof (length_split "+" i) as Hlen.
  pose proof (concat_split "+" i) as Hjoin.
  pose proof (split_pieces "+" i) as Hpieces.
  assert ((1 < length (split "+" i))%nat
          ↔ "+"%char ∈ String.list_ascii_of_string i) as Hiff.
  { rewrite Hlen. split.
    - intros Hlt.
      destruct (filter _ (String.list_ascii_of_string i)) as [|c l] eqn:Hf;
        [simpl in Hlt; lia|].
      assert (c ∈ filter (λ c, c = "+"%char) (String.list_ascii_of_string i)) as Hc
        by (rewrite Hf; by left).
      by apply list_elem_of_filter in Hc as [-> ?].
    - intros Hin.
      assert ("+"%char ∈ filter (λ c, c = "+"%char) (String.list_ascii_of_string i))
        as Hc by by apply list_elem_of_filter.
      destruct (filter _ (String.list_ascii_of_string i));
        [by apply elem_of_nil in Hc|simpl; lia]. }
  case_bool_decide as Hlt.
  - eexists _, true. split; [done|]. split.
    { symmetry. apply bool_decide_eq_true. by apply Hiff. }
    split; [done|]. intros _. exists (split "+" i).
    split; [done|]. split; [lia|]. done.
  - eexists _, false. split; [done|]. split.
    { symmetry. apply bool_decide_eq_false. by rewrite <-Hiff. }
    split; [|done]. intros _.
    destruct (split "+" i) as [|piece [|piece' pieces]] eqn:Hsplit.
    + by destruct (split_not_nil "+" i).
    + simpl in *. by subst.
    + simpl in Hlt. lia.
Qed.

End index_names.

End schemas_properties.
